(** * common-module: structural utilities and the [useNavigable] composable

    A shallow embedding of [runtime/utils] (CLONE, SHUFFLE, RANDOM,
    INTERSECTION, DIFFERENCE, ITERATE, GET_VALUE, GET_OBJECT_PARAM, MERGE,
    CONVERT_DOT_TO_OBJECT) and of [runtime/composables/useNavigable.ts].

    The TypeScript sources are ES modules, hence strict-mode code.  Objects
    are mutable and shared by reference, so the embedding threads an explicit
    object store: a value is a primitive or a reference into the store, and
    every operation that writes a property returns the new store.

    Scope of the value universe: numbers held by values are integers (the
    fraction drawn by [Math.random] is floored before it is stored, and NaN
    arises only as an index that selects nothing), strings are byte strings, functions and symbols are absent, and property
    lookup sees own properties only (members inherited from the built-in
    prototypes are not modelled, except [length] of sequences and strings). *)

From Stdlib Require Import ZArith Lia Ascii String.
From stdpp Require Import base option list strings pretty.

Local Open Scope string_scope.
Local Open Scope list_scope.

(** ** Values, objects and the object store *)

Abbreviation loc := nat.

Inductive value : Type :=
  | VUndef
  | VNull
  | VBool (b : bool)
  | VNum (n : Z)
  | VStr (s : string)
  | VRef (l : loc).

(** The class of an object: what [Array.isArray] and [instanceof] observe. *)
Inductive kind : Type :=
  | KPlain
  | KArray (len : nat)
  | KDate (time : Z)
  | KRegExp (source flags : string)
  | KFile
  | KFileList.

(** An object is its class and its own enumerable properties, kept in
    enumeration order. *)
Record obj : Type := mkObj { okind : kind; props : list (string * value) }.

Abbreviation heap := (list obj).

Inductive error : Type := TypeError | SyntaxError | RangeError.

#[global] Instance value_eq_dec : EqDecision value.
Proof. solve_decision. Defined.
#[global] Instance kind_eq_dec : EqDecision kind.
Proof. solve_decision. Defined.
#[global] Instance obj_eq_dec : EqDecision obj.
Proof. solve_decision. Defined.
#[global] Instance error_eq_dec : EqDecision error.
Proof. solve_decision. Defined.

(** The result of running a piece of code: a value, a thrown exception,
    recursion that did not finish within the given depth, or a step that
    leaves the value universe (a number that is not an integer, a character
    that is not a byte). *)
Inductive outcome (A : Type) : Type :=
  | Ok (a : A)
  | Throw (e : error)
  | OutOfFuel
  | Unmodelled.
Arguments Ok {A} a.
Arguments Throw {A} e.
Arguments OutOfFuel {A}.
Arguments Unmodelled {A}.

#[global] Instance outcome_ret : MRet outcome := fun A a => Ok a.
#[global] Instance outcome_bind : MBind outcome := fun A B f m =>
  match m with
  | Ok a => f a
  | Throw e => Throw e
  | OutOfFuel => OutOfFuel
  | Unmodelled => Unmodelled
  end.
#[global] Instance outcome_fmap : FMap outcome := fun A B f m =>
  match m with
  | Ok a => Ok (f a)
  | Throw e => Throw e
  | OutOfFuel => OutOfFuel
  | Unmodelled => Unmodelled
  end.

Definition value_eqb (v w : value) : bool :=
  match v, w with
  | VUndef, VUndef | VNull, VNull => true
  | VBool a, VBool b => Bool.eqb a b
  | VNum a, VNum b => Z.eqb a b
  | VStr a, VStr b => String.eqb a b
  | VRef a, VRef b => Nat.eqb a b
  | _, _ => false
  end.

(** JavaScript truthiness. *)
Definition truthy (v : value) : bool :=
  match v with
  | VUndef | VNull => false
  | VBool b => b
  | VNum n => negb (Z.eqb n 0)
  | VStr s => negb (String.eqb s "")
  | VRef _ => true
  end.

(** ** Property keys *)

Definition is_digit (c : ascii) : bool :=
  (48 <=? nat_of_ascii c)%nat && (nat_of_ascii c <=? 57)%nat.

Fixpoint digits_to_nat (acc : nat) (s : string) : option nat :=
  match s with
  | EmptyString => Some acc
  | String c s' =>
      if is_digit c
      then digits_to_nat (10 * acc + (nat_of_ascii c - 48)) s'
      else None
  end.

(** A key is an integer index when it is the canonical decimal form of a
    natural number ("0", "7", "12", but not "" or "07"). *)
Definition index_of_key (k : string) : option nat :=
  match k with
  | EmptyString => None
  | _ =>
      match digits_to_nat 0 k with
      | Some n => if String.eqb (pretty n) k then Some n else None
      | None => None
      end
  end.

Definition key_of_index (i : nat) : string := pretty i.

(** ** Own properties *)

Definition lookup_prop (k : string) (ps : list (string * value)) : option value :=
  snd <$> List.find (fun p => String.eqb (fst p) k) ps.

Fixpoint update_prop (k : string) (v : value) (ps : list (string * value))
  : option (list (string * value)) :=
  match ps with
  | [] => None
  | (k', v') :: ps' =>
      if String.eqb k' k then Some ((k, v) :: ps')
      else cons (k', v') <$> update_prop k v ps'
  end.

(** A new integer key goes after the smaller integer keys and before
    everything else; a new string key goes last. *)
Fixpoint insert_index (i : nat) (k : string) (v : value)
    (ps : list (string * value)) : list (string * value) :=
  match ps with
  | [] => [(k, v)]
  | (k', v') :: ps' =>
      match index_of_key k' with
      | Some j =>
          if (j <? i)%nat then (k', v') :: insert_index i k v ps'
          else (k, v) :: ps
      | None => (k, v) :: ps
      end
  end.

Definition put_prop (k : string) (v : value) (ps : list (string * value))
  : list (string * value) :=
  match update_prop k v ps with
  | Some ps' => ps'
  | None =>
      match index_of_key k with
      | Some i => insert_index i k v ps
      | None => ps ++ [(k, v)]
      end
  end.

Definition remove_prop (k : string) (ps : list (string * value))
  : list (string * value) :=
  List.filter (fun p => negb (String.eqb (fst p) k)) ps.

Definition str_char (s : string) (i : nat) : option value :=
  (fun c => VStr (String c EmptyString)) <$> String.get i s.

(** [v[k]] for a value that is not [undefined] or [null]. *)
Definition get (h : heap) (v : value) (k : string) : value :=
  match v with
  | VRef l =>
      match h !! l with
      | Some o =>
          match okind o, String.eqb k "length" with
          | KArray len, true => VNum (Z.of_nat len)
          | _, _ => default VUndef (lookup_prop k (props o))
          end
      | None => VUndef
      end
  | VStr s =>
      if String.eqb k "length" then VNum (Z.of_nat (String.length s))
      else match index_of_key k with
           | Some i => default VUndef (str_char s i)
           | None => VUndef
           end
  | _ => VUndef
  end.

(** [Object.prototype.hasOwnProperty.call(v, k)]. *)
Definition has_own (h : heap) (v : value) (k : string) : bool :=
  match v with
  | VRef l =>
      match h !! l with
      | Some o =>
          match okind o, String.eqb k "length" with
          | KArray _, true => true
          | _, _ => bool_decide (is_Some (lookup_prop k (props o)))
          end
      | None => false
      end
  | VStr s =>
      if String.eqb k "length" then true
      else match index_of_key k with
           | Some i => (i <? String.length s)%nat
           | None => false
           end
  | _ => false
  end.

(** The own enumerable string keys, in enumeration order: what [for..in]
    guarded by [hasOwnProperty], and [Object.keys], visit. *)
Definition own_keys (h : heap) (v : value) : list string :=
  match v with
  | VRef l =>
      match h !! l with
      | Some o => (props o).*1
      | None => []
      end
  | VStr s => key_of_index <$> seq 0 (String.length s)
  | _ => []
  end.

(** The new length in [sequence.length = v]: [ToNumber(v)], which must be
    a natural number. *)
Definition to_length (v : value) : outcome nat :=
  match v with
  | VNum n => if (0 <=? n)%Z then Ok (Z.to_nat n) else Throw RangeError
  | VNull => Ok 0%nat
  | VBool b => Ok (if b then 1%nat else 0%nat)
  | VStr s =>
      if String.eqb s "" then Ok 0%nat
      else match index_of_key s with
           | Some n => Ok n
           | None => Unmodelled
           end
  | VUndef => Throw RangeError
  | VRef _ => Unmodelled
  end.

Definition below_length (n : nat) (p : string * value) : bool :=
  match index_of_key (fst p) with
  | Some i => (i <? n)%nat
  | None => true
  end.

(** Writing an index at or beyond the length of a sequence extends it. *)
Definition grow (kd : kind) (k : string) : kind :=
  match kd, index_of_key k with
  | KArray len, Some i => KArray (Nat.max len (S i))
  | _, _ => kd
  end.

(** Defining the data property [k] of the object at [l]. *)
Definition define_prop (h : heap) (l : loc) (k : string) (v : value) : heap :=
  match h !! l with
  | Some o => <[l := mkObj (grow (okind o) k) (put_prop k v (props o))]> h
  | None => h
  end.

(** [target[k] = v] in strict mode: writing a property of a primitive
    throws; writing [length] of a sequence truncates it. *)
Definition set_prop (h : heap) (target : value) (k : string) (v : value)
  : outcome heap :=
  match target with
  | VRef l =>
      match h !! l with
      | Some (mkObj (KArray len) ps) =>
          if String.eqb k "length" then
            n ← to_length v;
            Ok (<[l := mkObj (KArray n) (List.filter (below_length n) ps)]> h)
          else Ok (define_prop h l k v)
      | _ => Ok (define_prop h l k v)
      end
  | _ => Throw TypeError
  end.

(** [delete target[k]] in strict mode. *)
Definition delete_prop (h : heap) (target : value) (k : string) : outcome heap :=
  match target with
  | VRef l =>
      match h !! l with
      | Some o =>
          match okind o, String.eqb k "length" with
          | KArray _, true => Throw TypeError
          | kd, _ => Ok (<[l := mkObj kd (remove_prop k (props o))]> h)
          end
      | None => Ok h
      end
  | VStr s => if has_own h target k then Throw TypeError else Ok h
  | VUndef | VNull => Throw TypeError
  | _ => Ok h
  end.

(** Allocation: a new object lives at the first unused location. *)
Definition alloc (h : heap) (o : obj) : heap * value :=
  (h ++ [o], VRef (length h)).

Definition new_object (h : heap) : heap * value := alloc h (mkObj KPlain []).

Definition Array_isArray (h : heap) (v : value) : bool :=
  match v with
  | VRef l =>
      match h !! l with
      | Some (mkObj (KArray _) _) => true
      | _ => false
      end
  | _ => false
  end.

(** [v instanceof Object]: every object of the universe inherits from
    [Object.prototype]. *)
Definition instanceof_Object (v : value) : bool :=
  match v with
  | VRef _ => true
  | _ => false
  end.

Definition kind_of (h : heap) (v : value) : option kind :=
  match v with
  | VRef l => okind <$> h !! l
  | _ => None
  end.

(** ** Strings *)

(** [s.split(sep)] for a string separator. *)
Fixpoint split_go (sep : string) (skip : nat) (cur : string) (s : string)
  : list string :=
  match s with
  | EmptyString => [cur]
  | String c s' =>
      match skip with
      | S n => split_go sep n cur s'
      | O =>
          if String.prefix sep s
          then cur :: split_go sep (String.length sep - 1) "" s'
          else split_go sep 0 (cur +:+ String c "") s'
      end
  end.

Fixpoint chars (s : string) : list string :=
  match s with
  | EmptyString => []
  | String c s' => String c "" :: chars s'
  end.

Definition split (s sep : string) : list string :=
  if String.eqb sep "" then chars s else split_go sep 0 "" s.

(** [s.includes(sub)]. *)
Fixpoint includes (s sub : string) : bool :=
  String.prefix sub s ||
  match s with
  | EmptyString => false
  | String _ s' => includes s' sub
  end.

Definition is_space (c : ascii) : bool :=
  let n := nat_of_ascii c in
  (n =? 32)%nat || ((9 <=? n)%nat && (n <=? 13)%nat).

Fixpoint trim_left (s : string) : string :=
  match s with
  | EmptyString => EmptyString
  | String c s' => if is_space c then trim_left s' else s
  end.

(** Modelled from the spec: [TRIM] lives in [modify-string.functions], which
    is not among the sources; the spec only says that a value whose string
    form is "empty/whitespace-only after trimming" counts as absent, so
    [TRIM] removes the leading and the trailing white space. *)
Definition TRIM (s : string) : string :=
  String.rev (trim_left (String.rev (trim_left s))).

(** Modelled from the spec: [IS_DEFINED] lives in [check.functions], which is
    not among the sources; a value is defined when it is neither [undefined]
    nor [null] ("missing"). *)
Definition IS_DEFINED (v : value) : bool :=
  match v with
  | VUndef | VNull => false
  | _ => true
  end.

(** Modelled from the spec: [IS_OBJECT] lives in [check.functions], which is
    not among the sources; the spec calls its positive case "a mapping", as
    opposed to a sequence, a primitive or a special resource. *)
Definition IS_OBJECT (h : heap) (v : value) : bool :=
  match kind_of h v with
  | Some KPlain => true
  | _ => false
  end.

(** *** Rendering of dates (UTC) *)

Fixpoint zeros (n : nat) : string :=
  match n with
  | O => ""
  | S n' => "0" +:+ zeros n'
  end.

Definition pad (w : nat) (n : Z) : string :=
  let s := pretty (Z.abs n) in
  zeros (w - String.length s) +:+ s.

Definition civil_from_days (z : Z) : Z * Z * Z :=
  let z := (z + 719468)%Z in
  let era := (z / 146097)%Z in
  let doe := (z - era * 146097)%Z in
  let yoe := ((doe - doe / 1460 + doe / 36524 - doe / 146096) / 365)%Z in
  let doy := (doe - (365 * yoe + yoe / 4 - yoe / 100))%Z in
  let mp := ((5 * doy + 2) / 153)%Z in
  let d := (doy - (153 * mp + 2) / 5 + 1)%Z in
  let m := if (mp <? 10)%Z then (mp + 3)%Z else (mp - 9)%Z in
  let y := (yoe + era * 400)%Z in
  (if (m <=? 2)%Z then (y + 1)%Z else y, m, d).

Definition clock (t : Z) : string :=
  let ms := (t mod 86400000)%Z in
  pad 2 (ms / 3600000) +:+ ":" +:+ pad 2 (ms / 60000 mod 60) +:+ ":" +:+
  pad 2 (ms / 1000 mod 60).

Definition year_text (y : Z) : string :=
  if ((0 <=? y) && (y <=? 9999))%Z then pad 4 y
  else (if (y <? 0)%Z then "-" else "+") +:+ pad 6 y.

(** [Date.prototype.toISOString], which [toJSON] returns. *)
Definition Date_toISOString (t : Z) : string :=
  let '(y, m, d) := civil_from_days (t / 86400000) in
  year_text y +:+ "-" +:+ pad 2 m +:+ "-" +:+ pad 2 d +:+ "T" +:+
  clock t +:+ "." +:+ pad 3 (t mod 1000) +:+ "Z".

Definition day_name (days : Z) : string :=
  nth (Z.to_nat ((days + 4) mod 7))
      ["Sun"; "Mon"; "Tue"; "Wed"; "Thu"; "Fri"; "Sat"] "".

Definition month_name (m : Z) : string :=
  nth (Z.to_nat (m - 1))
      ["Jan"; "Feb"; "Mar"; "Apr"; "May"; "Jun";
       "Jul"; "Aug"; "Sep"; "Oct"; "Nov"; "Dec"] "".

(** [Date.prototype.toString] of a host whose time zone is UTC. *)
Definition Date_toString (t : Z) : string :=
  let days := (t / 86400000)%Z in
  let '(y, m, d) := civil_from_days days in
  day_name days +:+ " " +:+ month_name m +:+ " " +:+ pad 2 d +:+ " " +:+
  (if (y <? 0)%Z then "-" else "") +:+ pad 4 y +:+ " " +:+ clock t +:+
  " GMT+0000 (Coordinated Universal Time)".

(** *** String conversion *)

Fixpoint join (sep : string) (l : list string) : string :=
  match l with
  | [] => ""
  | [s] => s
  | s :: l' => s +:+ sep +:+ join sep l'
  end.

(** Running a fallible step over a list, left to right. *)
Fixpoint mapM {A B : Type} (f : A → outcome B) (l : list A) : outcome (list B) :=
  match l with
  | [] => Ok []
  | a :: l' => b ← f a; bs ← mapM f l'; Ok (b :: bs)
  end.

Fixpoint foldM {A S : Type} (f : S → A → outcome S) (l : list A) (s : S)
  : outcome S :=
  match l with
  | [] => Ok s
  | a :: l' => s' ← f s a; foldM f l' s'
  end.

(** The elements [0 .. len-1] of a sequence; a hole reads as [undefined]. *)
Definition elements (h : heap) (v : value) (len : nat) : list value :=
  (fun i => get h v (key_of_index i)) <$> seq 0 len.

(** [String(v)]: sequences join their elements with a comma, [null] and
    [undefined] elements rendering as nothing. *)
Fixpoint to_string (fuel : nat) (h : heap) (v : value) : outcome string :=
  match v with
  | VUndef => Ok "undefined"
  | VNull => Ok "null"
  | VBool b => Ok (if b then "true" else "false")
  | VNum n => Ok (pretty n)
  | VStr s => Ok s
  | VRef l =>
      match okind <$> h !! l with
      | Some (KArray len) =>
          match fuel with
          | O => OutOfFuel
          | S fuel' =>
              parts ← mapM (fun e => match e with
                                     | VUndef | VNull => Ok ""
                                     | _ => to_string fuel' h e
                                     end) (elements h v len);
              Ok (join "," parts)
          end
      | Some (KDate t) => Ok (Date_toString t)
      | Some (KRegExp src flags) => Ok ("/" +:+ src +:+ "/" +:+ flags)
      | Some KFile => Ok "[object File]"
      | Some KFileList => Ok "[object FileList]"
      | Some KPlain | None => Ok "[object Object]"
      end
  end.

(** [v.toString()]: a method call, so it throws on [undefined] and [null]. *)
Definition call_toString (fuel : nat) (h : heap) (v : value) : outcome string :=
  match v with
  | VUndef | VNull => Throw TypeError
  | _ => to_string fuel h v
  end.

(** An optional string parameter is truthy when given and not empty. *)
Definition given (s : option string) : bool :=
  match s with
  | Some s => negb (String.eqb s "")
  | None => false
  end.

Definition key (s : option string) : string := default "" s.

(** ** The utilities: GET_VALUE and GET_OBJECT_PARAM *)

(** [path.split(delimiter).reduce((accum, curr) => accum && accum[curr], item)] *)
Definition walk (h : heap) (item : value) (segments : list string) : value :=
  fold_left (fun accum curr => if truthy accum then get h accum curr else accum)
            segments item.

(** The value the first part of [GET_VALUE] resolves, before the final
    test on its string form. *)
Definition resolved (h : heap) (item : value) (name path : option string)
    (delimiter : string) : value :=
  if truthy item then
    if given path then
      let value := walk h item (split (key path) delimiter) in
      if truthy value && given name then get h value (key name) else value
    else
      if given name && IS_DEFINED (get h item (key name))
      then get h item (key name)
      else VUndef
  else VUndef.

Definition GET_VALUE (fuel : nat) (h : heap) (item : value)
    (name path : option string) (delimiter : string) : outcome value :=
  let value := resolved h item name path delimiter in
  if IS_DEFINED value then
    s ← call_toString fuel h value;
    Ok (if (0 <? String.length (TRIM s))%nat then value else VUndef)
  else Ok VUndef.

Definition GET_OBJECT_PARAM (fuel : nat) (h : heap) (item : value)
    (path : option string) (delimiter : string) : outcome value :=
  if IS_OBJECT h item then GET_VALUE fuel h item (Some "") path delimiter
  else Ok item.

(** ** Built-ins that write to the store *)

(** [Object.keys(v)]. *)
Definition Object_keys (h : heap) (v : value) : outcome (list string) :=
  match v with
  | VUndef | VNull => Throw TypeError
  | _ => Ok (own_keys h v)
  end.

(** [Object.assign(target, source)], of which the callers only use the
    effect.  A primitive target is wrapped and the wrapper is lost; the
    wrapper of a string refuses writes to its indices and its length. *)
Definition Object_assign (h : heap) (target source : value) : outcome heap :=
  match target with
  | VUndef | VNull => Throw TypeError
  | VRef _ =>
      foldM (fun h' k => set_prop h' target k (get h' source k))
            (own_keys h source) h
  | VStr _ =>
      if existsb (has_own h target) (own_keys h source)
      then Throw TypeError else Ok h
  | _ => Ok h
  end.

(** ** The utilities: ITERATE, CLONE, MERGE, CONVERT_DOT_TO_OBJECT *)

(** The callback receives the store it may write to; the keys are those
    present when the loop starts, each tested again when its turn comes. *)
Definition ITERATE (h : heap) (item : value)
    (callback : heap → value → string → nat → outcome heap) : outcome heap :=
  if truthy item && (IS_OBJECT h item || Array_isArray h item) then
    snd <$> foldM (fun '(index, h') k =>
                     if has_own h' item k
                     then h'' ← callback h' (get h' item k) k index;
                          Ok (S index, h'')
                     else Ok (index, h'))
                  (own_keys h item) (0%nat, h)
  else Ok h.

(** The body of both loops of [CLONE]: [copy[k] = CLONE(item[k])] for an own
    property [k] of [item]; [clone] is the recursive call. *)
Definition clone_property (clone : heap → value → outcome (heap * value))
    (item copy : value) (h : heap) (k : string) : outcome heap :=
  if has_own h item k then
    '(h', c) ← clone h (get h item k);
    set_prop h' copy k c
  else Ok h.

(** [null] and what is not of type [object] are the values that are not
    references. *)
Fixpoint CLONE (fuel : nat) (h : heap) (item : value) : outcome (heap * value) :=
  match item with
  | VRef l =>
      match okind <$> h !! l with
      | Some (KArray len) =>
          (* item.map(CLONE) *)
          match fuel with
          | O => OutOfFuel
          | S fuel' =>
              let '(h1, arr) := alloc h (mkObj (KArray len) []) in
              h2 ← foldM (clone_property (CLONE fuel') item arr)
                         (key_of_index <$> seq 0 len) h1;
              Ok (h2, arr)
          end
      | Some (KDate t) => Ok (alloc h (mkObj (KDate t) []))
      | Some (KRegExp src flags) => Ok (alloc h (mkObj (KRegExp src flags) []))
      | Some KFile => Ok (h, item)
      | Some KFileList => Ok (h, item)
      | Some KPlain =>
          match fuel with
          | O => OutOfFuel
          | S fuel' =>
              let '(h1, clonedObject) := new_object h in
              h2 ← foldM (clone_property (CLONE fuel') item clonedObject)
                         (own_keys h item) h1;
              Ok (h2, clonedObject)
          end
      | None => Ok (h, item)
      end
  | _ => Ok (h, item)
  end.

(** The body of the loop of [MERGE] for one key of [source]; [merge] is the
    recursive call. *)
Definition merge_property
    (merge : heap → value → value → outcome (heap * value))
    (target source : value) (h : heap) (key : string) : outcome heap :=
  if truthy target && instanceof_Object (get h source key) then
    let nested := get h source key in
    '(h', merged) ← merge h (get h target key) (get h source key);
    Object_assign h' nested merged
  else Ok h.

Fixpoint MERGE (fuel : nat) (h : heap) (target source : value)
  : outcome (heap * value) :=
  match fuel with
  | O => OutOfFuel
  | S fuel' =>
      keys ← Object_keys h source;
      h1 ← foldM (merge_property (MERGE fuel') target source) keys h;
      h2 ← (if truthy target then Object_assign h1 target source
             else let '(h', acceptor) := new_object h1 in
                  Object_assign h' acceptor source);
      Ok (h2, target)
  end.

(** The reducer over the segments of a dotted key carries the store and
    the accumulator. *)
Abbreviation accumulator := (heap * value)%type.

(** One step of that reducer; [last] is [keys.length - 1]. *)
Definition expand_step (value : value) (last : nat)
    (state : accumulator) (segment : nat * string) : outcome accumulator :=
  let '(h, accum) := state in
  let '(index, curr) := segment in
  if truthy accum then
    if IS_DEFINED (get h accum curr) then
      Ok (h, get h accum curr)
    else if (index <? last)%nat then
      let '(h1, level) := new_object h in
      h2 ← set_prop h1 accum curr level;
      Ok (h2, level)
    else
      h2 ← set_prop h accum curr value;
      Ok (h2, value)
  else Ok (h, VUndef).

(** The callback of [CONVERT_DOT_TO_OBJECT] for one property. *)
Definition expand_key (h : heap) (params value : value) (key : string)
  : outcome heap :=
  if includes key "." then
    let keys := split key "." in
    '(h', _) ← foldM (expand_step value (length keys - 1))
                     (zip (seq 0 (length keys)) keys) (h, params);
    delete_prop h' params key
  else Ok h.

Definition CONVERT_DOT_TO_OBJECT (h : heap) (params : value) : outcome heap :=
  ITERATE h params (fun h value key _ => expand_key h params value key).

(** ** JSON *)

Definition dquote : string := String (ascii_of_nat 34) EmptyString.

Definition hex_digit (n : nat) : string :=
  String (nth n (list_ascii_of_string "0123456789abcdef") "0"%char) EmptyString.

(** [QuoteJSONString], character by character. *)
Definition quote_char (c : ascii) : string :=
  let n := nat_of_ascii c in
  if (n =? 8)%nat then "\b"
  else if (n =? 9)%nat then "\t"
  else if (n =? 10)%nat then "\n"
  else if (n =? 12)%nat then "\f"
  else if (n =? 13)%nat then "\r"
  else if (n =? 34)%nat then "\" +:+ dquote
  else if (n =? 92)%nat then "\\"
  else if (n <? 32)%nat then "\u00" +:+ hex_digit (n / 16) +:+ hex_digit (n mod 16)
  else String c EmptyString.

Fixpoint quote_body (s : string) : string :=
  match s with
  | EmptyString => EmptyString
  | String c s' => quote_char c +:+ quote_body s'
  end.

Definition quote (s : string) : string := dquote +:+ quote_body s +:+ dquote.

(** A member of an object; a property whose value has no JSON form is
    left out. *)
Definition member (k : string) (r : option string) : option string :=
  option_map (fun t => quote k +:+ ":" +:+ t) r.

(** [JSON.stringify(v)]; [None] is the result [undefined].  A date goes
    through its [toJSON]; a cyclic structure, on which the built-in throws,
    exhausts the depth here. *)
Fixpoint JSON_stringify (fuel : nat) (h : heap) (v : value)
  : outcome (option string) :=
  match v with
  | VUndef => Ok None
  | VNull => Ok (Some "null")
  | VBool b => Ok (Some (if b then "true" else "false"))
  | VNum n => Ok (Some (pretty n))
  | VStr s => Ok (Some (quote s))
  | VRef l =>
      match okind <$> h !! l with
      | Some (KDate t) => Ok (Some (quote (Date_toISOString t)))
      | Some (KArray len) =>
          match fuel with
          | O => OutOfFuel
          | S fuel' =>
              parts ← mapM (fun e => r ← JSON_stringify fuel' h e;
                                     Ok (default "null" r))
                           (elements h v len);
              Ok (Some ("[" +:+ join "," parts +:+ "]"))
          end
      | _ =>
          match fuel with
          | O => OutOfFuel
          | S fuel' =>
              parts ← mapM (fun k => r ← JSON_stringify fuel' h (get h v k);
                                     Ok (member k r))
                           (own_keys h v);
              Ok (Some ("{" +:+ join "," (omap id parts) +:+ "}"))
          end
      end
  end.

(** The values a JSON text denotes. *)
#[local] Set Warnings "-register-all".
Inductive json : Type :=
  | JNull
  | JBool (b : bool)
  | JNum (n : Z)
  | JStr (s : string)
  | JArr (items : list json)
  | JObj (members : list (string * json)).

Definition is_json_ws (c : ascii) : bool :=
  let n := nat_of_ascii c in
  (n =? 32)%nat || (n =? 9)%nat || (n =? 10)%nat || (n =? 13)%nat.

Fixpoint skip_ws (s : string) : string :=
  match s with
  | EmptyString => EmptyString
  | String c s' => if is_json_ws c then skip_ws s' else s
  end.

Definition hex_value (c : ascii) : option nat :=
  let n := nat_of_ascii c in
  if is_digit c then Some (n - 48)%nat
  else if ((65 <=? n) && (n <=? 70))%nat then Some (n - 55)%nat
  else if ((97 <=? n) && (n <=? 102))%nat then Some (n - 87)%nat
  else None.

(** The character a two-character escape stands for. *)
Definition escape_char (e : ascii) : option ascii :=
  let n := nat_of_ascii e in
  if (n =? 34)%nat || (n =? 92)%nat || (n =? 47)%nat then Some e
  else if (n =? 98)%nat then Some (ascii_of_nat 8)
  else if (n =? 102)%nat then Some (ascii_of_nat 12)
  else if (n =? 110)%nat then Some (ascii_of_nat 10)
  else if (n =? 114)%nat then Some (ascii_of_nat 13)
  else if (n =? 116)%nat then Some (ascii_of_nat 9)
  else None.

(** The rest of a string literal after its opening quote.  Strings are byte
    strings, so a [\u] escape above [\u00ff] leaves the universe. *)
Fixpoint parse_string_body (acc : string) (s : string)
  : outcome (string * string) :=
  match s with
  | EmptyString => Throw SyntaxError
  | String c r =>
      let n := nat_of_ascii c in
      if (n =? 34)%nat then Ok (acc, r)
      else if (n =? 92)%nat then
        match r with
        | String e r' =>
            if (nat_of_ascii e =? 117)%nat then
              match r' with
              | String a (String b (String x (String y r'')))  =>
                  match hex_value a, hex_value b, hex_value x, hex_value y with
                  | Some O, Some O, Some hi, Some lo =>
                      parse_string_body
                        (acc +:+ String (ascii_of_nat (16 * hi + lo)) "") r''
                  | Some _, Some _, Some _, Some _ => Unmodelled
                  | _, _, _, _ => Throw SyntaxError
                  end
              | _ => Throw SyntaxError
              end
            else
              match escape_char e with
              | Some c' => parse_string_body (acc +:+ String c' "") r'
              | None => Throw SyntaxError
              end
        | EmptyString => Throw SyntaxError
        end
      else if (n <? 32)%nat then Throw SyntaxError
      else parse_string_body (acc +:+ String c "") r
  end.

Fixpoint take_digits (acc : string) (s : string) : string * string :=
  match s with
  | String c r => if is_digit c then take_digits (acc +:+ String c "") r
                  else (acc, s)
  | EmptyString => (acc, s)
  end.

(** A number literal.  Numbers are integers, so a literal that goes on with
    a fraction or an exponent leaves the universe. *)
Definition parse_number (s : string) : outcome (Z * string) :=
  let '(neg, s1) := match s with
                    | String "-" r => (true, r)
                    | _ => (false, s)
                    end in
  let '(ds, rest) := take_digits "" s1 in
  let continues := match rest with
                   | String c _ =>
                       let n := nat_of_ascii c in
                       (n =? 46)%nat || (n =? 101)%nat || (n =? 69)%nat
                   | EmptyString => false
                   end in
  match index_of_key ds with
  | Some n =>
      if continues then Unmodelled
      else Ok (if neg then (- Z.of_nat n)%Z else Z.of_nat n, rest)
  | None => Throw SyntaxError
  end.

Fixpoint drop_chars (n : nat) (s : string) : string :=
  match n, s with
  | S n', String _ s' => drop_chars n' s'
  | _, _ => s
  end.

Fixpoint parse_value (fuel : nat) (s : string) : outcome (json * string) :=
  match fuel with
  | O => OutOfFuel
  | S fuel' =>
      let s := skip_ws s in
      match s with
      | String "{" r =>
          match skip_ws r with
          | String "}" r' => Ok (JObj [], r')
          | r1 => parse_members fuel' r1 []
          end
      | String "[" r =>
          match skip_ws r with
          | String "]" r' => Ok (JArr [], r')
          | r1 => parse_elements fuel' r1 []
          end
      | String c r =>
          if (nat_of_ascii c =? 34)%nat then
            '(str, r') ← parse_string_body "" r; Ok (JStr str, r')
          else if String.prefix "true" s then Ok (JBool true, drop_chars 4 s)
          else if String.prefix "false" s then Ok (JBool false, drop_chars 5 s)
          else if String.prefix "null" s then Ok (JNull, drop_chars 4 s)
          else '(n, r') ← parse_number s; Ok (JNum n, r')
      | EmptyString => Throw SyntaxError
      end
  end
with parse_elements (fuel : nat) (s : string) (acc : list json)
  : outcome (json * string) :=
  match fuel with
  | O => OutOfFuel
  | S fuel' =>
      '(v, r) ← parse_value fuel' s;
      match skip_ws r with
      | String "," r' => parse_elements fuel' r' (acc ++ [v])
      | String "]" r' => Ok (JArr (acc ++ [v]), r')
      | _ => Throw SyntaxError
      end
  end
with parse_members (fuel : nat) (s : string) (acc : list (string * json))
  : outcome (json * string) :=
  match fuel with
  | O => OutOfFuel
  | S fuel' =>
      match skip_ws s with
      | String c r =>
          if (nat_of_ascii c =? 34)%nat then
            '(k, r1) ← parse_string_body "" r;
            match skip_ws r1 with
            | String ":" r2 =>
                '(v, r3) ← parse_value fuel' r2;
                match skip_ws r3 with
                | String "," r4 => parse_members fuel' r4 (acc ++ [(k, v)])
                | String "}" r4 => Ok (JObj (acc ++ [(k, v)]), r4)
                | _ => Throw SyntaxError
                end
            | _ => Throw SyntaxError
            end
          else Throw SyntaxError
      | EmptyString => Throw SyntaxError
      end
  end.

(** The text is one value, white space around it; every call of the parser
    that follows another has consumed a character in between, so twice the
    length of the text bounds the depth. *)
Definition parse_json (s : string) : outcome json :=
  '(j, rest) ← parse_value (2 * String.length s + 2) s;
  match skip_ws rest with
  | EmptyString => Ok j
  | _ => Throw SyntaxError
  end.

(** Building the value a JSON text denotes: fresh objects and sequences,
    properties defined in the order of the text, a repeated key keeping its
    place and taking the last value. *)
Fixpoint alloc_json (j : json) (h : heap) : heap * value :=
  match j with
  | JNull => (h, VNull)
  | JBool b => (h, VBool b)
  | JNum n => (h, VNum n)
  | JStr s => (h, VStr s)
  | JArr items =>
      let l := length h in
      let h1 := h ++ [mkObj (KArray 0) []] in
      (snd (fold_left (fun '(i, h') e =>
                         let '(h'', v) := alloc_json e h' in
                         (S i, define_prop h'' l (key_of_index i) v))
                      items (0%nat, h1)),
       VRef l)
  | JObj members =>
      let l := length h in
      let h1 := h ++ [mkObj KPlain []] in
      (fold_left (fun h' '(k, e) =>
                    let '(h'', v) := alloc_json e h' in
                    define_prop h'' l k v)
                 members h1,
       VRef l)
  end.

(** [JSON.parse(s)]. *)
Definition JSON_parse (h : heap) (s : string) : outcome (heap * value) :=
  j ← parse_json s; Ok (alloc_json j h).


(** ** The composable [useNavigable] *)

(** One call of [navigateTo]. *)
Record navigation : Type := mkNavigation {
  nav_path : string;
  nav_query : value;
  nav_replace : bool
}.

(** What an instance of the composable can read and write: the object
    store, its queue cell [_queue] ([None] is the initial [undefined]), the
    query of the current route, the path [useUrl("self", { route })]
    resolves to, the calls of [navigateTo] so far and the scroll requests
    handed to [nextTick]. *)
Record world : Type := mkWorld {
  store : heap;
  _queue : option (list value);
  route_query : value;
  self_url : string;
  navigations : list navigation;
  scrolls : list value
}.

Definition with_store (w : world) (h : heap) : world :=
  mkWorld h (_queue w) (route_query w) (self_url w) (navigations w) (scrolls w).

(** [v?.k] *)
Definition opt_chain (h : heap) (v : value) (k : string) : value :=
  match v with
  | VUndef | VNull => VUndef
  | _ => get h v k
  end.

(** [v[k]] as an expression: reading a property of [undefined] or [null]
    throws. *)
Definition get_prop (h : heap) (v : value) (k : string) : outcome value :=
  match v with
  | VUndef | VNull => Throw TypeError
  | _ => Ok (get h v k)
  end.

(** An array literal. *)
Definition new_array (h : heap) (items : list value) : heap * value :=
  alloc h (mkObj (KArray (length items))
                 (zip (key_of_index <$> seq 0 (length items)) items)).

Definition navigate (w : world) (params : list value) : world :=
  mkWorld (store w) (Some params) (route_query w) (self_url w)
          (navigations w) (scrolls w).

(** [if (scrollTo) nextTick(...)]: the scrolling itself belongs to the
    document; the request is recorded. *)
Definition request_scroll (w : world) (scrollTo : value) : world :=
  if truthy scrollTo
  then mkWorld (store w) (_queue w) (route_query w) (self_url w)
               (navigations w) (scrolls w ++ [scrollTo])
  else w.

(** The first part of [_generateQueryParams]: the parameters as objects,
    before every value is turned into its JSON text. *)
Definition query_entries (h : heap) (query : value) (syscode : string)
    (pagination config : value) : outcome (heap * value) :=
  let '(h, queryParams) := new_object h in
  h ← ITERATE h query (fun h value key _ =>
         match value with
         | VStr text =>
             match JSON_parse h text with
             | Ok (h', parsed) => set_prop h' queryParams key parsed
             | Throw _ => Ok h
             | OutOfFuel => OutOfFuel
             | Unmodelled => Unmodelled
             end
         | _ => set_prop h queryParams key value
         end);
  '(h, entry) ← (if truthy (get h queryParams syscode)
                 then Ok (h, get h queryParams syscode)
                 else Ok (new_object h));
  h ← set_prop h queryParams syscode entry;
  h ← (if truthy config
       then ITERATE h config (fun h value key _ =>
              set_prop h (get h queryParams syscode) key value)
       else Ok h);
  let '(h, page_limit) :=
    alloc h (mkObj KPlain [("page", opt_chain h pagination "page");
                           ("limit", opt_chain h pagination "limit")]) in
  h ← set_prop h (get h queryParams syscode) "pagination" page_limit;
  Ok (h, queryParams).

Definition _generateQueryParams (fuel : nat) (h : heap) (query : value)
    (syscode : string) (pagination config : value) : outcome (heap * value) :=
  '(h, queryParams) ← query_entries h query syscode pagination config;
  h ← ITERATE h queryParams (fun h value key _ =>
         text ← JSON_stringify fuel h value;
         set_prop h queryParams key (from_option VStr VUndef text));
  Ok (h, queryParams).

Definition forwarded_fields : list string :=
  ["sort"; "cols"; "displayFields"; "panel"; "tab"; "fix"; "mode"].

Definition _navigate (fuel : nat) (w : world) (config params : value)
  : outcome world :=
  let h := store w in
  if truthy (opt_chain h config "syscode") then
    '(h, cloned) ← CLONE fuel h params;
    let '(h, configParams) :=
      if truthy cloned then (h, cloned) else new_object h in
    h ← foldM (fun h field => set_prop h configParams field (get h config field))
              forwarded_fields h;
    syscode ← to_string fuel h (get h config "syscode");
    '(h, pagination) ← (if truthy (get h config "pagination")
                        then Ok (h, get h config "pagination")
                        else Ok (new_object h));
    '(h, query) ← _generateQueryParams fuel h (route_query w) syscode
                                       pagination configParams;
    Ok (mkWorld h (_queue w) (route_query w) (self_url w)
                (navigations w ++ [mkNavigation (self_url w) query true])
                (scrolls w))
  else Ok w.

Definition onPageChange (w : world) (config value scrollTo : value)
  : outcome world :=
  let h := store w in
  if truthy (opt_chain h config "syscode") then
    let '(h, pagination) :=
      if truthy (get h config "pagination")
      then (h, get h config "pagination") else new_object h in
    h ← set_prop h pagination "page" value;
    Ok (request_scroll (navigate (with_store w h) [config]) scrollTo)
  else Ok w.

Definition onLimitChange (w : world) (config value scrollTo : value)
  : outcome world :=
  let h := store w in
  if truthy (opt_chain h config "syscode") then
    let '(h, pagination) :=
      if truthy (get h config "pagination")
      then (h, get h config "pagination") else new_object h in
    h ← set_prop h pagination "limit" value;
    h ← set_prop h pagination "page" (VNum 1);
    Ok (request_scroll (navigate (with_store w h) [config]) scrollTo)
  else Ok w.

Definition onSort (w : world) (config value : value) : outcome world :=
  let h := store w in
  if truthy (opt_chain h config "syscode") then
    first ← get_prop h value "0";
    '(h, sort) ← (if Array_isArray h first then Ok (h, value)
                  else if truthy (get h value "length")
                       then Ok (new_array h [value])
                       else Ok (new_array h []));
    h ← set_prop h config "sort" sort;
    Ok (navigate (with_store w h) [config])
  else Ok w.


(** ** The debounced watcher *)

(** The callback of the watcher: [(params) => _navigate(params[0], params[1])]. *)
Definition flush (fuel : nat) (w : world) (params : list value) : outcome world :=
  _navigate fuel w (nth 0 params VUndef) (nth 1 params VUndef).

Definition debounce_window : Z := 400.

(** Modelled from the spec: [watch] (vue) and [useDebounceFn] (@vueuse/core)
    are library code outside the sources.  As the spec states it (4.3 and
    5), every write to the queue restarts one timer of 400 ms, "a single
    pending deferred callback", and when the timer expires with no call in
    between the callback runs once, with the value written last.

    A session is the clock in milliseconds, the pending timer (its deadline
    and the parameters it will flush), the parameters of every flush so
    far, and the state of the composable; an exception in a flush is kept
    as the state. *)
Record session : Type := mkSession {
  now : Z;
  timer : option (Z * list value);
  flushed : list (list value);
  state : outcome world
}.

Inductive event : Type :=
  | Navigate (params : list value)
  | Elapse (ms : Z).

Definition idle (w : world) : session := mkSession 0 None [] (Ok w).

(** The pending callback runs once its deadline is reached. *)
Definition expire (fuel : nat) (s : session) : session :=
  match timer s with
  | Some (deadline, params) =>
      if (deadline <=? now s)%Z
      then mkSession (now s) None (flushed s ++ [params])
                     (w ← state s; flush fuel w params)
      else s
  | None => s
  end.

(** A call of [navigate] writes a new array to the queue, so the watcher
    runs and restarts the timer with it; the passing of time lets the
    pending callback run. *)
Definition step (fuel : nat) (s : session) (e : event) : session :=
  match e with
  | Navigate params =>
      mkSession (now s) (Some ((now s + debounce_window)%Z, params)) (flushed s)
                (w ← state s; Ok (navigate w params))
  | Elapse ms =>
      expire fuel (mkSession (now s + Z.max 0 ms)%Z (timer s) (flushed s) (state s))
  end.

Definition run (fuel : nat) (s : session) (events : list event) : session :=
  fold_left (step fuel) events s.

(** Calls of [navigate], each a given time after the one before. *)
Definition calls_trace (calls : list (Z * list value)) : list event :=
  flat_map (fun c => [Elapse (fst c); Navigate (snd c)]) calls.

Definition within_window (c : Z * list value) : Prop :=
  (0 ≤ fst c < debounce_window)%Z.

(** ** Vocabulary of the statements *)

(** A value that counts as missing on the way down a path: [undefined],
    [null] or the empty string. *)
Definition is_absent (v : value) : bool :=
  match v with
  | VUndef | VNull => true
  | VStr s => String.eqb s ""
  | _ => false
  end.

(** The reading "a falsy segment on the path gives [undefined]": whenever
    walking some leading segments of the path reaches a falsy value, the
    lookup returns [undefined]. *)
Definition falsy_segment_gives_undefined : Prop :=
  ∀ fuel (h : heap) item name p delimiter pre,
    p ≠ "" →
    pre `prefix_of` split p delimiter →
    truthy (walk h item pre) = false →
    GET_VALUE fuel h item name (Some p) delimiter = Ok VUndef.

(** The reading "without a syscode the mutators still write the config":
    [onPageChange] on a config whose [syscode] is [undefined] leaves the
    page it was given in [config.pagination.page]. *)
Definition page_written_without_syscode : Prop :=
  ∀ (w : world) config page scrollTo,
    get (store w) config "syscode" = VUndef →
    ∃ w', onPageChange w config page scrollTo = Ok w' ∧
          get (store w') (get (store w') config "pagination") "page" = page.

(** A view that is not bound to a route: [{pagination: {page: 1}}]. *)
Definition unbound_view : world :=
  mkWorld [mkObj KPlain [("pagination", VRef 1)]; mkObj KPlain [("page", VNum 1)];
           mkObj KPlain []]
          None (VRef 2) "/list" [] [].

(** A bound view without pagination: [{syscode: "grid"}]. *)
Definition bare_view : world :=
  mkWorld [mkObj KPlain [("syscode", VStr "grid")]; mkObj KPlain []]
          None (VRef 1) "/list" [] [].

(** The reading "the expansion of dotted keys never throws". *)
Definition dotted_expansion_never_throws : Prop :=
  ∀ (h : heap) params e, CONVERT_DOT_TO_OBJECT h params ≠ Throw e.

Definition is_primitive (v : value) : bool :=
  match v with
  | VRef _ => false
  | _ => true
  end.

Definition undotted (p : string * value) : bool := negb (includes (fst p) ".").

Definition non_array (kd : kind) : bool :=
  match kd with
  | KArray _ => false
  | _ => true
  end.

(** All the values of a property list are primitives. *)
Definition flat (ps : list (string * value)) : Prop :=
  Forall (fun p => is_primitive (snd p) = true) ps.

(** The reading "an absent target still yields a mapping": merging a
    mapping into [undefined] returns an object that has the keys of the
    source. *)
Definition absent_target_yields_mapping : Prop :=
  ∀ fuel (h : heap) source,
    IS_OBJECT h source = true →
    ∃ h' l, MERGE (S fuel) h VUndef source = Ok (h', VRef l) ∧
            ∀ k, k ∈ own_keys h source → has_own h' (VRef l) k = true.

(** The store of a target [{a: {x: 1}, b: 1}] (at 0) and a source
    [{a: {y: 2}, b: 2}] (at 2). *)
Definition merge_sample : heap :=
  [mkObj KPlain [("a", VRef 1); ("b", VNum 1)]; mkObj KPlain [("x", VNum 1)];
   mkObj KPlain [("a", VRef 3); ("b", VNum 2)]; mkObj KPlain [("y", VNum 2)]].

(** The one key of a source that holds an object, among primitives. *)
Definition only_nested_at (k : string) (ps : list (string * value)) : Prop :=
  Forall (fun p => is_primitive (snd p) = true ∧ fst p ≠ k) ps.

(** The entry of the built query under [syscode], read back from its JSON
    text: [JSON.parse(_generateQueryParams(...)[syscode])]. *)
Definition parsed_entry (fuel : nat) (h : heap) (query : value)
    (syscode : string) (pagination config : value) : outcome json :=
  '(h', queryParams) ← _generateQueryParams fuel h query syscode pagination config;
  match get h' queryParams syscode with
  | VStr text => parse_json text
  | _ => Throw TypeError
  end.

(** The keys of the built query. *)
Definition built_keys (fuel : nat) (h : heap) (query : value)
    (syscode : string) (pagination config : value) : outcome (list string) :=
  '(h', queryParams) ← _generateQueryParams fuel h query syscode pagination config;
  Ok (own_keys h' queryParams).

(** The store of an empty query (at 0), the pagination [{page:2, limit:10}]
    (at 1) and the config [{sort: [["name","asc"]]}] (at 2). *)
Definition grid_sample : heap :=
  [mkObj KPlain [];
   mkObj KPlain [("page", VNum 2); ("limit", VNum 10)];
   mkObj KPlain [("sort", VRef 3)];
   mkObj (KArray 1) [("0", VRef 4)];
   mkObj (KArray 2) [("0", VStr "name"); ("1", VStr "asc")]].

(** The same with a config that has a [pagination] of its own:
    [{pagination: {page: 99}, sort: [["name","asc"]]}] (at 2). *)
Definition grid_sample_conflict : heap :=
  [mkObj KPlain [];
   mkObj KPlain [("page", VNum 2); ("limit", VNum 10)];
   mkObj KPlain [("pagination", VRef 5); ("sort", VRef 3)];
   mkObj (KArray 1) [("0", VRef 4)];
   mkObj (KArray 2) [("0", VStr "name"); ("1", VStr "asc")];
   mkObj KPlain [("page", VNum 99)]].

(** ** Nested structures *)

(** Binary-file and file-list handles: resources, shared and never copied. *)
Definition is_handle (h : heap) (l : loc) : bool :=
  match okind <$> h !! l with
  | Some KFile | Some KFileList => true
  | _ => false
  end.

Definition index_below (len : nat) (k : string) : bool :=
  match index_of_key k with
  | Some i => (i <? len)%nat
  | None => false
  end.

(** A nested structure of depth at most [d], hence without a cycle:
    primitives and handles at the leaves, dates and regular expressions
    without properties of their own, mappings of nested structures, and
    sequences whose properties are their elements. *)
Fixpoint nested (d : nat) (h : heap) (v : value) : bool :=
  match v with
  | VRef l =>
      match h !! l with
      | Some o =>
          if is_handle h l then true
          else
            match d with
            | O => false
            | S d' =>
                match okind o with
                | KPlain => forallb (fun p => nested d' h (snd p)) (props o)
                | KArray len =>
                    forallb (fun p => index_below len (fst p) && nested d' h (snd p))
                            (props o)
                | _ => match props o with [] => true | _ => false end
                end
            end
      | None => false
      end
  | _ => true
  end.

(** The objects a value leads to, itself included, within [d] levels;
    handles are leaves. *)
Fixpoint reaches (d : nat) (h : heap) (v : value) (l : loc) : bool :=
  match v with
  | VRef l0 =>
      Nat.eqb l0 l ||
      match d with
      | O => false
      | S d' =>
          if is_handle h l0 then false
          else match h !! l0 with
               | Some o => existsb (fun p => reaches d' h (snd p) l) (props o)
               | None => false
               end
      end
  | _ => false
  end.

(** Deep equality of [v1] in the store [h1] and [v2] in the store [h2]:
    equal primitives; the same handle; or objects of the same class (for a
    date the same instant, for a regular expression the same pattern and
    flags, for a sequence the same length) with the same keys and deep-equal
    values under every key. *)
Fixpoint deep_equal (d : nat) (h1 : heap) (v1 : value) (h2 : heap) (v2 : value)
  : bool :=
  match v1, v2 with
  | VRef l1, VRef l2 =>
      match h1 !! l1, h2 !! l2 with
      | Some o1, Some o2 =>
          bool_decide (okind o1 = okind o2) &&
          (if is_handle h1 l1 then Nat.eqb l1 l2
           else
             match d with
             | O => false
             | S d' =>
                 forallb (fun k => has_own h2 v2 k &&
                                   deep_equal d' h1 (get h1 v1 k) h2 (get h2 v2 k))
                         (own_keys h1 v1) &&
                 forallb (has_own h1 v1) (own_keys h2 v2)
             end)
      | _, _ => false
      end
  | VRef _, _ | _, VRef _ => false
  | _, _ => value_eqb v1 v2
  end.

(** What [CLONE] guarantees of its result [y] in the store [h'], for an
    input [x] in the store [h]. *)
Definition clone_post (d : nat) (h : heap) (x : value) (h' : heap) (y : value)
  : Prop :=
  (∀ l : loc, l < length h → h' !! l = h !! l) ∧
  (length h ≤ length h')%nat ∧
  deep_equal d h x h' y = true ∧
  (∀ l : loc, reaches d h' y l = true →
        l < length h' ∧ (l < length h → is_handle h l = true)) ∧
  match x with
  | VRef l => if is_handle h l then y = x
              else ∃ l', y = VRef l' ∧ (length h ≤ l')%nat
  | _ => y = x
  end.

(** A property of the copy under construction: it copies an own property of
    the original [x], deep-equal to it, made of new objects and handles. *)
Definition copied (d : nat) (h : heap) (x : value) (hi : heap)
    (p : string * value) : Prop :=
  has_own h x (fst p) = true ∧
  deep_equal d h (get h x (fst p)) hi (snd p) = true ∧
  ∀ l : loc, reaches d hi (snd p) l = true →
       l < length hi ∧ l ≠ length h ∧ (l < length h → is_handle h l = true).

(** The state of a loop of [CLONE] after the keys [done]: the original
    store is intact and the copy, at the first new location, holds the
    copied properties. *)
Definition copying (d : nat) (h : heap) (x : value) (kd : kind)
    (done : list string) (hi : heap) : Prop :=
  (∀ l : loc, l < length h → hi !! l = h !! l) ∧
  length h < length hi ∧
  ∃ qs, hi !! length h = Some (mkObj kd qs) ∧
        Forall (copied d h x hi) qs ∧
        (∀ k, k ∈ done → has_own h x k = true → is_Some (lookup_prop k qs)).

(** The store of [{when: <date>, tags: ["a", ["b"]], file: <file>}]. *)
Definition clone_sample : heap :=
  [mkObj KPlain [("when", VRef 1); ("tags", VRef 2); ("file", VRef 4)];
   mkObj (KDate 86400000) [];
   mkObj (KArray 2) [("0", VStr "a"); ("1", VRef 3)];
   mkObj (KArray 1) [("0", VStr "b")];
   mkObj KFile []].

(** The store of [{a: inner}]. *)
Definition sample_nested (inner : list (string * value)) : heap :=
  [mkObj KPlain [("a", VRef 1)]; mkObj KPlain inner].

(** ** The utilities on sequences: SHUFFLE, RANDOM, INTERSECTION, DIFFERENCE *)

(** A result of [Math.random()]: the fraction [numer / (numer + under + 1)],
    which lies in [0, 1). *)
Record fraction : Type := mkFraction { numer : nat; under : nat }.

(** [Math.floor(x * n)], the product taken exactly. *)
Definition floor_scaled (x : fraction) (n : Z) : Z :=
  (Z.of_nat (numer x) * n / Z.of_nat (numer x + under x + 1))%Z.

(** [ToNumber(v)]; [None] is [NaN]. *)
Definition to_number (v : value) : outcome (option Z) :=
  match v with
  | VUndef => Ok None
  | VNull => Ok (Some 0%Z)
  | VBool b => Ok (Some (if b then 1%Z else 0%Z))
  | VNum n => Ok (Some n)
  | VStr s =>
      if String.eqb s "" then Ok (Some 0%Z)
      else match index_of_key s with
           | Some n => Ok (Some (Z.of_nat n))
           | None => Unmodelled
           end
  | VRef _ => Unmodelled
  end.

(** The property key a number stands for. *)
Definition number_key (n : option Z) : string :=
  match n with
  | Some n => pretty n
  | None => "NaN"
  end.

(** The loop of [SHUFFLE] from [i] down to 1; [draw] counts the calls of
    [Math.random] so far.  Both elements of [[value[j], value[i]]] are read
    before either is written; the pair itself is a temporary that nothing
    can reach, and is not kept in the store. *)
Fixpoint shuffle_from (random : nat → fraction) (draw : nat) (value : value)
    (i : nat) (h : heap) : outcome heap :=
  match i with
  | O => Ok h
  | S i' =>
      let j := number_key (Some (floor_scaled (random draw) (Z.of_nat i + 1))) in
      let at_j := get h value j in
      let at_i := get h value (key_of_index i) in
      h ← set_prop h value (key_of_index i) at_j;
      h ← set_prop h value j at_i;
      shuffle_from random (S draw) value i' h
  end.

(** [random] gives the results of the successive calls of [Math.random]. *)
Definition SHUFFLE (random : nat → fraction) (h : heap) (value : value)
  : outcome heap :=
  len ← get_prop h value "length";
  n ← to_number len;
  match n with
  | Some n => shuffle_from random 0 value (Z.to_nat (n - 1)) h
  | None => Ok h
  end.

(** The TypeScript type [any] of the result. *)
Abbreviation any := value.

Definition RANDOM (random : fraction) (h : heap) (value : value) : outcome any :=
  len ← get_prop h value "length";
  n ← to_number len;
  Ok (get h value (number_key (floor_scaled random <$> n))).

(** The slots [0 .. len-1] of a sequence; [None] is a hole. *)
Definition slots (h : heap) (v : value) (len : nat) : list (option value) :=
  (fun i => if has_own h v (key_of_index i)
            then Some (get h v (key_of_index i)) else None) <$> seq 0 len.

(** The index properties of a sequence with the given slots. *)
Definition indexed (ss : list (option value)) : list (string * value) :=
  omap (fun p : nat * option value => pair (key_of_index (fst p)) <$> snd p)
       (zip (seq 0 (length ss)) ss).

Fixpoint filterM {A : Type} (f : A → outcome bool) (l : list A) : outcome (list A) :=
  match l with
  | [] => Ok []
  | a :: l' => b ← f a; kept ← filterM f l'; Ok (if b : bool then a :: kept else kept)
  end.

(** [v.filter(callback)] for a callback that writes nothing: holes are not
    visited, the result is a new sequence.  Among the values of the
    universe only sequences have the method. *)
Definition Array_filter (h : heap) (v : value) (callback : value → outcome bool)
  : outcome (heap * value) :=
  match kind_of h v with
  | Some (KArray len) =>
      kept ← filterM callback (omap id (slots h v len));
      Ok (new_array h kept)
  | _ => Throw TypeError
  end.

(** [v.includes(x)]: on a sequence the elements are compared with
    SameValueZero, a hole reading as [undefined]; on a string [x] is turned
    into a string and searched for, a regular expression being refused. *)
Definition includes_method (fuel : nat) (h : heap) (v x : value) : outcome bool :=
  match v with
  | VStr s =>
      match kind_of h x with
      | Some (KRegExp _ _) => Throw TypeError
      | _ => text ← to_string fuel h x; Ok (includes s text)
      end
  | _ =>
      match kind_of h v with
      | Some (KArray len) => Ok (existsb (value_eqb x) (elements h v len))
      | _ => Throw TypeError
      end
  end.

(** [v.concat(w)] on a sequence [v]: a sequence [w] is spread, holes staying
    holes, and anything else is appended as one element.  (A string has a
    [concat] of its own, which no caller reaches.) *)
Definition Array_concat (h : heap) (v w : value) : outcome (heap * value) :=
  match v, kind_of h v with
  | _, Some (KArray n) =>
      let rest := match kind_of h w with
                  | Some (KArray m) => slots h w m
                  | _ => [Some w]
                  end in
      Ok (alloc h (mkObj (KArray (n + length rest)) (indexed (slots h v n ++ rest))))
  | VStr _, _ => Unmodelled
  | _, _ => Throw TypeError
  end.

Definition INTERSECTION (fuel : nat) (h : heap) (arr1 arr2 : value)
  : outcome (heap * value) :=
  Array_filter h arr1 (fun value => includes_method fuel h arr2 value).

Definition DIFFERENCE (fuel : nat) (h : heap) (arr1 arr2 : value)
  : outcome (heap * value) :=
  '(h, only1) ← Array_filter h arr1
                  (fun element => negb <$> includes_method fuel h arr2 element);
  '(h, only2) ← Array_filter h arr2
                  (fun element => negb <$> includes_method fuel h arr1 element);
  Array_concat h only1 only2.

(** The sequence [v] holds the items [xs], in this order and without a
    hole. *)
Definition holds (h : heap) (v : value) (xs : list value) : bool :=
  bool_decide (kind_of h v = Some (KArray (length xs))) &&
  bool_decide (slots h v (length xs) = Some <$> xs).

(** A value that can occur in a running program: a primitive, or a
    reference to an object of the store. *)
Definition allocated (h : heap) (v : value) : bool :=
  match v with
  | VRef l => (l <? length h)%nat
  | _ => true
  end.

(** A primitive whose string form is not blank: a number, a boolean, or a
    string with a character that is not white space. *)
Definition shown (v : value) : bool :=
  match v with
  | VNum _ | VBool _ => true
  | VStr s => negb (String.eqb (TRIM s) "")
  | _ => false
  end.

(** The keys [CLONE] visits in an object it copies property by property:
    the indices below the length of a sequence, the own keys of a mapping.
    Everything else is copied in one step or not at all. *)
Definition visited (h : heap) (v : value) : option (list string) :=
  match kind_of h v with
  | Some (KArray len) => Some (key_of_index <$> seq 0 len)
  | Some KPlain => Some (own_keys h v)
  | _ => None
  end.

(** [v] is a mapping or a sequence that holds mappings or sequences nested
    [n] levels deep, or deeper. *)
Fixpoint deeper (n : nat) (h : heap) (v : value) : bool :=
  match visited h v with
  | Some keys =>
      match n with
      | O => true
      | S n' => existsb (fun k => has_own h v k && deeper n' h (get h v k)) keys
      end
  | None => false
  end.

(** What a call of [CLONE] can do, whatever its input: stop for lack of
    depth, or return having written to new objects only. *)
Definition clone_shape (h : heap) (r : outcome (heap * value)) : Prop :=
  match r with
  | Ok (h', _) => (length h ≤ length h')%nat ∧
                  ∀ l : loc, (l < length h)%nat → h' !! l = h !! l
  | OutOfFuel => True
  | _ => False
  end.

(** The state of a loop of [CLONE], whatever the input: the objects that
    existed are intact and the copy is at the first new location, a
    sequence or not as [array] says. *)
Definition copy_started (h : heap) (array : bool) (hi : heap) : Prop :=
  (∀ l : loc, (l < length h)%nat → hi !! l = h !! l) ∧
  (length h < length hi)%nat ∧
  ∃ o, hi !! length h = Some o ∧ non_array (okind o) = negb array.

(** An outcome that is not an exception: a result, or recursion that did
    not finish within the given depth. *)
Definition returns_or_stops {A : Type} (r : outcome A) : Prop :=
  match r with
  | Ok _ | OutOfFuel => True
  | _ => False
  end.

(** Plain data nested at most [d] levels: primitives, dates, and objects or
    sequences all of whose properties hold plain data.  There is no cycle
    in it and no reference to a missing object. *)
Fixpoint data (d : nat) (h : heap) (v : value) : bool :=
  match v with
  | VRef l =>
      match h !! l with
      | Some o =>
          match okind o, d with
          | KDate _, _ => true
          | _, O => false
          | _, S d' => forallb (fun p => data d' h (snd p)) (props o)
          end
      | None => false
      end
  | _ => true
  end.

(** A value of the current query that [JSON.parse] rejects. *)
Definition malformed (v : value) : Prop :=
  ∃ text e, v = VStr text ∧ parse_json text = Throw e.

(** * Properties *)

(** ** Own properties: reading after writing *)

Lemma lookup_update_prop k v ps ps' :
  update_prop k v ps = Some ps' → lookup_prop k ps' = Some v.
Proof.
  revert ps'. induction ps as [|[k' v'] ps IH]; intros ps' H; simpl in H.
  - discriminate.
  - destruct (String.eqb k' k) eqn:E.
    + injection H as <-. unfold lookup_prop. simpl. by rewrite String.eqb_refl.
    + destruct (update_prop k v ps) as [qs|] eqn:U; [|discriminate].
      injection H as <-. unfold lookup_prop in *. simpl. rewrite E.
      by apply IH.
Qed.

Lemma update_prop_None k v ps :
  update_prop k v ps = None → lookup_prop k ps = None.
Proof.
  induction ps as [|[k' v'] ps IH]; intros H; simpl in H; [done|].
  destruct (String.eqb k' k) eqn:E; [discriminate|].
  destruct (update_prop k v ps); [discriminate|].
  unfold lookup_prop in *. simpl. rewrite E. by apply IH.
Qed.

Lemma lookup_update_prop_ne k k' v ps ps' :
  k ≠ k' → update_prop k v ps = Some ps' → lookup_prop k' ps' = lookup_prop k' ps.
Proof.
  intros Hne. revert ps'.
  induction ps as [|[k0 v0] ps IH]; intros ps' H; simpl in H; [discriminate|].
  destruct (String.eqb k0 k) eqn:E.
  - injection H as <-. apply String.eqb_eq in E as ->.
    unfold lookup_prop. simpl.
    destruct (String.eqb k k') eqn:E'; [by apply String.eqb_eq in E'|done].
  - destruct (update_prop k v ps) as [qs|] eqn:U; [|discriminate].
    injection H as <-. unfold lookup_prop in *. simpl.
    destruct (String.eqb k0 k'); [done|]. by apply IH.
Qed.

Lemma lookup_insert_index i k v ps :
  lookup_prop k ps = None → lookup_prop k (insert_index i k v ps) = Some v.
Proof.
  induction ps as [|[k' v'] ps IH]; intros H; simpl.
  - unfold lookup_prop. simpl. by rewrite String.eqb_refl.
  - unfold lookup_prop in H. simpl in H.
    destruct (String.eqb k' k) eqn:E; [discriminate|].
    destruct (index_of_key k') as [j|].
    + destruct (j <? i)%nat.
      * unfold lookup_prop in *. simpl. rewrite E. by apply IH.
      * unfold lookup_prop. simpl. by rewrite String.eqb_refl.
    + unfold lookup_prop. simpl. by rewrite String.eqb_refl.
Qed.

Lemma lookup_insert_index_ne i k k' v ps :
  k ≠ k' → lookup_prop k' (insert_index i k v ps) = lookup_prop k' ps.
Proof.
  intros Hne.
  assert (Hk : String.eqb k k' = false) by by apply String.eqb_neq.
  induction ps as [|[k0 v0] ps IH]; simpl.
  - unfold lookup_prop. simpl. by rewrite Hk.
  - destruct (index_of_key k0) as [j|].
    + destruct (j <? i)%nat.
      * unfold lookup_prop in *. simpl. destruct (String.eqb k0 k'); [done|apply IH].
      * unfold lookup_prop. simpl. by rewrite Hk.
    + unfold lookup_prop. simpl. by rewrite Hk.
Qed.

Lemma lookup_prop_app k ps qs :
  lookup_prop k (ps ++ qs) =
  match lookup_prop k ps with Some v => Some v | None => lookup_prop k qs end.
Proof.
  unfold lookup_prop. induction ps as [|[k0 v0] ps IH]; simpl; [done|].
  destruct (String.eqb k0 k); [done|apply IH].
Qed.

Lemma lookup_put_prop k v ps : lookup_prop k (put_prop k v ps) = Some v.
Proof.
  unfold put_prop. destruct (update_prop k v ps) as [ps'|] eqn:U.
  - by eapply lookup_update_prop.
  - apply update_prop_None in U. destruct (index_of_key k).
    + by apply lookup_insert_index.
    + rewrite lookup_prop_app, U. unfold lookup_prop. simpl.
      by rewrite String.eqb_refl.
Qed.

Lemma lookup_put_prop_ne k k' v ps :
  k ≠ k' → lookup_prop k' (put_prop k v ps) = lookup_prop k' ps.
Proof.
  intros Hne. unfold put_prop. destruct (update_prop k v ps) as [ps'|] eqn:U.
  - by eapply lookup_update_prop_ne.
  - destruct (index_of_key k).
    + by apply lookup_insert_index_ne.
    + rewrite lookup_prop_app. destruct (lookup_prop k' ps); [done|].
      unfold lookup_prop. simpl.
      by destruct (String.eqb k k') eqn:E; [apply String.eqb_eq in E|].
Qed.

(** ** GET_VALUE and GET_OBJECT_PARAM *)

Lemma walk_app h item pre rest :
  walk h item (pre ++ rest) = walk h (walk h item pre) rest.
Proof. unfold walk. by rewrite fold_left_app. Qed.

Lemma walk_falsy h v segments : truthy v = false → walk h v segments = v.
Proof.
  intros Hv. induction segments as [|seg segments IH]; [done|].
  unfold walk in *. simpl. by rewrite Hv.
Qed.

Lemma is_absent_falsy v : is_absent v = true → truthy v = false.
Proof.
  destruct v; simpl; try done. intros H. by rewrite H.
Qed.

Lemma GET_VALUE_of_absent fuel h v :
  is_absent v = true →
  (if IS_DEFINED v then
     s ← call_toString fuel h v;
     Ok (if (0 <? String.length (TRIM s))%nat then v else VUndef)
   else Ok VUndef) = Ok VUndef.
Proof.
  destruct v; simpl; try done. intros H. apply String.eqb_eq in H. subst.
  by destruct fuel.
Qed.




(** C10.  Called without a path, GET_OBJECT_PARAM returns [undefined] for
    every mapping and the input itself for everything else; with a path, a
    mapping yields the value the path resolves to (subject to the blank
    test of GET_VALUE), as in [GET_OBJECT_PARAM({a:{b:"x"}}, "a")], which is
    the inner object. *)
Theorem GET_OBJECT_PARAM_without_path :
  (∀ fuel (h : heap) item delimiter,
      GET_OBJECT_PARAM fuel h item None delimiter =
        Ok (if IS_OBJECT h item then VUndef else item)) ∧
  (∀ fuel (h : heap) item path delimiter,
      GET_OBJECT_PARAM fuel h item path delimiter =
        if IS_OBJECT h item then
          if given path then
            let value := walk h item (split (key path) delimiter) in
            if IS_DEFINED value then
              s ← call_toString fuel h value;
              Ok (if (0 <? String.length (TRIM s))%nat then value else VUndef)
            else Ok VUndef
          else Ok VUndef
        else Ok item) ∧
  GET_OBJECT_PARAM 1 (sample_nested [("b", VStr "x")]) (VRef 0) (Some "a") "."
    = Ok (VRef 1) ∧
  GET_OBJECT_PARAM 1 (sample_nested [("b", VStr "x")]) (VRef 0) None "."
    = Ok VUndef.
Proof.
  split; [|split; [|by vm_compute]].
  - intros fuel h item delimiter. unfold GET_OBJECT_PARAM.
    destruct (IS_OBJECT h item) eqn:Hobj; [|done].
    unfold GET_VALUE, resolved. cbn [given andb].
    by destruct (truthy item).
  - intros fuel h item path delimiter. unfold GET_OBJECT_PARAM.
    destruct (IS_OBJECT h item) eqn:Hobj; [|done].
    assert (Hitem : truthy item = true).
    { unfold IS_OBJECT, kind_of in Hobj. by destruct item. }
    unfold GET_VALUE, resolved. rewrite Hitem.
    destruct (given path); [|done].
    cbn [given]. by rewrite andb_false_r.
Qed.

(** ** The store: what a write leaves alone *)

Lemma define_prop_length (h : heap) l k v :
  length (define_prop h l k v) = length h.
Proof. unfold define_prop. destruct (h !! l); [apply length_insert|done]. Qed.

Lemma define_prop_lookup_ne (h : heap) l l' k v :
  l ≠ l' → define_prop h l k v !! l' = h !! l'.
Proof.
  intros Hne. unfold define_prop. destruct (h !! l); [|done].
  by apply list_lookup_insert_ne.
Qed.

Lemma define_prop_lookup (h : heap) l k v o :
  h !! l = Some o →
  define_prop h l k v !! l = Some (mkObj (grow (okind o) k) (put_prop k v (props o))).
Proof.
  intros Ho. unfold define_prop. rewrite Ho.
  apply list_lookup_insert_eq. by eapply lookup_lt_Some.
Qed.

Lemma set_prop_lookup_ne (h h' : heap) l l' k v :
  set_prop h (VRef l) k v = Ok h' → l ≠ l' → h' !! l' = h !! l'.
Proof.
  unfold set_prop. intros H Hne.
  destruct (h !! l) as [[[] ps]|] eqn:Ho;
    try (injection H as <-; by apply define_prop_lookup_ne).
  destruct (String.eqb k "length").
  - destruct (to_length v); try done. injection H as <-.
    by apply list_lookup_insert_ne.
  - injection H as <-; by apply define_prop_lookup_ne.
Qed.

(** Writing a key other than [length] defines it. *)
Lemma set_prop_define (h : heap) l k v :
  k ≠ "length" → set_prop h (VRef l) k v = Ok (define_prop h l k v).
Proof.
  intros Hk. unfold set_prop.
  destruct (h !! l) as [[[] ps]|]; try done.
  by destruct (String.eqb k "length") eqn:E; [apply String.eqb_eq in E|].
Qed.

Lemma get_define_prop (h : heap) l k v :
  is_Some (h !! l) → k ≠ "length" → get (define_prop h l k v) (VRef l) k = v.
Proof.
  intros [o Ho] Hk. unfold get. rewrite (define_prop_lookup _ _ _ _ _ Ho). simpl.
  destruct (String.eqb k "length") eqn:E; [by apply String.eqb_eq in E|].
  rewrite lookup_put_prop. by destruct (grow (okind o) k).
Qed.

Lemma get_define_prop_ne (h : heap) l k k' v :
  k ≠ k' → k' ≠ "length" →
  get (define_prop h l k v) (VRef l) k' = get h (VRef l) k'.
Proof.
  intros Hne Hk'. unfold get. destruct (h !! l) as [o|] eqn:Ho.
  - rewrite (define_prop_lookup _ _ _ _ _ Ho). simpl.
    destruct (String.eqb k' "length") eqn:E; [by apply String.eqb_eq in E|].
    rewrite lookup_put_prop_ne by done.
    by destruct (grow (okind o) k), (okind o).
  - unfold define_prop. by rewrite Ho, Ho.
Qed.

(** Reading only depends on the object read. *)
Lemma get_frame (h h' : heap) v k :
  (∀ l, v = VRef l → h' !! l = h !! l) → get h' v k = get h v k.
Proof.
  intros H. destruct v as [| | | | |l]; try done. unfold get. by rewrite (H l).
Qed.


(** ** The mutators of the composable *)

Lemma request_scroll_store w scrollTo : store (request_scroll w scrollTo) = store w.
Proof. unfold request_scroll. by destruct (truthy scrollTo). Qed.

Lemma request_scroll_queue w scrollTo : _queue (request_scroll w scrollTo) = _queue w.
Proof. unfold request_scroll. by destruct (truthy scrollTo). Qed.

(** C1, as the code has it.  For every config whose [syscode] is falsy
    ([undefined] included), [onPageChange], [onLimitChange] and [onSort]
    change nothing at all: the config keeps its pagination and its sort, no
    intent is queued, no navigation and no scrolling happens.  [navigate]
    only records the intent, and flushing that intent changes nothing and
    navigates nowhere. *)
Theorem no_syscode_no_effect :
  ∀ fuel (w : world) config,
    truthy (opt_chain (store w) config "syscode") = false →
    (∀ value scrollTo, onPageChange w config value scrollTo = Ok w) ∧
    (∀ value scrollTo, onLimitChange w config value scrollTo = Ok w) ∧
    (∀ value, onSort w config value = Ok w) ∧
    (∀ params,
        let w' := navigate w (config :: params) in
        store w' = store w ∧ route_query w' = route_query w ∧
        navigations w' = navigations w ∧ scrolls w' = scrolls w ∧
        flush fuel w' (config :: params) = Ok w').
Proof.
  intros fuel w config Hsys. repeat split.
  - intros. unfold onPageChange. by rewrite Hsys.
  - intros. unfold onLimitChange. by rewrite Hsys.
  - intros. unfold onSort. by rewrite Hsys.
  - unfold flush, _navigate. simpl. by rewrite Hsys.
Qed.

(** The theorem at the view [{pagination: {page: 1}}], which has no
    [syscode]. *)
Lemma no_syscode_no_effect_witness :
  onPageChange unbound_view (VRef 0) (VNum 5) VUndef = Ok unbound_view ∧
  onSort unbound_view (VRef 0) (VRef 2) = Ok unbound_view.
Proof.
  destruct (no_syscode_no_effect 1%nat unbound_view (VRef 0) eq_refl)
    as (Hpage & _ & Hsort & _).
  split; [apply Hpage | apply Hsort].
Defined.

(** C1 as stated fails: on [{pagination: {page: 1}}], which has no
    [syscode], [onPageChange(config, 5)] leaves the page at 1. *)
Lemma page_written_without_syscode_counterexample :
  ¬ page_written_without_syscode.
Proof.
  intros H.
  destruct (H unbound_view (VRef 0) (VNum 5) VUndef eq_refl) as (w' & Hrun & Hpage).
  vm_compute in Hrun. injection Hrun as <-. vm_compute in Hpage. discriminate.
Qed.

(** C5 on the code.  For a config with a truthy [syscode]:
    (1) when [config.pagination] is an object, [onPageChange(config, page)]
    sets its [page] and queues [navigate(config)];
    (2) when [config.pagination] is absent, the intent is queued but the
    page goes to a new object that is never stored in the config: every
    object that existed, the config included, is unchanged;
    (3) on [{syscode: "grid"}], [onPageChange(config, 2)] leaves
    [config.pagination] undefined. *)
Theorem onPageChange_pagination :
  (∀ (w : world) config page scrollTo lp,
      truthy (opt_chain (store w) config "syscode") = true →
      get (store w) config "pagination" = VRef lp →
      lp < length (store w) →
      ∃ w', onPageChange w config page scrollTo = Ok w' ∧
            get (store w') (VRef lp) "page" = page ∧
            get (store w') config "pagination" = VRef lp ∧
            _queue w' = Some [config]) ∧
  (∀ (w : world) config page scrollTo,
      truthy (opt_chain (store w) config "syscode") = true →
      truthy (get (store w) config "pagination") = false →
      ∃ w', onPageChange w config page scrollTo = Ok w' ∧
            _queue w' = Some [config] ∧
            (∀ l, l < length (store w) → store w' !! l = store w !! l) ∧
            get (store w') config "pagination" = get (store w) config "pagination") ∧
  (∃ w', onPageChange bare_view (VRef 0) (VNum 2) VUndef = Ok w' ∧
         _queue w' = Some [VRef 0] ∧
         get (store w') (VRef 0) "pagination" = VUndef).
Proof.
  split; [|split].
  - intros w config page scrollTo lp Hsys Hpag Hlp.
    unfold onPageChange. rewrite Hsys, Hpag. cbn [truthy].
    rewrite set_prop_define by done. cbn.
    eexists. split; [done|].
    rewrite request_scroll_queue, request_scroll_store. cbn.
    split; [|split; [|done]].
    + apply get_define_prop; [|done]. by apply lookup_lt_is_Some.
    + destruct (decide (config = VRef lp)) as [->|Hne].
      * rewrite get_define_prop_ne; done.
      * rewrite <- Hpag. apply get_frame. intros l ->.
        apply define_prop_lookup_ne. congruence.
  - intros w config page scrollTo Hsys Hpag.
    unfold onPageChange. rewrite Hsys, Hpag. cbn [new_object alloc].
    rewrite set_prop_define by done. cbn.
    eexists. split; [done|].
    assert (Hold : ∀ l, l < length (store w) →
              define_prop (store w ++ [mkObj KPlain []]) (length (store w)) "page" page !! l
              = store w !! l).
    { intros l Hl. rewrite define_prop_lookup_ne by lia. by apply lookup_app_l. }
    rewrite request_scroll_queue, request_scroll_store. cbn.
    split; [done|]. split; [done|].
    apply get_frame. intros l ->. apply Hold.
    unfold opt_chain, get in Hsys.
    destruct (store w !! l) eqn:Ho; [by eapply lookup_lt_Some|done].
  - by vm_compute; eexists.
Qed.

(** The theorem at [{syscode: "grid", pagination: {page: 1}}]. *)
Lemma onPageChange_pagination_witness :
  ∃ w', onPageChange
          (mkWorld [mkObj KPlain [("syscode", VStr "grid"); ("pagination", VRef 1)];
                    mkObj KPlain [("page", VNum 1)]] None VNull "/list" [] [])
          (VRef 0) (VNum 3) VUndef = Ok w' ∧
        get (store w') (VRef 1) "page" = VNum 3 ∧
        get (store w') (VRef 0) "pagination" = VRef 1 ∧
        _queue w' = Some [VRef 0].
Proof.
  apply (proj1 onPageChange_pagination); [reflexivity|reflexivity|simpl; lia].
Defined.

(** ** The debounced watcher *)

Lemma run_app fuel s e1 e2 : run fuel s (e1 ++ e2) = run fuel (run fuel s e1) e2.
Proof. unfold run. apply fold_left_app. Qed.

Lemma last_cons {A} (l : list A) x d : List.last (x :: l) d = List.last l x.
Proof.
  revert x d. induction l as [|y l IH]; intros x d; [done|].
  change (List.last (x :: y :: l) d) with (List.last (y :: l) d).
  by rewrite !IH.
Qed.

Lemma expire_pending fuel s deadline p :
  timer s = Some (deadline, p) → (now s < deadline)%Z → expire fuel s = s.
Proof.
  intros Ht Hlt. unfold expire. rewrite Ht.
  by destruct (Z.leb_spec deadline (now s)); [lia|].
Qed.

Lemma expire_due fuel s deadline p :
  timer s = Some (deadline, p) → (deadline ≤ now s)%Z →
  expire fuel s = mkSession (now s) None (flushed s ++ [p])
                            (w ← state s; flush fuel w p).
Proof.
  intros Ht Hle. unfold expire. rewrite Ht.
  by destruct (Z.leb_spec deadline (now s)); [|lia].
Qed.

(** Calls that follow each other within the window keep one timer pending,
    restarted by the last of them, and flush nothing. *)
Lemma run_calls_pending fuel w more : ∀ s p,
  timer s = Some ((now s + debounce_window)%Z, p) →
  state s = Ok (navigate w p) →
  Forall within_window more →
  let s' := run fuel s (calls_trace more) in
  timer s' = Some ((now s' + debounce_window)%Z, List.last (more.*2) p) ∧
  flushed s' = flushed s ∧
  state s' = Ok (navigate w (List.last (more.*2) p)).
Proof.
  induction more as [|[gap q] more IH]; intros s p Ht Hs Hall; [done|].
  apply Forall_cons in Hall as [[Hlo Hhi] Hall]. simpl in Hlo, Hhi.
  change (calls_trace ((gap, q) :: more))
    with ([Elapse gap; Navigate q] ++ calls_trace more).
  rewrite run_app.
  change (run fuel s [Elapse gap; Navigate q])
    with (step fuel (step fuel s (Elapse gap)) (Navigate q)).
  set (s1 := step fuel (step fuel s (Elapse gap)) (Navigate q)).
  assert (H1 : timer s1 = Some ((now s1 + debounce_window)%Z, q) ∧
               flushed s1 = flushed s ∧ state s1 = Ok (navigate w q)).
  { subst s1. cbn [step].
    rewrite (expire_pending fuel _ (now s + debounce_window) p)
      by (cbn [timer now]; first [done|lia]).
    cbn. by rewrite Hs. }
  destruct H1 as (Ht1 & Hf1 & Hs1).
  destruct (IH s1 q Ht1 Hs1 Hall) as (Ht' & Hf' & Hs').
  assert (Hlast : List.last (((gap, q) :: more).*2) p = List.last (more.*2) q).
  { cbn [fmap list_fmap snd]. apply last_cons. }
  rewrite Hlast. cbv zeta in Ht', Hf', Hs'. cbv zeta.
  split; [done|]. split; [by rewrite Hf'|done].
Qed.



(** ** CONVERT_DOT_TO_OBJECT *)

Lemma foldM_app {A S} (f : S → A → outcome S) l1 l2 s :
  foldM f (l1 ++ l2) s = (s' ← foldM f l1 s; foldM f l2 s').
Proof.
  revert s. induction l1 as [|a l1 IH]; intros s; [done|].
  simpl. destruct (f s a); [apply IH|done..].
Qed.

Lemma foldM_cons {A S} (f : S → A → outcome S) a l s :
  foldM f (a :: l) s = (s' ← f s a; foldM f l s').
Proof. done. Qed.

Lemma expand_step_defined value last (h : heap) accum i curr :
  truthy accum = true → IS_DEFINED (get h accum curr) = true →
  expand_step value last (h, accum) (i, curr) = Ok (h, get h accum curr).
Proof. intros Ht Hd. unfold expand_step. by rewrite Ht, Hd. Qed.

Lemma expand_step_primitive value last (h : heap) accum i curr :
  truthy accum = true → is_primitive accum = true →
  IS_DEFINED (get h accum curr) = false →
  expand_step value last (h, accum) (i, curr) = Throw TypeError.
Proof.
  intros Ht Hp Hd. unfold expand_step. rewrite Ht, Hd.
  destruct accum; try done; by destruct (i <? last)%nat.
Qed.

(** Once the reducer has reached a falsy value it only passes [undefined]
    on, and writes nothing. *)
Lemma expand_falsy value last segments : ∀ h accum,
  truthy accum = false →
  ∃ accum', foldM (expand_step value last) segments (h, accum) = Ok (h, accum').
Proof.
  induction segments as [|[i seg] segments IH]; intros h accum Hf.
  - by eexists.
  - simpl. rewrite Hf. simpl. by apply IH.
Qed.

(** Properties without a dot are skipped. *)
Lemma iterate_undotted (params : value) keys : ∀ (h : heap) i,
  Forall (fun k => includes k "." = false) keys →
  ∃ i', foldM (fun '(index, h') k =>
                 if has_own h' params k
                 then h'' ← expand_key h' params (get h' params k) k;
                      Ok (S index, h'')
                 else Ok (index, h'))
              keys (i, h) = Ok (i', h).
Proof.
  induction keys as [|k keys IH]; intros h i Hall; [by eexists|].
  apply Forall_cons in Hall as [Hk Hall]. simpl.
  destruct (has_own h params k).
  - unfold expand_key. rewrite Hk. simpl. by apply IH.
  - simpl. by apply IH.
Qed.

Lemma undotted_keys ps :
  Forall (fun p => undotted p = true) ps →
  Forall (fun k => includes k "." = false) ps.*1.
Proof.
  intros H. apply Forall_fmap. eapply Forall_impl; [exact H|].
  intros [k v]. unfold undotted. simpl. by destruct (includes k ".").
Qed.

Lemma lookup_prop_Some_has k ps v :
  lookup_prop k ps = Some v → bool_decide (is_Some (lookup_prop k ps)) = true.
Proof. intros ->. by apply bool_decide_eq_true. Qed.

Lemma lookup_prop_middle k v pre post :
  Forall (fun p => undotted p = true) pre → includes k "." = true →
  lookup_prop k (pre ++ (k, v) :: post) = Some v.
Proof.
  intros Hpre Hk. rewrite lookup_prop_app.
  assert (Hnone : lookup_prop k pre = None).
  { induction pre as [|[k0 v0] pre IH]; [done|].
    apply Forall_cons in Hpre as [H0 Hpre]. unfold lookup_prop in *. simpl.
    destruct (String.eqb k0 k) eqn:E; [|by apply IH].
    apply String.eqb_eq in E as ->. unfold undotted in H0. simpl in H0.
    by rewrite Hk in H0. }
  rewrite Hnone. unfold lookup_prop. simpl. by rewrite String.eqb_refl.
Qed.

Lemma remove_prop_middle k v pre post :
  Forall (fun p => undotted p = true) (pre ++ post) → includes k "." = true →
  remove_prop k (pre ++ (k, v) :: post) = pre ++ post.
Proof.
  intros Hall Hk.
  assert (Hkeep : ∀ ps, Forall (fun p => undotted p = true) ps → remove_prop k ps = ps).
  { induction ps as [|[k0 v0] ps IH]; intros Hps; [done|].
    apply Forall_cons in Hps as [H0 Hps]. unfold remove_prop in *. simpl.
    destruct (String.eqb k0 k) eqn:E.
    - apply String.eqb_eq in E as ->. unfold undotted in H0. simpl in H0.
      by rewrite Hk in H0.
    - simpl. by rewrite IH. }
  apply Forall_app in Hall as [Hpre Hpost].
  unfold remove_prop in *. rewrite List.filter_app. simpl.
  rewrite String.eqb_refl. simpl. by rewrite (Hkeep pre), (Hkeep post).
Qed.




(** ** Object.assign onto an object that is not a sequence *)

Lemma set_prop_non_array (h : heap) l o k v :
  h !! l = Some o → non_array (okind o) = true →
  set_prop h (VRef l) k v = Ok (<[l := mkObj (okind o) (put_prop k v (props o))]> h).
Proof.
  intros Ho Hk. unfold set_prop, define_prop. rewrite Ho.
  destruct o as [[] ps]; try done.
Qed.

Lemma get_non_array (h : heap) l o k :
  h !! l = Some o → non_array (okind o) = true →
  get h (VRef l) k = default VUndef (lookup_prop k (props o)).
Proof.
  intros Ho Hk. unfold get. rewrite Ho. destruct (okind o); try done.
Qed.

Lemma has_own_non_array (h : heap) l o k :
  h !! l = Some o → non_array (okind o) = true →
  has_own h (VRef l) k = bool_decide (is_Some (lookup_prop k (props o))).
Proof.
  intros Ho Hk. unfold has_own. rewrite Ho. destruct (okind o); try done.
Qed.

Lemma elem_of_keys_lookup k (ps : list (string * value)) :
  k ∈ ps.*1 ↔ is_Some (lookup_prop k ps).
Proof.
  unfold lookup_prop. induction ps as [|[k0 v0] ps IH]; simpl.
  - split; [by intros ?%elem_of_nil|by intros [? ?]].
  - rewrite elem_of_cons, IH. destruct (String.eqb k0 k) eqn:E.
    + apply String.eqb_eq in E as ->. simpl. split; [by eexists|by left].
    + apply String.eqb_neq in E. split; [intros [->|]; done|by right].
Qed.

(** The effect of the loop of [Object.assign] on a target that is not a
    sequence and is not the source: the keys visited take the values of the
    source, the others stay. *)
Lemma assign_fold source ks : ∀ (h : heap) lt o,
  h !! lt = Some o → non_array (okind o) = true → source ≠ VRef lt →
  ∃ o', foldM (fun h' k => set_prop h' (VRef lt) k (get h' source k)) ks h
          = Ok (<[lt := o']> h) ∧
        okind o' = okind o ∧
        ∀ j, lookup_prop j (props o') =
             if decide (j ∈ ks) then Some (get h source j)
             else lookup_prop j (props o).
Proof.
  induction ks as [|k ks IH]; intros h lt o Ho Hkind Hsrc.
  - exists o. split; [|split; [done|]].
    + simpl. by rewrite list_insert_id.
    + intros j. destruct (decide (j ∈ [])) as [Hin|]; [by apply elem_of_nil in Hin|done].
  - rewrite foldM_cons, (set_prop_non_array _ _ _ _ _ Ho Hkind).
    cbn [mbind outcome_bind].
    set (o1 := mkObj (okind o) (put_prop k (get h source k) (props o))).
    assert (Ho1 : <[lt := o1]> h !! lt = Some o1).
    { apply list_lookup_insert_eq. by eapply lookup_lt_Some. }
    destruct (IH _ lt o1 Ho1 Hkind Hsrc) as (o' & Hfold & Hkind' & Hlook).
    exists o'. rewrite Hfold, list_insert_insert_eq. split; [done|]. split; [done|].
    intros j. rewrite Hlook.
    assert (Hframe : get (<[lt := o1]> h) source j = get h source j).
    { apply get_frame. intros l ->. apply list_lookup_insert_ne. congruence. }
    destruct (decide (j ∈ ks)) as [Hin|Hnin].
    + rewrite Hframe. by rewrite decide_True by (by apply list_elem_of_further).
    + destruct (decide (j = k)) as [->|Hne].
      * rewrite decide_True by apply list_elem_of_here.
        subst o1. cbn [props]. apply lookup_put_prop.
      * rewrite decide_False by (intros [->|]%elem_of_cons; done).
        subst o1. cbn [props]. by apply lookup_put_prop_ne.
Qed.

Lemma Object_assign_plain (h : heap) lt o source :
  h !! lt = Some o → non_array (okind o) = true → source ≠ VRef lt →
  ∃ o', Object_assign h (VRef lt) source = Ok (<[lt := o']> h) ∧
        okind o' = okind o ∧
        ∀ j, lookup_prop j (props o') =
             if decide (j ∈ own_keys h source) then Some (get h source j)
             else lookup_prop j (props o).
Proof. intros. unfold Object_assign. by apply assign_fold. Qed.

(** ** MERGE *)

Lemma MERGE_unfold fuel (h : heap) target source :
  MERGE (S fuel) h target source =
  (keys ← Object_keys h source;
   h1 ← foldM (merge_property (MERGE fuel) target source) keys h;
   h2 ← (if truthy target then Object_assign h1 target source
          else let '(h', acceptor) := new_object h1 in
               Object_assign h' acceptor source);
   Ok (h2, target)).
Proof. done. Qed.

(** The loop does nothing on keys whose value is a primitive, and nothing at
    all for a falsy target. *)
Lemma merge_loop_skip merge target source ks (h : heap) :
  (∀ k, k ∈ ks → truthy target && instanceof_Object (get h source k) = false) →
  foldM (merge_property merge target source) ks h = Ok h.
Proof.
  induction ks as [|k ks IH]; intros H; [done|].
  rewrite foldM_cons. unfold merge_property at 2.
  rewrite (H k) by apply list_elem_of_here. cbn [mbind outcome_bind].
  apply IH. intros k' Hk'. apply H. by apply list_elem_of_further.
Qed.

Lemma primitive_not_object v : is_primitive v = true → instanceof_Object v = false.
Proof. by destruct v. Qed.

Lemma lookup_flat k ps v :
  flat ps → lookup_prop k ps = Some v → is_primitive v = true.
Proof.
  unfold lookup_prop. induction ps as [|[k0 v0] ps IH]; intros Hflat H; [done|].
  apply Forall_cons in Hflat as [H0 Hflat]. simpl in H.
  destruct (String.eqb k0 k); [by injection H as <-|by apply IH].
Qed.

Lemma get_flat (h : heap) l o k :
  h !! l = Some o → non_array (okind o) = true → flat (props o) →
  is_primitive (get h (VRef l) k) = true.
Proof.
  intros Ho Hkind Hflat. rewrite (get_non_array _ _ _ _ Ho Hkind).
  destruct (lookup_prop k (props o)) eqn:E; [|done]. by eapply lookup_flat.
Qed.

(** MERGE of a source without nested objects into an object that is not a
    sequence: the keys of the source take the values of the source, the
    other properties of the target stay, no other object changes. *)
Lemma MERGE_flat fuel (h : heap) lt o source :
  h !! lt = Some o → non_array (okind o) = true →
  source ≠ VRef lt → IS_DEFINED source = true →
  (∀ k, k ∈ own_keys h source → is_primitive (get h source k) = true) →
  ∃ o', MERGE (S fuel) h (VRef lt) source = Ok (<[lt := o']> h, VRef lt) ∧
        okind o' = okind o ∧
        ∀ j, lookup_prop j (props o') =
             if decide (j ∈ own_keys h source) then Some (get h source j)
             else lookup_prop j (props o).
Proof.
  intros Ho Hkind Hne Hdef Hflat.
  destruct (Object_assign_plain h lt o source Ho Hkind Hne) as (o' & Hassign & Hk & Hl).
  exists o'. split; [|done].
  rewrite MERGE_unfold.
  assert (Hkeys : Object_keys h source = Ok (own_keys h source)) by by destruct source.
  rewrite Hkeys. cbn [mbind outcome_bind].
  rewrite merge_loop_skip.
  - cbn [mbind outcome_bind truthy]. by rewrite Hassign.
  - intros k Hin. cbn [truthy andb]. apply primitive_not_object. by apply Hflat.
Qed.

(** MERGE into an absent target: no object of the store changes, the keys
    of the source go to a new object, and the call returns the target it
    was given. *)
Lemma MERGE_absent fuel (h : heap) target source :
  truthy target = false → IS_DEFINED source = true →
  ∃ h', MERGE (S fuel) h target source = Ok (h', target) ∧
        (∀ l, l < length h → h' !! l = h !! l) ∧
        (∀ k, k ∈ own_keys h source →
              get h' (VRef (length h)) k = get h source k).
Proof.
  intros Ht Hdef. rewrite MERGE_unfold.
  assert (Hkeys : Object_keys h source = Ok (own_keys h source)) by by destruct source.
  rewrite Hkeys. cbn [mbind outcome_bind].
  rewrite merge_loop_skip by (intros; by rewrite Ht).
  cbn [mbind outcome_bind]. rewrite Ht. cbn [new_object alloc].
  set (h1 := h ++ [mkObj KPlain []]).
  assert (Hacc : h1 !! length h = Some (mkObj KPlain [])).
  { subst h1. rewrite lookup_app_r by lia. by rewrite Nat.sub_diag. }
  destruct (decide (source = VRef (length h))) as [->|Hne].
  - exists h1. unfold Object_assign, own_keys. rewrite Hacc.
    rewrite (lookup_ge_None_2 h (length h)) by lia. cbn.
    split; [done|]. split; [|by intros k ?%elem_of_nil].
    intros l Hl. by apply lookup_app_l.
  - destruct (Object_assign_plain h1 (length h) _ source Hacc eq_refl Hne)
      as (o' & Hassign & Hk & Hl).
    exists (<[length h := o']> h1). rewrite Hassign. split; [done|].
    assert (Hsrc : ∀ l, source = VRef l → h1 !! l = h !! l).
    { intros l ->. subst h1. destruct (decide (l < length h)) as [|Hge].
      - by apply lookup_app_l.
      - assert (l ≠ length h) by congruence.
        rewrite !lookup_ge_None_2; [done|lia|rewrite length_app; simpl; lia]. }
    split.
    + intros l Hlt. rewrite list_lookup_insert_ne by lia. by apply lookup_app_l.
    + intros k Hin.
      assert (Hown : own_keys h1 source = own_keys h source).
      { destruct source as [| | | | |l]; try done. unfold own_keys.
        by rewrite (Hsrc l). }
      assert (Hget : get h1 source k = get h source k) by by apply get_frame.
      unfold get at 1.
      rewrite list_lookup_insert_eq by (subst h1; rewrite length_app; simpl; lia).
      rewrite Hl, Hown, decide_True by done. rewrite Hget.
      by destruct (okind o').
Qed.

Lemma own_keys_ref (h : heap) l o : h !! l = Some o → own_keys h (VRef l) = (props o).*1.
Proof. intros Ho. unfold own_keys. by rewrite Ho. Qed.

(** What [Object_assign_plain] says of a property, when the source is an
    object that is not a sequence: the source wins where it has the key. *)
Lemma assigned_lookup (h : heap) l o j (x : option value) :
  h !! l = Some o → non_array (okind o) = true →
  (if decide (j ∈ own_keys h (VRef l)) then Some (get h (VRef l) j) else x)
  = match lookup_prop j (props o) with Some v => Some v | None => x end.
Proof.
  intros Ho Hkind. rewrite (own_keys_ref _ _ _ Ho), (get_non_array _ _ _ _ Ho Hkind).
  destruct (decide (j ∈ (props o).*1)) as [Hin|Hnin].
  - apply elem_of_keys_lookup in Hin as [v ->]. done.
  - destruct (lookup_prop j (props o)) eqn:E; [|done].
    destruct Hnin. apply elem_of_keys_lookup. by rewrite E.
Qed.

Lemma only_nested_keys k ps key :
  only_nested_at k ps → key ∈ ps.*1 → key ≠ k.
Proof.
  intros Hall Hin. apply list_elem_of_fmap in Hin as ([k0 v0] & -> & Hin).
  unfold only_nested_at in Hall. rewrite Forall_forall in Hall.
  by destruct (Hall _ Hin).
Qed.

Lemma only_nested_lookup k ps key v :
  only_nested_at k ps → lookup_prop key ps = Some v → is_primitive v = true.
Proof.
  unfold lookup_prop. induction ps as [|[k0 v0] ps IH]; intros Hall H; [done|].
  apply Forall_cons in Hall as [[H0 _] Hall]. simpl in H.
  destruct (String.eqb k0 key); [by injection H as <-|by apply IH].
Qed.

Lemma lookup_prop_skip k key v pre post :
  key ≠ k →
  lookup_prop key (pre ++ (k, v) :: post) = lookup_prop key (pre ++ post).
Proof.
  intros Hne. rewrite !lookup_prop_app. destruct (lookup_prop key pre); [done|].
  unfold lookup_prop. simpl.
  by destruct (String.eqb k key) eqn:E; [apply String.eqb_eq in E|].
Qed.

Lemma lookup_prop_found k v pre post :
  only_nested_at k pre → lookup_prop k (pre ++ (k, v) :: post) = Some v.
Proof.
  intros Hpre. rewrite lookup_prop_app.
  assert (Hnone : lookup_prop k pre = None).
  { destruct (lookup_prop k pre) eqn:E; [|done].
    assert (Hin : k ∈ pre.*1) by (apply elem_of_keys_lookup; by rewrite E).
    by destruct (only_nested_keys _ _ _ Hpre Hin). }
  rewrite Hnone. unfold lookup_prop. simpl. by rewrite String.eqb_refl.
Qed.

(** MERGE where target and source each hold an object under one key [k],
    the four objects being distinct, none a sequence, and nothing nested
    any deeper in the source.  The nested object of the target takes the
    values of the source's ([otk']); the nested object of the SOURCE is
    written too, and ends with the same properties ([osk']); the target
    takes the properties of the source, its [k] now being the source's
    nested object ([ot']). *)
Lemma MERGE_one_level fuel (h : heap) lt ls ltk lsk ot otk osk kd pre k post :
  h !! lt = Some ot → non_array (okind ot) = true →
  h !! ls = Some (mkObj kd (pre ++ (k, VRef lsk) :: post)) → non_array kd = true →
  only_nested_at k (pre ++ post) →
  lookup_prop k (props ot) = Some (VRef ltk) →
  h !! ltk = Some otk → non_array (okind otk) = true →
  h !! lsk = Some osk → non_array (okind osk) = true → flat (props osk) →
  lt ≠ ls → lt ≠ ltk → lt ≠ lsk → ls ≠ ltk → ls ≠ lsk → ltk ≠ lsk →
  ∃ ot' otk' osk',
    MERGE (S (S fuel)) h (VRef lt) (VRef ls)
    = Ok (<[lt := ot']> (<[lsk := osk']> (<[ltk := otk']> h)), VRef lt) ∧
    (okind ot' = okind ot ∧ okind otk' = okind otk ∧ okind osk' = okind osk) ∧
    (∀ j, lookup_prop j (props otk') =
          match lookup_prop j (props osk) with
          | Some v => Some v
          | None => lookup_prop j (props otk)
          end) ∧
    (∀ j, lookup_prop j (props osk') =
          match lookup_prop j (props osk) with
          | Some v => Some v
          | None => lookup_prop j (props otk)
          end) ∧
    (∀ j, lookup_prop j (props ot') =
          match lookup_prop j (pre ++ (k, VRef lsk) :: post) with
          | Some v => Some v
          | None => lookup_prop j (props ot)
          end).
Proof.
  intros Hlt Kt Hls Ks Hnest Hk Hltk Ktk Hlsk Ksk Hflat N1 N2 N3 N4 N5 N6.
  set (ps := pre ++ (k, VRef lsk) :: post) in *.
  pose proof Hnest as Hnest'. apply Forall_app in Hnest' as [Hpre Hpost].
  assert (Hgs : ∀ h' : heap, h' !! ls = h !! ls →
            ∀ key, get h' (VRef ls) key = default VUndef (lookup_prop key ps)).
  { intros h' Heq key. by apply (get_non_array h' ls (mkObj kd ps)); [rewrite Heq|]. }
  assert (Hprim : ∀ h' : heap, h' !! ls = h !! ls → ∀ key, key ≠ k →
            truthy (VRef lt) && instanceof_Object (get h' (VRef ls) key) = false).
  { intros h' Heq key Hne. rewrite (Hgs h' Heq). cbn [truthy andb].
    apply primitive_not_object. subst ps. rewrite lookup_prop_skip by done.
    destruct (lookup_prop key (pre ++ post)) eqn:E; [|done].
    simpl. exact (only_nested_lookup k _ key _ Hnest E). }
  (* the merge of the nested objects *)
  destruct (MERGE_flat fuel h ltk otk (VRef lsk) Hltk Ktk) as (otk' & Hinner & Ktk' & Ltk');
    [congruence|done|by intros; eapply get_flat|].
  set (h1 := <[ltk := otk']> h) in *.
  assert (Hltk1 : h1 !! ltk = Some otk').
  { apply list_lookup_insert_eq. by eapply lookup_lt_Some. }
  assert (Hlsk1 : h1 !! lsk = Some osk).
  { subst h1. by rewrite list_lookup_insert_ne. }
  (* the nested object of the source receives the merged properties *)
  destruct (Object_assign_plain h1 lsk osk (VRef ltk) Hlsk1 Ksk)
    as (osk' & Hback & Ksk' & Lsk'); [congruence|].
  set (h2 := <[lsk := osk']> h1) in *.
  assert (Hls2 : h2 !! ls = h !! ls).
  { subst h2 h1. by rewrite !list_lookup_insert_ne. }
  assert (Hlt2 : h2 !! lt = Some ot).
  { subst h2 h1. by rewrite !list_lookup_insert_ne. }
  (* the final assignment to the target *)
  destruct (Object_assign_plain h2 lt ot (VRef ls) Hlt2 Kt)
    as (ot' & Hfinal & Kt' & Lt'); [congruence|].
  exists ot', otk', osk'. split; [|split; [done|split; [|split]]].
  - rewrite MERGE_unfold. cbn [Object_keys].
    rewrite (own_keys_ref _ _ _ Hls). cbn [props mbind outcome_bind].
    subst ps. rewrite fmap_app, fmap_cons. cbn [fst].
    rewrite foldM_app, merge_loop_skip.
    2: { intros key Hin. apply Hprim; [done|].
         exact (only_nested_keys k pre key Hpre Hin). }
    cbn [mbind outcome_bind]. rewrite foldM_cons.
    unfold merge_property at 2.
    rewrite (Hgs h eq_refl), lookup_prop_found by done.
    cbn [default from_option id truthy instanceof_Object andb].
    rewrite (get_non_array _ _ _ _ Hlt Kt), Hk.
    cbn [default from_option id]. rewrite Hinner. cbn [mbind outcome_bind].
    fold h1. rewrite Hback. cbn [mbind outcome_bind]. fold h2.
    rewrite merge_loop_skip.
    2: { intros key Hin. apply Hprim; [done|].
         exact (only_nested_keys k post key Hpost Hin). }
    cbn [mbind outcome_bind truthy]. by rewrite Hfinal.
  - intros j. rewrite Ltk'. by apply assigned_lookup.
  - intros j. rewrite Lsk'.
    rewrite (assigned_lookup h1 ltk otk') by (done || by rewrite Ktk').
    rewrite Ltk', (assigned_lookup h lsk osk) by done.
    by destruct (lookup_prop j (props osk)), (lookup_prop j (props otk)).
  - intros j. rewrite Lt'.
    by rewrite (assigned_lookup h2 ls (mkObj kd (pre ++ (k, VRef lsk) :: post)))
      by (done || by rewrite Hls2).
Qed.




(** One turn of the loop of MERGE, in any store, for a key under which the
    source holds an object without nested objects and the target holds
    another object: the turn writes both nested objects, and the one of
    the SOURCE ends with its own values plus every other property of the
    target's. *)
Lemma merge_property_nested fuel (h : heap) target source key lsk ltk osk otk :
  truthy target = true →
  get h source key = VRef lsk → get h target key = VRef ltk →
  h !! lsk = Some osk → non_array (okind osk) = true → flat (props osk) →
  h !! ltk = Some otk → non_array (okind otk) = true →
  lsk ≠ ltk →
  ∃ osk' otk',
    merge_property (MERGE (S fuel)) target source h key
    = Ok (<[lsk := osk']> (<[ltk := otk']> h)) ∧
    okind osk' = okind osk ∧
    ∀ j, lookup_prop j (props osk') =
         match lookup_prop j (props osk) with
         | Some v => Some v
         | None => lookup_prop j (props otk)
         end.
Proof.
  intros Ht Hs Htk Hlsk Ksk Hflat Hltk Ktk Hne.
  destruct (MERGE_flat fuel h ltk otk (VRef lsk) Hltk Ktk) as (otk' & Hinner & Ktk' & Ltk');
    [congruence|done|by intros; eapply get_flat|].
  assert (Hltk1 : <[ltk := otk']> h !! ltk = Some otk').
  { apply list_lookup_insert_eq. by eapply lookup_lt_Some. }
  assert (Hlsk1 : <[ltk := otk']> h !! lsk = Some osk).
  { by rewrite list_lookup_insert_ne. }
  destruct (Object_assign_plain _ lsk osk (VRef ltk) Hlsk1 Ksk)
    as (osk' & Hback & Ksk' & Lsk'); [congruence|].
  exists osk', otk'. split; [|split; [done|]].
  - unfold merge_property. rewrite Ht, Hs, Htk. cbn [instanceof_Object andb].
    rewrite Hinner. cbn [mbind outcome_bind]. exact Hback.
  - intros j. rewrite Lsk'.
    rewrite (assigned_lookup _ ltk otk') by (done || by rewrite Ktk').
    rewrite Ltk', (assigned_lookup h lsk osk) by done.
    by destruct (lookup_prop j (props osk)), (lookup_prop j (props otk)).
Qed.



(** ** The query builder *)

(** A loop of [ITERATE] keeps whatever every call of its callback keeps. *)
Lemma ITERATE_invariant (P : heap → Prop) (h : heap) item callback :
  P h →
  (∀ h' v k i, P h' → ∃ h'', callback h' v k i = Ok h'' ∧ P h'') →
  ∃ h'', ITERATE h item callback = Ok h'' ∧ P h''.
Proof.
  intros HP Hcb. unfold ITERATE.
  destruct (truthy item && _); [|by exists h].
  assert (Hloop : ∀ ks i h0, P h0 →
            ∃ i' h'', foldM (fun '(index, h') k =>
                               if has_own h' item k
                               then h'' ← callback h' (get h' item k) k index;
                                    Ok (S index, h'')
                               else Ok (index, h'))
                            ks (i, h0) = Ok (i', h'') ∧ P h'').
  { induction ks as [|k ks IH]; intros i h0 HP0; [by exists i, h0|].
    rewrite foldM_cons. destruct (has_own h0 item k).
    - destruct (Hcb h0 (get h0 item k) k i HP0) as (h1 & -> & HP1).
      cbn [mbind outcome_bind]. by apply IH.
    - cbn [mbind outcome_bind]. by apply IH. }
  destruct (Hloop (own_keys h item) 0 h HP) as (i' & h'' & -> & HP'').
  by exists h''.
Qed.

Lemma put_prop_nil k v : put_prop k v [] = [(k, v)].
Proof. unfold put_prop. simpl. by destruct (index_of_key k). Qed.

Lemma lookup_prop_singleton k v : lookup_prop k [(k, v)] = Some v.
Proof. unfold lookup_prop. simpl. by rewrite String.eqb_refl. Qed.

(** With no parameter in the current query, the first part of the builder
    always succeeds: it returns a new mapping whose [syscode] entry is a new
    object, and the [pagination] of that entry is a new object made of the
    [page] and the [limit] of the pagination argument, whatever the config
    holds. *)
Lemma query_entries_pagination (h : heap) lq kq syscode pagination config :
  h !! lq = Some (mkObj kq []) →
  (∀ l, pagination = VRef l → l < length h) →
  ∃ h' le lp,
    query_entries h (VRef lq) syscode pagination config = Ok (h', VRef (length h)) ∧
    get h' (VRef (length h)) syscode = VRef le ∧
    get h' (VRef le) "pagination" = VRef lp ∧
    h' !! lp = Some (mkObj KPlain [("page", opt_chain h pagination "page");
                                    ("limit", opt_chain h pagination "limit")]).
Proof.
  intros Hq Hpag. unfold query_entries. cbn [new_object alloc].
  set (n := length h).
  set (h0 := h ++ [mkObj KPlain []]).
  assert (Hn0 : h0 !! n = Some (mkObj KPlain [])).
  { subst h0 n. rewrite lookup_app_r by lia. by rewrite Nat.sub_diag. }
  (* the current query has nothing to copy *)
  assert (Hit : ∀ cb, ITERATE h0 (VRef lq) cb = Ok h0).
  { intros cb. unfold ITERATE. destruct (truthy _ && _); [|done].
    unfold own_keys. subst h0.
    rewrite lookup_app_l by (by eapply lookup_lt_Some). by rewrite Hq. }
  rewrite Hit. cbn [mbind outcome_bind].
  rewrite (get_non_array _ _ _ _ Hn0 eq_refl). cbn [props lookup_prop List.find fmap
    option_fmap option_map default from_option id truthy mbind outcome_bind new_object alloc].
  set (h1 := h0 ++ [mkObj KPlain []]).
  assert (Hlen0 : length h0 = S n) by (subst h0 n; rewrite length_app; simpl; lia).
  rewrite Hlen0.
  assert (Hn1 : h1 !! n = Some (mkObj KPlain [])).
  { subst h1. rewrite lookup_app_l by lia. done. }
  rewrite (set_prop_non_array _ _ _ _ _ Hn1 eq_refl).
  cbn [okind props mbind outcome_bind]. rewrite put_prop_nil.
  set (h2 := <[n := mkObj KPlain [(syscode, VRef (S n))]]> h1).
  (* what the copy of the config keeps *)
  set (Inv := fun h' : heap =>
    length h' = S (S n) ∧
    h' !! n = Some (mkObj KPlain [(syscode, VRef (S n))]) ∧
    (∃ ps, h' !! S n = Some (mkObj KPlain ps)) ∧
    ∀ l, l < n → h' !! l = h !! l).
  assert (Hlen1 : length h1 = S (S n)) by (subst h1; rewrite length_app; simpl; lia).
  assert (Hinv2 : Inv h2).
  { subst Inv h2. cbn beta. rewrite length_insert. split; [done|]. split.
    - apply list_lookup_insert_eq. lia.
    - split.
      + exists []. rewrite list_lookup_insert_ne by lia. subst h1.
        rewrite lookup_app_r by lia. by rewrite Hlen0, Nat.sub_diag.
      + intros l Hl. rewrite list_lookup_insert_ne by lia. subst h1 h0.
        rewrite !lookup_app_l; [done|lia|rewrite length_app; simpl; lia]. }
  assert (Hstep : ∀ h' v k (i : nat), Inv h' →
            ∃ h'', set_prop h' (get h' (VRef n) syscode) k v = Ok h'' ∧ Inv h'').
  { intros h' v k i (Hl & Hqp & (ps & He) & Hold).
    rewrite (get_non_array _ _ _ _ Hqp eq_refl). cbn [props].
    rewrite lookup_prop_singleton. cbn [default from_option id].
    rewrite (set_prop_non_array _ _ _ _ _ He eq_refl). eexists. split; [done|].
    subst Inv. cbn beta. rewrite length_insert. split; [done|]. split.
    - by rewrite list_lookup_insert_ne by lia.
    - split.
      + eexists. apply list_lookup_insert_eq. lia.
      + intros l Hlt. rewrite list_lookup_insert_ne by lia. by apply Hold. }
  assert (Hcfg : ∃ h3, (if truthy config
                        then ITERATE h2 config (fun h value key _ =>
                               set_prop h (get h (VRef n) syscode) key value)
                        else Ok h2) = Ok h3 ∧ Inv h3).
  { destruct (truthy config); [|by exists h2].
    apply (ITERATE_invariant Inv); [done|]. intros h' v k i. by apply Hstep. }
  destruct Hcfg as (h3 & -> & (Hl3 & Hqp3 & (ps & He3) & Hold3)).
  cbn [mbind outcome_bind].
  assert (Hopt : ∀ k, opt_chain h3 pagination k = opt_chain h pagination k).
  { intros k. unfold opt_chain. destruct pagination as [| | | | |l]; try done.
    apply get_frame. intros l' [= <-]. apply Hold3. by apply Hpag. }
  rewrite !Hopt, Hl3.
  set (page_limit := mkObj KPlain [("page", opt_chain h pagination "page");
                                   ("limit", opt_chain h pagination "limit")]).
  set (h4 := h3 ++ [page_limit]).
  assert (Hqp4 : h4 !! n = Some (mkObj KPlain [(syscode, VRef (S n))])).
  { subst h4. rewrite lookup_app_l by lia. done. }
  assert (He4 : h4 !! S n = Some (mkObj KPlain ps)).
  { subst h4. rewrite lookup_app_l by lia. done. }
  rewrite (get_non_array _ _ _ _ Hqp4 eq_refl). cbn [props].
  rewrite lookup_prop_singleton. cbn [default from_option id].
  rewrite (set_prop_non_array _ _ _ _ _ He4 eq_refl). cbn [mbind outcome_bind okind props].
  set (h5 := <[S n := mkObj KPlain (put_prop "pagination" (VRef (S (S n))) ps)]> h4).
  assert (Hlen4 : length h4 = S (S (S n))) by (subst h4; rewrite length_app; simpl; lia).
  exists h5, (S n), (S (S n)). split; [done|].
  assert (Hqp5 : h5 !! n = Some (mkObj KPlain [(syscode, VRef (S n))])).
  { subst h5. by rewrite list_lookup_insert_ne by lia. }
  assert (He5 : h5 !! S n = Some (mkObj KPlain (put_prop "pagination" (VRef (S (S n))) ps))).
  { subst h5. apply list_lookup_insert_eq. lia. }
  split; [|split].
  - rewrite (get_non_array _ _ _ _ Hqp5 eq_refl). cbn [props].
    by rewrite lookup_prop_singleton.
  - rewrite (get_non_array _ _ _ _ He5 eq_refl). cbn [props].
    by rewrite lookup_put_prop.
  - subst h5 h4. rewrite list_lookup_insert_ne by lia.
    rewrite lookup_app_r by lia. by rewrite Hl3, Nat.sub_diag.
Qed.



(** ** CLONE *)

Lemma index_of_key_Some k i : index_of_key k = Some i → key_of_index i = k.
Proof.
  unfold index_of_key, key_of_index. destruct k; [done|].
  destruct (digits_to_nat _ _) as [n|]; [|done].
  destruct (String.eqb (pretty n) _) eqn:E; [|done].
  intros [= <-]. by apply String.eqb_eq.
Qed.

Lemma forallb_ext_in {A} (f g : A → bool) l :
  (∀ a, a ∈ l → f a = g a) → forallb f l = forallb g l.
Proof.
  induction l as [|a l IH]; intros H; [done|]. simpl.
  rewrite (H a) by apply list_elem_of_here. f_equal.
  apply IH. intros b Hb. apply H. by apply list_elem_of_further.
Qed.

Lemma existsb_ext_in {A} (f g : A → bool) l :
  (∀ a, a ∈ l → f a = g a) → existsb f l = existsb g l.
Proof.
  induction l as [|a l IH]; intros H; [done|]. simpl.
  rewrite (H a) by apply list_elem_of_here. f_equal.
  apply IH. intros b Hb. apply H. by apply list_elem_of_further.
Qed.

Lemma forallb_elem {A} (f : A → bool) l a :
  forallb f l = true → a ∈ l → f a = true.
Proof.
  intros H Hin. rewrite forallb_forall in H. apply H. by apply list_elem_of_In.
Qed.

Lemma lookup_prop_elem k ps v : lookup_prop k ps = Some v → (k, v) ∈ ps.
Proof.
  unfold lookup_prop. induction ps as [|[k0 v0] ps IH]; [done|]. simpl.
  destruct (String.eqb k0 k) eqn:E.
  - apply String.eqb_eq in E as ->. intros [= <-]. apply list_elem_of_here.
  - intros H. apply list_elem_of_further. by apply IH.
Qed.

Lemma is_handle_frame (h h' : heap) l : h' !! l = h !! l → is_handle h' l = is_handle h l.
Proof. unfold is_handle. by intros ->. Qed.

Lemma has_own_frame (h h' : heap) l k :
  h' !! l = h !! l → has_own h' (VRef l) k = has_own h (VRef l) k.
Proof. unfold has_own. by intros ->. Qed.

Lemma own_keys_frame (h h' : heap) l :
  h' !! l = h !! l → own_keys h' (VRef l) = own_keys h (VRef l).
Proof. unfold own_keys. by intros ->. Qed.

(** What a property read can return: a primitive or the value of an own
    property. *)
Lemma get_cases (h : heap) l o k :
  h !! l = Some o →
  is_primitive (get h (VRef l) k) = true ∨ (∃ k', (k', get h (VRef l) k) ∈ props o).
Proof.
  intros Ho. unfold get. rewrite Ho.
  assert (Hl : is_primitive (default VUndef (lookup_prop k (props o))) = true ∨
               ∃ k', (k', default VUndef (lookup_prop k (props o))) ∈ props o).
  { destruct (lookup_prop k (props o)) eqn:E; [|by left].
    right. exists k. by apply lookup_prop_elem. }
  destruct (okind o); try done. by destruct (String.eqb k "length"); [left|].
Qed.

Lemma nested_primitive d (h : heap) v : is_primitive v = true → nested d h v = true.
Proof. by destruct v, d. Qed.

Lemma reaches_primitive d (h : heap) v l : is_primitive v = true → reaches d h v l = false.
Proof. by destruct v, d. Qed.

Lemma nested_valid d (h : heap) l : nested d h (VRef l) = true → l < length h.
Proof.
  destruct d; simpl; (destruct (h !! l) eqn:Ho; [|done]);
    intros _; by eapply lookup_lt_Some.
Qed.

(** The values under a nested object are nested one level less. *)
Lemma nested_get d (h : heap) l k :
  is_handle h l = false → nested (S d) h (VRef l) = true →
  nested d h (get h (VRef l) k) = true.
Proof.
  intros Hh H. cbn [nested] in H. destruct (h !! l) as [o|] eqn:Ho; [|done].
  rewrite Hh in H.
  destruct (get_cases h l o k Ho) as [Hp|[k' Hin]]; [by apply nested_primitive|].
  destruct (okind o) eqn:Hk.
  - by apply (forallb_elem _ _ _ H Hin).
  - apply (forallb_elem _ _ _ H) in Hin. by apply andb_prop in Hin as [_ ?].
  - destruct (props o); [by apply elem_of_nil in Hin|done].
  - destruct (props o); [by apply elem_of_nil in Hin|done].
  - destruct (props o); [by apply elem_of_nil in Hin|done].
  - destruct (props o); [by apply elem_of_nil in Hin|done].
Qed.

Lemma reaches_self d (h : heap) l : reaches d h (VRef l) l = true.
Proof. destruct d; simpl; by rewrite Nat.eqb_refl. Qed.

(** What a value under an object leads to, the object leads to. *)
Lemma reaches_get d (h : heap) l0 k l :
  is_handle h l0 = false → reaches d h (get h (VRef l0) k) l = true →
  reaches (S d) h (VRef l0) l = true.
Proof.
  intros Hh H. cbn [reaches]. rewrite Hh. apply orb_true_iff. right.
  destruct (h !! l0) as [o|] eqn:Ho.
  - destruct (get_cases h l0 o k Ho) as [Hp|[k' Hin]].
    + by rewrite reaches_primitive in H.
    + apply existsb_exists. exists (k', get h (VRef l0) k).
      split; [by apply list_elem_of_In|done].
  - unfold get in H. rewrite Ho in H. by destruct d.
Qed.

(** A nested structure only leads to objects of its store. *)
Lemma nested_reaches d : ∀ (h : heap) v l,
  nested d h v = true → reaches d h v l = true → l < length h.
Proof.
  induction d as [|d IH]; intros h v l Hn Hr.
  - destruct v as [| | | | |l0]; try done. simpl in Hr.
    rewrite orb_false_r in Hr. apply Nat.eqb_eq in Hr as <-.
    by eapply nested_valid.
  - destruct v as [| | | | |l0]; try done. cbn [reaches] in Hr.
    apply orb_true_iff in Hr as [Hr|Hr].
    + apply Nat.eqb_eq in Hr as <-. by eapply nested_valid.
    + destruct (is_handle h l0) eqn:Hh; [done|].
      destruct (h !! l0) as [o|] eqn:Ho; [|done].
      apply existsb_exists in Hr as ([k v] & Hin & Hr).
      apply list_elem_of_In in Hin.
      apply (IH h v l); [|done].
      cbn [nested] in Hn. rewrite Ho, Hh in Hn.
      destruct (okind o).
      * by apply (forallb_elem _ _ _ Hn Hin).
      * apply (forallb_elem _ _ _ Hn) in Hin. by apply andb_prop in Hin as [_ ?].
      * destruct (props o); [by apply elem_of_nil in Hin|done].
      * destruct (props o); [by apply elem_of_nil in Hin|done].
      * destruct (props o); [by apply elem_of_nil in Hin|done].
      * destruct (props o); [by apply elem_of_nil in Hin|done].
Qed.

(** Reachability only depends on the objects reached. *)
Lemma reaches_frame d : ∀ (h h' : heap) v,
  (∀ l, reaches d h v l = true → h' !! l = h !! l) →
  ∀ l, reaches d h' v l = reaches d h v l.
Proof.
  induction d as [|d IH]; intros h h' v Hagree l; [by destruct v|].
  destruct v as [| | | | |l0]; try done. cbn [reaches].
  assert (H0 : h' !! l0 = h !! l0) by apply Hagree, reaches_self.
  rewrite (is_handle_frame _ _ _ H0), H0. f_equal.
  destruct (is_handle h l0) eqn:Hh; [done|].
  destruct (h !! l0) as [o|] eqn:Ho; [|done].
  apply existsb_ext_in. intros [k v] Hin. apply IH. intros l' Hr.
  apply Hagree. cbn [reaches]. rewrite Hh, Ho. apply orb_true_iff. right.
  apply existsb_exists. exists (k, v). split; [by apply list_elem_of_In|done].
Qed.

(** Being nested only depends on the objects of the structure. *)
Lemma nested_frame d : ∀ (h h' : heap) v,
  nested d h v = true → (∀ l, l < length h → h' !! l = h !! l) →
  nested d h' v = true.
Proof.
  induction d as [|d IH]; intros h h' v Hn Hagree.
  - destruct v as [| | | | |l0]; try done.
    pose proof (nested_valid _ _ _ Hn) as Hl. cbn [nested] in *.
    by rewrite (is_handle_frame _ _ _ (Hagree l0 Hl)), (Hagree l0 Hl).
  - destruct v as [| | | | |l0]; try done.
    pose proof (nested_valid _ _ _ Hn) as Hl. cbn [nested] in *.
    rewrite (is_handle_frame _ _ _ (Hagree l0 Hl)), (Hagree l0 Hl).
    destruct (h !! l0) as [o|]; [|done].
    destruct (is_handle h l0); [done|].
    destruct (okind o); try done.
    + rewrite <- Hn. apply forallb_ext_in. intros [k v] Hin. simpl.
      pose proof (forallb_elem _ _ _ Hn Hin) as Hv. simpl in Hv.
      rewrite Hv. by apply (IH h).
    + rewrite <- Hn. apply forallb_ext_in. intros [k v] Hin. simpl.
      pose proof (forallb_elem _ _ _ Hn Hin) as Hv. simpl in Hv.
      apply andb_prop in Hv as [Hi Hv]. rewrite Hi, Hv. simpl. by apply (IH h).
Qed.

(** Deep equality only depends on the objects the two values lead to. *)
Lemma deep_equal_frame d : ∀ (h1 h1' h2 h2' : heap) v1 v2,
  (∀ l, reaches d h1 v1 l = true → h1' !! l = h1 !! l) →
  (∀ l, reaches d h2 v2 l = true → h2' !! l = h2 !! l) →
  deep_equal d h1' v1 h2' v2 = deep_equal d h1 v1 h2 v2.
Proof.
  induction d as [|d IH]; intros h1 h1' h2 h2' v1 v2 A1 A2.
  - destruct v1 as [| | | | |l1], v2 as [| | | | |l2]; try done.
    cbn [deep_equal].
    rewrite (A1 l1 (reaches_self _ _ _)), (A2 l2 (reaches_self _ _ _)).
    by rewrite (is_handle_frame _ _ _ (A1 l1 (reaches_self _ _ _))).
  - destruct v1 as [| | | | |l1], v2 as [| | | | |l2]; try done.
    cbn [deep_equal].
    pose proof (A1 l1 (reaches_self _ _ _)) as E1.
    pose proof (A2 l2 (reaches_self _ _ _)) as E2.
    rewrite (own_keys_frame _ _ _ E1), (own_keys_frame _ _ _ E2).
    rewrite (is_handle_frame _ _ _ E1).
    assert (G1 : ∀ k, get h1' (VRef l1) k = get h1 (VRef l1) k).
    { intros k. apply get_frame. by intros ? [= <-]. }
    assert (G2 : ∀ k, get h2' (VRef l2) k = get h2 (VRef l2) k).
    { intros k. apply get_frame. by intros ? [= <-]. }
    assert (O1 : ∀ k, has_own h1' (VRef l1) k = has_own h1 (VRef l1) k).
    { intros k. by apply has_own_frame. }
    assert (O2 : ∀ k, has_own h2' (VRef l2) k = has_own h2 (VRef l2) k).
    { intros k. by apply has_own_frame. }
    rewrite E1, E2.
    destruct (h1 !! l1) as [o1|] eqn:Ho1; [|done].
    destruct (h2 !! l2) as [o2|] eqn:Ho2; [|done].
    destruct (bool_decide (okind o1 = okind o2)) eqn:Hk; [|done].
    apply bool_decide_eq_true in Hk. cbn [andb].
    destruct (is_handle h1 l1) eqn:Hh1; [done|].
    assert (Hh2 : is_handle h2 l2 = false).
    { unfold is_handle in *. rewrite Ho1 in Hh1. rewrite Ho2. simpl in *.
      by rewrite <- Hk. }
    f_equal.
    + apply forallb_ext_in. intros k Hin. rewrite O2, G1, G2. f_equal.
      apply IH.
      * intros l Hr. apply A1. by eapply reaches_get.
      * intros l Hr. apply A2. by eapply reaches_get.
    + apply forallb_ext_in. intros k Hin. by rewrite O1.
Qed.

Lemma pretty_N_go_not_length (x : N) s : s ≠ "length" → pretty_N_go x s ≠ "length".
Proof.
  revert s. induction (N.lt_wf_0 x) as [x _ IH]. intros s Hs.
  destruct (decide (x = 0%N)) as [->|Hx]; [by rewrite pretty_N_go_0|].
  rewrite pretty_N_go_step by lia. apply IH; [apply N.div_lt; lia|].
  unfold pretty_N_char. by repeat case_match.
Qed.

Lemma key_of_index_not_length i : key_of_index i ≠ "length".
Proof.
  unfold key_of_index, pretty, pretty_nat, pretty, pretty_N.
  case_decide; [done|]. by apply pretty_N_go_not_length.
Qed.

Lemma index_key_not_length k i : index_of_key k = Some i → k ≠ "length".
Proof. intros H%index_of_key_Some. subst. apply key_of_index_not_length. Qed.

Lemma update_prop_elem k v ps ps' p :
  update_prop k v ps = Some ps' → p ∈ ps' → p = (k, v) ∨ p ∈ ps.
Proof.
  revert ps'. induction ps as [|[k0 v0] ps IH]; intros ps' H Hin; [done|].
  simpl in H. destruct (String.eqb k0 k).
  - injection H as <-. apply elem_of_cons in Hin as [->|Hin]; [by left|].
    right. by apply list_elem_of_further.
  - destruct (update_prop k v ps) as [qs|]; [|done]. injection H as <-.
    apply elem_of_cons in Hin as [->|Hin]; [right; apply list_elem_of_here|].
    destruct (IH qs eq_refl Hin) as [->|?]; [by left|].
    right. by apply list_elem_of_further.
Qed.

Lemma insert_index_elem i k v ps p :
  p ∈ insert_index i k v ps → p = (k, v) ∨ p ∈ ps.
Proof.
  induction ps as [|[k0 v0] ps IH]; simpl.
  - intros Hp%list_elem_of_singleton. by left.
  - destruct (index_of_key k0) as [j|].
    + destruct (j <? i)%nat.
      * intros [->|Hin]%elem_of_cons; [right; apply list_elem_of_here|].
        destruct (IH Hin) as [->|?]; [by left|].
        right. by apply list_elem_of_further.
      * intros [->|Hin]%elem_of_cons; [by left|by right].
    + intros [->|Hin]%elem_of_cons; [by left|by right].
Qed.

Lemma put_prop_elem k v ps p : p ∈ put_prop k v ps → p = (k, v) ∨ p ∈ ps.
Proof.
  unfold put_prop. destruct (update_prop k v ps) as [ps'|] eqn:U.
  - by apply update_prop_elem.
  - destruct (index_of_key k).
    + apply insert_index_elem.
    + intros [?|Hp%list_elem_of_singleton]%elem_of_app; [by right|left; by subst].
Qed.

Section clone_loop.
Variable d : nat.
Hypothesis IH : ∀ (h : heap) x,
  nested d h x = true → ∃ h' y, CLONE d h x = Ok (h', y) ∧ clone_post d h x h' y.

Variables (h : heap) (lx : loc) (kd : kind) (keys : list string).
Hypothesis Hnh : is_handle h lx = false.
Hypothesis Hnested : nested (S d) h (VRef lx) = true.
Hypothesis Hkd : kd ≠ KFile ∧ kd ≠ KFileList.
Hypothesis Hset : ∀ (h0 : heap) qs k c,
  k ∈ keys → h0 !! length h = Some (mkObj kd qs) →
  set_prop h0 (VRef (length h)) k c
  = Ok (<[length h := mkObj kd (put_prop k c qs)]> h0).

(** Every turn of the loop keeps the original store and adds one copied
    property to the copy. *)
Lemma clone_loop ks : ∀ done hi,
  (∀ k, k ∈ ks → k ∈ keys) →
  copying d h (VRef lx) kd done hi →
  ∃ hf, foldM (clone_property (CLONE d) (VRef lx) (VRef (length h))) ks hi = Ok hf ∧
        copying d h (VRef lx) kd (done ++ ks) hf.
Proof using All.
  induction ks as [|k ks IHks]; intros done hi Hks Hcopy.
  { exists hi. by rewrite app_nil_r. }
  assert (Hks' : ∀ k', k' ∈ ks → k' ∈ keys).
  { intros k' Hk'. apply Hks. by apply list_elem_of_further. }
  replace (done ++ k :: ks) with ((done ++ [k]) ++ ks) by by rewrite <- app_assoc.
  rewrite foldM_cons. unfold clone_property at 2.
  destruct Hcopy as (Hold & Hlen & qs & Hn & Hall & Hdone).
  pose proof (nested_valid _ _ _ Hnested) as Hlx.
  rewrite (has_own_frame h hi lx k (Hold lx Hlx)).
  destruct (has_own h (VRef lx) k) eqn:Hown.
  2: { cbn [mbind outcome_bind]. apply IHks; [done|].
       split; [done|]. split; [done|]. exists qs. split; [done|]. split; [done|].
       intros k' [Hin|Hin%list_elem_of_singleton]%elem_of_app Hk'; [by apply Hdone|].
       subst. by rewrite Hown in Hk'. }
  assert (Hget : get hi (VRef lx) k = get h (VRef lx) k).
  { apply get_frame. intros ? [= <-]. by apply Hold. }
  rewrite Hget. set (xk := get h (VRef lx) k).
  assert (Hxk : nested d h xk = true) by by apply nested_get.
  assert (Hxk' : nested d hi xk = true) by by apply (nested_frame d h).
  destruct (IH hi xk Hxk') as (hi' & c & -> & P1 & P2 & P3 & P4 & _).
  cbn [mbind outcome_bind].
  assert (Hn' : hi' !! length h = Some (mkObj kd qs)) by by rewrite P1.
  rewrite (Hset hi' qs k c) by (done || apply Hks, list_elem_of_here).
  set (hi'' := <[length h := mkObj kd (put_prop k c qs)]> hi').
  assert (Hnot : is_handle hi (length h) = false).
  { unfold is_handle. rewrite Hn. simpl. destruct Hkd. by destruct kd. }
  assert (Hreach : ∀ l, reaches d hi xk l = true → l < length h).
  { intros l Hr. apply (nested_reaches d h xk l Hxk).
    rewrite <- Hr. symmetry. apply reaches_frame.
    intros l' Hr'. apply Hold. by apply (nested_reaches d h xk). }
  assert (Hc : ∀ l, reaches d hi' c l = true →
            l < length hi' ∧ l ≠ length h ∧ (l < length h → is_handle h l = true)).
  { intros l Hr. destruct (P4 l Hr) as [Hl Hh]. split; [done|].
    split.
    - intros ->. by rewrite Hh in Hnot by done.
    - intros Hlt. rewrite <- (is_handle_frame h hi l (Hold l Hlt)).
      apply Hh. lia. }
  apply IHks; [done|].
  split; [|split; [|exists (put_prop k c qs); split; [|split]]].
  - intros l Hl. subst hi''. rewrite list_lookup_insert_ne by lia.
    rewrite P1 by lia. by apply Hold.
  - subst hi''. rewrite length_insert. lia.
  - subst hi''. apply list_lookup_insert_eq. lia.
  - apply Forall_forall. intros p [->|Hp]%put_prop_elem.
    + split; [done|]. cbn [fst snd]. fold xk. split.
      * rewrite <- P3. apply deep_equal_frame.
        -- intros l Hr. symmetry. apply Hold. by apply Hreach.
        -- intros l Hr. subst hi''. apply list_lookup_insert_ne.
           destruct (Hc l Hr) as (_ & ? & _). done.
      * intros l Hr.
        assert (Hr' : reaches d hi' c l = true).
        { rewrite <- Hr. symmetry. apply reaches_frame. intros l' Hl'.
          subst hi''. apply list_lookup_insert_ne.
          destruct (Hc l' Hl') as (_ & ? & _). done. }
        destruct (Hc l Hr') as (? & ? & ?). subst hi''.
        by rewrite length_insert.
    + rewrite Forall_forall in Hall. destruct (Hall p Hp) as (O1 & O2 & O3).
      assert (Hsame : ∀ l, reaches d hi (snd p) l = true → hi'' !! l = hi !! l).
      { intros l Hr. destruct (O3 l Hr) as (? & ? & _). subst hi''.
        rewrite list_lookup_insert_ne by done. by apply P1. }
      split; [done|]. split.
      * rewrite <- O2. by apply deep_equal_frame.
      * intros l Hr. rewrite (reaches_frame d hi hi'' _ Hsame) in Hr.
        destruct (O3 l Hr) as (? & ? & ?). subst hi''.
        rewrite length_insert. split; [lia|done].
  - intros k' Hin Hk'. destruct (decide (k' = k)) as [->|Hne].
    + rewrite lookup_put_prop. by eexists.
    + rewrite lookup_put_prop_ne by done. apply Hdone; [|done].
      apply elem_of_app in Hin as [?|?%list_elem_of_singleton]; done.
Qed.

(** A finished loop over all the keys of the original gives a deep copy. *)
Lemma clone_loop_post hf :
  (∀ k, k ∈ keys → k ≠ "length" ∨ non_array kd = true) →
  (∀ k, k ∈ own_keys h (VRef lx) → k ∈ keys ∧ has_own h (VRef lx) k = true) →
  okind <$> h !! lx = Some kd →
  copying d h (VRef lx) kd keys hf →
  clone_post (S d) h (VRef lx) hf (VRef (length h)).
Proof using All.
  intros Hlen_key Hown_keys Hkind (Hold & Hlen & qs & Hn & Hall & Hdone).
  rewrite Forall_forall in Hall.
  destruct (h !! lx) as [ox|] eqn:Hx; [|done]. injection Hkind as Hkind.
  assert (Hgetc : ∀ k, k ∈ keys →
            get hf (VRef (length h)) k = default VUndef (lookup_prop k qs)).
  { intros k Hk. unfold get. rewrite Hn. cbn [okind props].
    destruct kd; try done.
    destruct (Hlen_key k Hk) as [Hne|?]; [|done].
    by destruct (String.eqb k "length") eqn:E; [apply String.eqb_eq in E|]. }
  assert (Hownc : ∀ k, k ∈ keys → is_Some (lookup_prop k qs) →
            has_own hf (VRef (length h)) k = true).
  { intros k Hk Hs. unfold has_own. rewrite Hn. cbn [okind props].
    destruct kd; try (by apply bool_decide_eq_true).
    destruct (String.eqb k "length"); [done|by apply bool_decide_eq_true]. }
  split; [done|]. split; [lia|]. split; [|split].
  - cbn [deep_equal]. rewrite Hx, Hn, Hnh. cbn [okind].
    rewrite bool_decide_eq_true_2 by done. cbn [andb].
    apply andb_true_iff. split.
    + apply forallb_forall. intros k Hk%list_elem_of_In.
      destruct (Hown_keys k Hk) as [Hk' Hown].
      destruct (Hdone k Hk' Hown) as [c Hc].
      rewrite (Hownc k Hk') by by rewrite Hc. cbn [andb].
      rewrite (Hgetc k Hk'), Hc. cbn [default from_option id].
      by destruct (Hall (k, c) (lookup_prop_elem _ _ _ Hc)) as (_ & ? & _).
    + apply forallb_forall. intros k Hk%list_elem_of_In.
      unfold own_keys in Hk. rewrite Hn in Hk. cbn [props] in Hk.
      apply list_elem_of_fmap in Hk as ([k' c] & -> & Hin).
      by destruct (Hall _ Hin) as (? & _).
  - intros l Hr. cbn [reaches] in Hr. apply orb_true_iff in Hr as [Hr|Hr].
    { apply Nat.eqb_eq in Hr as <-. split; [done|lia]. }
    assert (Hnot : is_handle hf (length h) = false).
    { unfold is_handle. rewrite Hn. simpl. destruct Hkd. by destruct kd. }
    rewrite Hnot, Hn in Hr. cbn [props] in Hr.
    apply existsb_exists in Hr as (p & Hin%list_elem_of_In & Hr).
    destruct (Hall p Hin) as (_ & _ & O3). by destruct (O3 l Hr) as (? & _ & ?).
  - rewrite Hnh. by exists (length h).
Qed.
End clone_loop.

Lemma value_eqb_refl v : is_primitive v = true → value_eqb v v = true.
Proof.
  destruct v as [| |b|n|s|l]; try done; simpl; intros _.
  - by destruct b.
  - apply Z.eqb_refl.
  - apply String.eqb_refl.
Qed.

(** Primitives and handles are returned as they are. *)
Lemma CLONE_leaf d (h : heap) x :
  is_primitive x = true ∨ (∃ l, x = VRef l ∧ is_handle h l = true) →
  CLONE d h x = Ok (h, x) ∧ clone_post d h x h x.
Proof.
  intros [Hp|(l & -> & Hh)].
  - split; [by destruct x, d|]. split; [done|]. split; [done|]. split; [|split].
    + destruct x, d; try done; exact (value_eqb_refl _ Hp).
    + intros l Hr. by rewrite reaches_primitive in Hr.
    + by destruct x.
  - assert (Hk : ∃ o, h !! l = Some o ∧ (okind o = KFile ∨ okind o = KFileList)).
    { unfold is_handle in Hh. destruct (h !! l) as [o|]; [|done]. exists o.
      split; [done|]. simpl in Hh.
      destruct (okind o); try done; [by left|by right]. }
    destruct Hk as (o & Ho & Hk). split.
    + by destruct d, Hk as [Hk|Hk]; simpl; rewrite Ho; simpl; rewrite Hk.
    + split; [done|]. split; [done|]. split; [|split].
      * destruct d; simpl; rewrite Ho, Hh, Nat.eqb_refl;
          by rewrite bool_decide_eq_true_2.
      * intros l' Hr.
        assert (l' = l) as ->.
        { destruct d; simpl in Hr; rewrite ?Hh, orb_false_r in Hr;
            by apply Nat.eqb_eq in Hr. }
        split; [by eapply lookup_lt_Some|done].
      * by rewrite Hh.
Qed.

(** A date or a regular expression is copied to a new object of its class. *)
Lemma CLONE_fresh d (h : heap) l o :
  h !! l = Some o → props o = [] → is_handle h l = false →
  clone_post (S d) h (VRef l) (h ++ [mkObj (okind o) []]) (VRef (length h)).
Proof.
  intros Ho Hps Hh.
  assert (Hnew : (h ++ [mkObj (okind o) []]) !! length h = Some (mkObj (okind o) [])).
  { rewrite lookup_app_r by lia. by rewrite Nat.sub_diag. }
  split; [|split; [|split; [|split]]].
  - intros l' Hl'. by apply lookup_app_l.
  - rewrite length_app. simpl. lia.
  - cbn [deep_equal]. rewrite Ho, Hnew, Hh. cbn [okind].
    rewrite bool_decide_eq_true_2 by done.
    unfold own_keys. by rewrite Ho, Hnew, Hps.
  - intros l' Hr. cbn [reaches] in Hr. rewrite Hnew in Hr. cbn [props existsb] in Hr.
    assert (l' = length h) as ->.
    { apply orb_true_iff in Hr as [Hr|Hr]; [by apply Nat.eqb_eq in Hr|].
      by destruct (is_handle (h ++ _) (length h)). }
    split; [rewrite length_app; simpl; lia|lia].
  - rewrite Hh. by exists (length h).
Qed.

Lemma copying_start d (h : heap) lx kd :
  copying d h (VRef lx) kd [] (h ++ [mkObj kd []]).
Proof.
  split; [|split].
  - intros l Hl. by apply lookup_app_l.
  - rewrite length_app. simpl. lia.
  - exists []. split; [|split; [done|]].
    + rewrite lookup_app_r by lia. by rewrite Nat.sub_diag.
    + by intros k ?%elem_of_nil.
Qed.

(** On a nested structure of depth at most [d], [CLONE] with depth [d]
    returns, and returns a deep copy made of new objects and handles. *)
Lemma CLONE_spec d : ∀ (h : heap) x,
  nested d h x = true → ∃ h' y, CLONE d h x = Ok (h', y) ∧ clone_post d h x h' y.
Proof.
  induction d as [|d IH]; intros h x Hn.
  - exists h, x. apply CLONE_leaf. destruct x as [| | | | |l]; try by left.
    right. exists l. split; [done|]. simpl in Hn.
    destruct (h !! l); [|done]. by destruct (is_handle h l).
  - destruct x as [| | | | |l]; try (exists h; eexists; apply CLONE_leaf; by left).
    pose proof Hn as Hn'. cbn [nested] in Hn.
    destruct (h !! l) as [o|] eqn:Ho; [|done].
    destruct (is_handle h l) eqn:Hh.
    { exists h, (VRef l). apply CLONE_leaf. right. by exists l. }
    destruct (okind o) as [|len|t|src flags| |] eqn:Hk.
    + (* a mapping *)
      destruct (clone_loop d IH h l KPlain (own_keys h (VRef l)) Hh Hn')
        with (ks := own_keys h (VRef l)) (done := @nil string)
             (hi := h ++ [mkObj KPlain []]) as (hf & Hfold & Hcopy).
      * done.
      * intros h0 qs k c _ H0. by apply (set_prop_non_array h0 _ (mkObj KPlain qs)).
      * done.
      * apply copying_start.
      * exists hf, (VRef (length h)). split.
        { cbn [CLONE]. rewrite Ho. cbn [fmap option_fmap option_map]. rewrite Hk.
          cbn [new_object alloc]. by rewrite Hfold. }
        apply (clone_loop_post d IH h l KPlain (own_keys h (VRef l)) Hh Hn'); try done.
        -- intros h0 qs k c _ H0. by apply (set_prop_non_array h0 _ (mkObj KPlain qs)).
        -- intros k _. by right.
        -- intros k Hin. split; [done|].
           rewrite (has_own_non_array _ _ _ _ Ho) by by rewrite Hk.
           apply bool_decide_eq_true. apply elem_of_keys_lookup.
           by rewrite (own_keys_ref _ _ _ Ho) in Hin.
        -- by rewrite Ho, <- Hk.
    + (* a sequence *)
      assert (Hkeys : ∀ k, k ∈ key_of_index <$> seq 0 len →
                ∃ i, k = key_of_index i ∧ i < len).
      { intros k (i & -> & Hi%elem_of_seq)%list_elem_of_fmap. exists i.
        split; [done|lia]. }
      assert (Hset : ∀ (h0 : heap) qs k c,
                k ∈ key_of_index <$> seq 0 len →
                h0 !! length h = Some (mkObj (KArray len) qs) →
                set_prop h0 (VRef (length h)) k c
                = Ok (<[length h := mkObj (KArray len) (put_prop k c qs)]> h0)).
      { intros h0 qs k c Hin H0. destruct (Hkeys k Hin) as (i & -> & Hi).
        rewrite set_prop_define by apply key_of_index_not_length.
        unfold define_prop. rewrite H0. cbn [okind props grow]. do 3 f_equal.
        destruct (index_of_key (key_of_index i)) as [j|] eqn:E; [|done].
        apply index_of_key_Some in E. apply (inj key_of_index) in E as ->.
        f_equal. lia. }
      destruct (clone_loop d IH h l (KArray len) (key_of_index <$> seq 0 len) Hh Hn')
        with (ks := key_of_index <$> seq 0 len) (done := @nil string)
             (hi := h ++ [mkObj (KArray len) []]) as (hf & Hfold & Hcopy);
        [done|done|done|apply copying_start|].
      exists hf, (VRef (length h)). split.
      { cbn [CLONE]. rewrite Ho. cbn [fmap option_fmap option_map]. rewrite Hk.
        cbn [alloc]. by rewrite Hfold. }
      apply (clone_loop_post d IH h l (KArray len) (key_of_index <$> seq 0 len) Hh Hn');
        try done.
      * intros k Hin. left. destruct (Hkeys k Hin) as (i & -> & _).
        apply key_of_index_not_length.
      * intros k Hin. rewrite (own_keys_ref _ _ _ Ho) in Hin.
        pose proof Hin as Hlook. apply elem_of_keys_lookup in Hlook.
        apply list_elem_of_fmap in Hin as ([k' v] & -> & Hin).
        apply (forallb_elem _ _ _ Hn) in Hin. cbn [fst snd] in *.
        apply andb_prop in Hin as [Hidx _]. unfold index_below in Hidx.
        destruct (index_of_key k') as [i|] eqn:E; [|done].
        apply Nat.ltb_lt in Hidx. pose proof (index_key_not_length _ _ E) as Hne.
        apply index_of_key_Some in E as <-. split.
        -- apply list_elem_of_fmap. exists i. split; [done|]. apply elem_of_seq. lia.
        -- unfold has_own. rewrite Ho, Hk.
           destruct (String.eqb _ _); [done|by apply bool_decide_eq_true].
      * by rewrite Ho, <- Hk.
    + (* a date *)
      exists (h ++ [mkObj (KDate t) []]), (VRef (length h)). split.
      { cbn [CLONE]. rewrite Ho. cbn [fmap option_fmap option_map]. by rewrite Hk. }
      rewrite <- Hk. apply CLONE_fresh; [done| |done]. by destruct (props o).
    + (* a regular expression *)
      exists (h ++ [mkObj (KRegExp src flags) []]), (VRef (length h)). split.
      { cbn [CLONE]. rewrite Ho. cbn [fmap option_fmap option_map]. by rewrite Hk. }
      rewrite <- Hk. apply CLONE_fresh; [done| |done]. by destruct (props o).
    + unfold is_handle in Hh. by rewrite Ho in Hh; simpl in Hh; rewrite Hk in Hh.
    + unfold is_handle in Hh. by rewrite Ho in Hh; simpl in Hh; rewrite Hk in Hh.
Qed.

Lemma nested_mono d : ∀ d' (h : heap) v,
  nested d h v = true → (d ≤ d')%nat → nested d' h v = true.
Proof.
  induction d as [|d IH]; intros d' h v Hn Hle.
  - destruct v as [| | | | |l]; try by destruct d'.
    simpl in Hn. destruct d'; simpl; destruct (h !! l); try done;
      by destruct (is_handle h l).
  - destruct d' as [|d']; [lia|].
    destruct v as [| | | | |l]; try done. cbn [nested] in *.
    destruct (h !! l) as [o|]; [|done]. destruct (is_handle h l); [done|].
    destruct (okind o); try done.
    + apply forallb_forall. intros p Hp%list_elem_of_In.
      apply (IH d'); [|lia]. by apply (forallb_elem _ _ _ Hn).
    + apply forallb_forall. intros p Hp%list_elem_of_In.
      apply (forallb_elem _ _ _ Hn) in Hp. apply andb_prop in Hp as [Hi Hv].
      rewrite Hi. apply (IH d'); [done|lia].
Qed.

(** A nested structure is deep-equal to itself in every store that keeps
    the objects of its own store. *)
Lemma deep_equal_refl d : ∀ (h h' : heap) v,
  nested d h v = true → (∀ l, l < length h → h' !! l = h !! l) →
  deep_equal d h v h' v = true.
Proof.
  induction d as [|d IH]; intros h h' v Hn Hagree.
  - destruct (is_primitive v) eqn:Hp;
      [destruct v; try done; exact (value_eqb_refl _ Hp)|].
    destruct v as [| | | | |l]; try done.
    pose proof (nested_valid _ _ _ Hn) as Hl. simpl in *.
    rewrite (Hagree l Hl). destruct (h !! l); [|done].
    destruct (is_handle h l); [|done].
    by rewrite bool_decide_eq_true_2, Nat.eqb_refl.
  - destruct (is_primitive v) eqn:Hp;
      [destruct v; try done; exact (value_eqb_refl _ Hp)|].
    destruct v as [| | | | |l]; try done.
    pose proof (nested_valid _ _ _ Hn) as Hl. cbn [deep_equal].
    rewrite (Hagree l Hl). destruct (h !! l) as [o|] eqn:Ho.
    2: { cbn [nested] in Hn. by rewrite Ho in Hn. }
    rewrite bool_decide_eq_true_2 by done. cbn [andb].
    destruct (is_handle h l) eqn:Hh; [apply Nat.eqb_refl|].
    rewrite (own_keys_frame h h' l (Hagree l Hl)).
    assert (Hown : ∀ k, k ∈ own_keys h (VRef l) → has_own h (VRef l) k = true).
    { intros k Hk. rewrite (own_keys_ref _ _ _ Ho) in Hk.
      apply elem_of_keys_lookup in Hk. unfold has_own. rewrite Ho.
      destruct (okind o); try (by apply bool_decide_eq_true).
      destruct (String.eqb k "length"); [done|by apply bool_decide_eq_true]. }
    apply andb_true_iff. split.
    + apply forallb_forall. intros k Hk%list_elem_of_In.
      rewrite (has_own_frame h h' l k (Hagree l Hl)), (Hown k Hk). cbn [andb].
      rewrite (get_frame h h' (VRef l) k) by (intros ? [= <-]; by apply Hagree).
      apply IH; [by apply nested_get|done].
    + apply forallb_forall. intros k Hk%list_elem_of_In. by apply Hown.
Qed.



(** ** The embedding on the examples of the sources *)

(** [CONVERT_DOT_TO_OBJECT({"a.b": 1, "a.c": 2})] leaves [{a: {b: 1, c: 2}}]. *)
Example CONVERT_DOT_TO_OBJECT_expands :
  CONVERT_DOT_TO_OBJECT [mkObj KPlain [("a.b", VNum 1); ("a.c", VNum 2)]] (VRef 0)
  = Ok [mkObj KPlain [("a", VRef 1)];
        mkObj KPlain [("b", VNum 1); ("c", VNum 2)]].
Proof. reflexivity. Qed.

(** [GET_VALUE(data, "firstname", "params#fields", "#")], the example of the
    doc comment. *)
Example GET_VALUE_with_delimiter :
  GET_VALUE 1 [mkObj KPlain [("params", VRef 1)]; mkObj KPlain [("fields", VRef 2)];
               mkObj KPlain [("firstname", VStr "Jan")]]
            (VRef 0) (Some "firstname") (Some "params#fields") "#"
  = Ok (VStr "Jan").
Proof. reflexivity. Qed.

(** [onSort(config, ["name", "asc"])] wraps the pair, and the flush that
    follows navigates once, replacing the history entry, with the sort in
    the query. *)
Example onSort_then_flush :
  let w := mkWorld [mkObj KPlain [("syscode", VStr "grid")]; mkObj KPlain [];
                    mkObj (KArray 2) [("0", VStr "name"); ("1", VStr "asc")]]
                   None (VRef 1) "/list" [] [] in
  (w1 ← onSort w (VRef 0) (VRef 2);
   w2 ← flush 4 w1 (default [] (_queue w1));
   Ok (get (store w1) (VRef 0) "sort",
       (fun n => (nav_path n, nav_replace n,
                  get (store w2) (nav_query n) "grid")) <$> navigations w2))
  = Ok (VRef 3,
        [("/list", true,
          VStr ("{" +:+ quote "sort" +:+ ":[[" +:+ quote "name" +:+ "," +:+
                quote "asc" +:+ "]]," +:+ quote "pagination" +:+ ":{}}"))]).
Proof. by vm_compute. Qed.

(** [onLimitChange(config, 20)] on [{syscode, pagination: {page: 3}}] sets the
    limit and goes back to the first page. *)
Example onLimitChange_resets_page :
  let w := mkWorld [mkObj KPlain [("syscode", VStr "grid"); ("pagination", VRef 1)];
                    mkObj KPlain [("page", VNum 3)]]
                   None VNull "/list" [] [] in
  (fun w' => (get (store w') (VRef 1) "page", get (store w') (VRef 1) "limit",
              _queue w')) <$> onLimitChange w (VRef 0) (VNum 20) VUndef
  = Ok (VNum 1, VNum 20, Some [VRef 0]).
Proof. reflexivity. Qed.

(** A malformed value of the current query is dropped, the others are
    parsed and written back. *)
Example query_drops_malformed :
  built_keys 3 [mkObj KPlain [("bad", VStr "{oops"); ("other", VStr "[1, 2]")];
                mkObj KPlain []]
             (VRef 0) "grid" (VRef 1) VUndef
  = Ok ["other"; "grid"].
Proof. by vm_compute. Qed.

(** Deep equality tells apart what differs. *)
Example deep_equal_tells_apart :
  deep_equal 2 [mkObj KPlain [("a", VNum 1)]] (VRef 0)
               [mkObj KPlain [("a", VNum 2)]] (VRef 0) = false ∧
  deep_equal 2 [mkObj KPlain [("a", VNum 1)]] (VRef 0)
               [mkObj KPlain [("a", VNum 1); ("b", VUndef)]] (VRef 0) = false ∧
  deep_equal 2 [mkObj (KDate 1) []] (VRef 0) [mkObj (KDate 2) []] (VRef 0) = false.
Proof. by vm_compute. Qed.

(** A structure that contains itself is not nested at any depth, and
    [CLONE] does not return on it, whatever the depth allowed. *)
Example CLONE_cyclic :
  ∀ fuel,
    nested fuel [mkObj KPlain [("self", VRef 0)]] (VRef 0) = false ∧
    ∀ extra, CLONE fuel (mkObj KPlain [("self", VRef 0)] :: extra) (VRef 0)
             = OutOfFuel.
Proof.
  induction fuel as [|fuel [IHn IHc]]; [done|]. split.
  - cbn [nested]. simpl. by rewrite IHn.
  - intros extra. cbn [CLONE]. simpl.
    change (mkObj KPlain [("self", VRef 0)] :: extra ++ [mkObj KPlain []])
      with (mkObj KPlain [("self", VRef 0)] :: (extra ++ [mkObj KPlain []])).
    unfold clone_property. simpl. by rewrite IHc.
Qed.

(** ** Sequences and the lists they hold *)

Lemma value_eqb_eq v w : value_eqb v w = true ↔ v = w.
Proof.
  destruct v, w; simpl; try (split; [discriminate|discriminate]); try done.
  - rewrite Bool.eqb_true_iff. split; congruence.
  - rewrite Z.eqb_eq. split; congruence.
  - rewrite String.eqb_eq. split; congruence.
  - rewrite Nat.eqb_eq. split; congruence.
Qed.

Lemma existsb_value_eqb x ys : existsb (value_eqb x) ys = bool_decide (x ∈ ys).
Proof.
  induction ys as [|y ys IH]; simpl.
  - done.
  - rewrite IH. destruct (value_eqb x y) eqn:E; simpl.
    + apply value_eqb_eq in E as ->. symmetry. apply bool_decide_eq_true_2.
      apply list_elem_of_here.
    + apply bool_decide_ext. rewrite elem_of_cons. split; [by right|].
      intros [->|?]; [|done].
      assert (value_eqb y y = true) by by apply value_eqb_eq. congruence.
Qed.

Lemma filterM_pure {A} (f : A → outcome bool) (p : A → bool) l :
  (∀ a, a ∈ l → f a = Ok (p a)) → filterM f l = Ok (List.filter p l).
Proof.
  induction l as [|a l IH]; intros H; [done|]. simpl.
  rewrite (H a) by apply list_elem_of_here. cbn [mbind outcome_bind].
  rewrite IH by (intros; apply H; by apply list_elem_of_further).
  cbn [mbind outcome_bind]. by destruct (p a).
Qed.

Lemma filter_bool_decide {A} (P : A → Prop) `{∀ x, Decision (P x)} (l : list A) :
  List.filter (fun x => bool_decide (P x)) l = filter P l.
Proof.
  induction l as [|a l IH]; [done|]. simpl. rewrite filter_cons, IH.
  destruct (decide (P a)).
  - by rewrite bool_decide_eq_true_2.
  - by rewrite bool_decide_eq_false_2.
Qed.

Lemma omap_id_Some {A} (xs : list A) : omap id (Some <$> xs) = xs.
Proof. induction xs as [|x xs IH]; [done|]. simpl. f_equal. exact IH. Qed.

(** The slots of a sequence are its index properties. *)
Lemma slots_lookup (h : heap) l o len :
  h !! l = Some o →
  slots h (VRef l) len
  = (fun i => lookup_prop (key_of_index i) (props o)) <$> seq 0 len.
Proof.
  intros Ho. unfold slots. apply list_fmap_ext. intros _ i _.
  unfold has_own, get. rewrite Ho.
  assert (E : String.eqb (key_of_index i) "length" = false).
  { apply String.eqb_neq. apply key_of_index_not_length. }
  rewrite E.
  destruct (lookup_prop (key_of_index i) (props o)) as [x|] eqn:L.
  - rewrite bool_decide_eq_true_2 by by eexists. by destruct (okind o).
  - rewrite bool_decide_eq_false_2 by by intros [? ?]. by destruct (okind o).
Qed.

Lemma holds_inv (h : heap) v xs :
  holds h v xs = true →
  ∃ l o, v = VRef l ∧ h !! l = Some o ∧ okind o = KArray (length xs) ∧
         ∀ i, (i < length xs)%nat → lookup_prop (key_of_index i) (props o) = xs !! i.
Proof.
  unfold holds. intros [Hk Hs]%andb_prop.
  apply bool_decide_eq_true in Hk, Hs.
  destruct v as [| | | | |l]; try done. simpl in Hk.
  destruct (h !! l) as [o|] eqn:Ho; [|done]. injection Hk as Hk.
  exists l, o. split; [done|]. split; [done|]. split; [done|].
  intros i Hi. rewrite (slots_lookup _ _ _ _ Ho) in Hs.
  apply (f_equal (fun l => l !! i)) in Hs.
  rewrite !list_lookup_fmap, lookup_seq_lt in Hs by done. simpl in Hs.
  destruct (xs !! i); simpl in Hs; [by injection Hs|done].
Qed.

Lemma holds_intro (h : heap) l o xs :
  h !! l = Some o → okind o = KArray (length xs) →
  (∀ i, (i < length xs)%nat → lookup_prop (key_of_index i) (props o) = xs !! i) →
  holds h (VRef l) xs = true.
Proof.
  intros Ho Hk Hl. unfold holds. apply andb_true_intro. split.
  - apply bool_decide_eq_true. simpl. by rewrite Ho, <- Hk.
  - apply bool_decide_eq_true. rewrite (slots_lookup _ _ _ _ Ho).
    apply list_eq. intros i. rewrite !list_lookup_fmap.
    destruct (decide (i < length xs)%nat) as [Hi|Hi].
    + rewrite lookup_seq_lt by done. simpl. rewrite (Hl i Hi).
      destruct (lookup_lt_is_Some_2 xs i Hi) as [x Hx]. by rewrite Hx.
    + rewrite lookup_seq_ge by lia. by rewrite lookup_ge_None_2 by lia.
Qed.

Lemma holds_slots (h : heap) v xs :
  holds h v xs = true → slots h v (length xs) = Some <$> xs.
Proof. unfold holds. intros [_ Hs]%andb_prop. by apply bool_decide_eq_true in Hs. Qed.

Lemma holds_kind (h : heap) v xs :
  holds h v xs = true → kind_of h v = Some (KArray (length xs)).
Proof. unfold holds. intros [Hk _]%andb_prop. by apply bool_decide_eq_true in Hk. Qed.

Lemma holds_elements (h : heap) v xs :
  holds h v xs = true → elements h v (length xs) = xs.
Proof.
  intros (l & o & -> & Ho & Hk & Hl)%holds_inv. unfold elements.
  apply list_eq. intros i. rewrite list_lookup_fmap.
  destruct (decide (i < length xs)%nat) as [Hi|Hi].
  - rewrite lookup_seq_lt by done. simpl. unfold get. rewrite Ho, Hk.
    assert (E : String.eqb (key_of_index i) "length" = false).
    { apply String.eqb_neq. apply key_of_index_not_length. }
    rewrite E, (Hl i Hi). by destruct (xs !! i) eqn:X; [|apply lookup_ge_None_1 in X; lia].
  - rewrite lookup_seq_ge by lia. by rewrite lookup_ge_None_2 by lia.
Qed.

(** What the store holds elsewhere does not matter. *)
Lemma holds_frame (h h' : heap) v xs :
  (∀ l, v = VRef l → h' !! l = h !! l) → holds h' v xs = holds h v xs.
Proof.
  intros H. unfold holds. f_equal.
  - apply bool_decide_ext. destruct v; try done. simpl. by rewrite (H l).
  - apply bool_decide_ext. unfold slots.
    assert (E : ∀ i, (if has_own h' v (key_of_index i)
                      then Some (get h' v (key_of_index i)) else None)
                   = (if has_own h v (key_of_index i)
                      then Some (get h v (key_of_index i)) else None)).
    { intros i. rewrite (get_frame h h' v) by done.
      destruct v; try done. by rewrite (has_own_frame h h') by by apply H. }
    assert (L : ∀ n, ((fun i => if has_own h' v (key_of_index i)
                                then Some (get h' v (key_of_index i)) else None)
                      <$> seq 0 n)
                   = ((fun i => if has_own h v (key_of_index i)
                                then Some (get h v (key_of_index i)) else None)
                      <$> seq 0 n)).
    { intros n. apply list_fmap_ext. intros _ i _. apply E. }
    by rewrite L.
Qed.

Lemma holds_app (h extra : heap) v xs :
  holds h v xs = true → holds (h ++ extra) v xs = true.
Proof.
  intros H. rewrite (holds_frame h); [done|].
  intros l ->. apply holds_inv in H as (l' & o & [= <-] & Ho & _).
  apply lookup_app_l. by eapply lookup_lt_Some.
Qed.

Lemma lookup_prop_zip xs : ∀ first i,
  (i < length xs)%nat →
  lookup_prop (key_of_index (first + i))
              (zip (key_of_index <$> seq first (length xs)) xs) = xs !! i.
Proof.
  induction xs as [|x xs IH]; intros first i Hi; [simpl in Hi; lia|].
  simpl. unfold lookup_prop. simpl. destruct i as [|i].
  - by rewrite Nat.add_0_r, String.eqb_refl.
  - assert (E : String.eqb (key_of_index first) (key_of_index (first + S i)) = false).
    { apply String.eqb_neq. intros E%(inj key_of_index). lia. }
    rewrite E. simpl in Hi.
    replace (first + S i)%nat with (S first + i)%nat by lia.
    apply IH. lia.
Qed.

(** An array literal holds its items. *)
Lemma holds_new_array (h : heap) xs :
  new_array h xs = (h ++ [mkObj (KArray (length xs))
                                (zip (key_of_index <$> seq 0 (length xs)) xs)],
                    VRef (length h)) ∧
  holds (new_array h xs).1 (new_array h xs).2 xs = true.
Proof.
  split; [done|]. unfold new_array, alloc. simpl.
  eapply holds_intro.
  - rewrite lookup_app_r by lia. by rewrite Nat.sub_diag.
  - done.
  - intros i Hi. simpl. apply (lookup_prop_zip xs 0 i Hi).
Qed.

Lemma indexed_Some xs :
  indexed (Some <$> xs) = zip (key_of_index <$> seq 0 (length xs)) xs.
Proof.
  unfold indexed. rewrite length_fmap. generalize 0%nat.
  induction xs as [|x xs IH]; intros first; [done|].
  simpl. by rewrite IH.
Qed.

Lemma Array_filter_holds (h : heap) v xs callback (p : value → bool) :
  holds h v xs = true →
  (∀ x, x ∈ xs → callback x = Ok (p x)) →
  Array_filter h v callback = Ok (new_array h (List.filter p xs)).
Proof.
  intros H Hp. unfold Array_filter.
  rewrite (holds_kind _ _ _ H), (holds_slots _ _ _ H), omap_id_Some.
  by rewrite (filterM_pure _ p).
Qed.

Lemma includes_method_holds fuel (h : heap) v ys x :
  holds h v ys = true → includes_method fuel h v x = Ok (bool_decide (x ∈ ys)).
Proof.
  intros H. pose proof (holds_kind _ _ _ H) as Hk.
  pose proof (holds_elements _ _ _ H) as He.
  apply holds_inv in H as (l & o & -> & _). unfold includes_method.
  by rewrite Hk, He, existsb_value_eqb.
Qed.

Lemma Array_concat_holds (h : heap) v w xs ys :
  holds h v xs = true → holds h w ys = true →
  Array_concat h v w = Ok (new_array h (xs ++ ys)).
Proof.
  intros Hv Hw. pose proof (holds_kind _ _ _ Hv) as Hk.
  pose proof (holds_slots _ _ _ Hv) as Hs.
  apply holds_inv in Hv as (l & o & -> & _). unfold Array_concat.
  rewrite Hk, Hs, (holds_kind _ _ _ Hw), (holds_slots _ _ _ Hw).
  rewrite <- fmap_app, indexed_Some, length_fmap.
  unfold new_array. by rewrite length_app.
Qed.

Lemma holds_new_array_frame (h : heap) v xs ys :
  holds h v xs = true → holds (new_array h ys).1 v xs = true.
Proof. intros H. unfold new_array, alloc. cbn [fst]. by apply holds_app. Qed.

(** ** INTERSECTION and DIFFERENCE *)

Lemma INTERSECTION_run fuel (h : heap) arr1 arr2 xs ys :
  holds h arr1 xs = true → holds h arr2 ys = true →
  INTERSECTION fuel h arr1 arr2 = Ok (new_array h (filter (fun x => x ∈ ys) xs)).
Proof.
  intros H1 H2. unfold INTERSECTION.
  rewrite (Array_filter_holds h arr1 xs _ (fun x => bool_decide (x ∈ ys)) H1)
    by (intros; by apply includes_method_holds).
  by rewrite filter_bool_decide.
Qed.

Lemma DIFFERENCE_run fuel (h : heap) arr1 arr2 xs ys :
  holds h arr1 xs = true → holds h arr2 ys = true →
  let only1 := filter (fun x => x ∉ ys) xs in
  let only2 := filter (fun y => y ∉ xs) ys in
  DIFFERENCE fuel h arr1 arr2
  = Ok (new_array (new_array (new_array h only1).1 only2).1 (only1 ++ only2)).
Proof.
  intros H1 H2 only1 only2. unfold DIFFERENCE.
  rewrite (Array_filter_holds h arr1 xs _ (fun x => bool_decide (x ∉ ys)) H1).
  2:{ intros x _. rewrite (includes_method_holds fuel h arr2 ys x H2).
      cbn. by rewrite bool_decide_not. }
  rewrite filter_bool_decide. fold only1.
  destruct (holds_new_array h only1) as [E1 Hnew1].
  destruct (new_array h only1) as [h1 v1] eqn:N1. cbn [fst snd] in *.
  injection E1 as -> ->. cbn [mbind outcome_bind].
  set (h1 := h ++ _) in *.
  assert (H1' : holds h1 arr1 xs = true) by by apply holds_app.
  assert (H2' : holds h1 arr2 ys = true) by by apply holds_app.
  rewrite (Array_filter_holds h1 arr2 ys _ (fun y => bool_decide (y ∉ xs)) H2').
  2:{ intros y _. rewrite (includes_method_holds fuel h1 arr1 xs y H1').
      cbn. by rewrite bool_decide_not. }
  rewrite filter_bool_decide. fold only2.
  destruct (holds_new_array h1 only2) as [E2 Hnew2].
  destruct (new_array h1 only2) as [h2 v2] eqn:N2. cbn [fst snd] in *.
  injection E2 as -> ->. cbn [mbind outcome_bind].
  apply Array_concat_holds; [by apply holds_app|done].
Qed.

(** INTERSECTION of two sequences without holes returns a new sequence: the
    elements of the first that occur in the second, in the order and with
    the multiplicity they have in the first.  Nothing that existed is
    written. *)
Theorem INTERSECTION_elements :
  ∀ fuel (h : heap) arr1 arr2 xs ys,
    holds h arr1 xs = true → holds h arr2 ys = true →
    ∃ o, INTERSECTION fuel h arr1 arr2 = Ok (h ++ [o], VRef (length h)) ∧
         holds (h ++ [o]) (VRef (length h)) (filter (fun x => x ∈ ys) xs) = true ∧
         holds (h ++ [o]) arr1 xs = true ∧ holds (h ++ [o]) arr2 ys = true.
Proof.
  intros fuel h arr1 arr2 xs ys H1 H2.
  rewrite (INTERSECTION_run fuel h arr1 arr2 xs ys H1 H2).
  destruct (holds_new_array h (filter (fun x => x ∈ ys) xs)) as [-> Hnew].
  eexists. split; [done|]. split; [exact Hnew|].
  split; by apply holds_app.
Qed.

Lemma INTERSECTION_elements_witness :
  ∃ o, INTERSECTION 0 [mkObj (KArray 3) [("0", VStr "a"); ("1", VStr "b"); ("2", VStr "a")];
                       mkObj (KArray 2) [("0", VStr "c"); ("1", VStr "a")]]
                    (VRef 0) (VRef 1)
       = Ok ([mkObj (KArray 3) [("0", VStr "a"); ("1", VStr "b"); ("2", VStr "a")];
              mkObj (KArray 2) [("0", VStr "c"); ("1", VStr "a")]] ++ [o], VRef 2) ∧
       holds ([mkObj (KArray 3) [("0", VStr "a"); ("1", VStr "b"); ("2", VStr "a")];
               mkObj (KArray 2) [("0", VStr "c"); ("1", VStr "a")]] ++ [o]) (VRef 2)
             [VStr "a"; VStr "a"] = true.
Proof.
  destruct (INTERSECTION_elements 0
              [mkObj (KArray 3) [("0", VStr "a"); ("1", VStr "b"); ("2", VStr "a")];
               mkObj (KArray 2) [("0", VStr "c"); ("1", VStr "a")]]
              (VRef 0) (VRef 1) [VStr "a"; VStr "b"; VStr "a"] [VStr "c"; VStr "a"]
              eq_refl eq_refl) as (o & Hrun & Hres & _).
  exists o. split; [exact Hrun|exact Hres].
Defined.

(** DIFFERENCE of two sequences without holes returns a new sequence: the
    elements of the first that do not occur in the second, followed by the
    elements of the second that do not occur in the first, each part in its
    own order and multiplicity.  The two filtered parts are new sequences
    too; nothing that existed is written. *)
Theorem DIFFERENCE_elements :
  ∀ fuel (h : heap) arr1 arr2 xs ys,
    holds h arr1 xs = true → holds h arr2 ys = true →
    ∃ o1 o2 o,
      DIFFERENCE fuel h arr1 arr2 = Ok (h ++ [o1; o2; o], VRef (length h + 2)) ∧
      holds (h ++ [o1; o2; o]) (VRef (length h + 2))
            (filter (fun x => x ∉ ys) xs ++ filter (fun y => y ∉ xs) ys) = true ∧
      holds (h ++ [o1; o2; o]) arr1 xs = true ∧
      holds (h ++ [o1; o2; o]) arr2 ys = true.
Proof.
  intros fuel h arr1 arr2 xs ys H1 H2.
  rewrite (DIFFERENCE_run fuel h arr1 arr2 xs ys H1 H2).
  set (only1 := filter (fun x => x ∉ ys) xs).
  set (only2 := filter (fun y => y ∉ xs) ys).
  destruct (holds_new_array h only1) as [E1 _]. rewrite E1. cbn [fst].
  set (o1 := mkObj (KArray (length only1)) _).
  destruct (holds_new_array (h ++ [o1]) only2) as [E2 _]. rewrite E2. cbn [fst].
  set (o2 := mkObj (KArray (length only2)) _).
  destruct (holds_new_array ((h ++ [o1]) ++ [o2]) (only1 ++ only2)) as [E Hnew].
  rewrite E in Hnew |- *. cbn [fst snd] in Hnew.
  set (o := mkObj (KArray (length (only1 ++ only2))) _) in *.
  assert (Hh : ((h ++ [o1]) ++ [o2]) ++ [o] = h ++ [o1; o2; o])
    by by rewrite <- !app_assoc.
  assert (Hl : length ((h ++ [o1]) ++ [o2]) = (length h + 2)%nat)
    by (rewrite !length_app; simpl; lia).
  rewrite Hh, Hl in *.
  exists o1, o2, o. split; [done|]. split; [exact Hnew|].
  split; by apply holds_app.
Qed.

Lemma DIFFERENCE_elements_witness :
  ∃ o1 o2 o,
    DIFFERENCE 0 [mkObj (KArray 2) [("0", VStr "a"); ("1", VStr "b")];
                  mkObj (KArray 2) [("0", VStr "b"); ("1", VStr "c")]]
               (VRef 0) (VRef 1)
    = Ok ([mkObj (KArray 2) [("0", VStr "a"); ("1", VStr "b")];
           mkObj (KArray 2) [("0", VStr "b"); ("1", VStr "c")]] ++ [o1; o2; o],
          VRef 4) ∧
    holds ([mkObj (KArray 2) [("0", VStr "a"); ("1", VStr "b")];
            mkObj (KArray 2) [("0", VStr "b"); ("1", VStr "c")]] ++ [o1; o2; o])
          (VRef 4) [VStr "a"; VStr "c"] = true.
Proof.
  destruct (DIFFERENCE_elements 0
              [mkObj (KArray 2) [("0", VStr "a"); ("1", VStr "b")];
               mkObj (KArray 2) [("0", VStr "b"); ("1", VStr "c")]]
              (VRef 0) (VRef 1) [VStr "a"; VStr "b"] [VStr "b"; VStr "c"]
              eq_refl eq_refl) as (o1 & o2 & o & Hrun & Hres & _).
  exists o1, o2, o. split; [exact Hrun|exact Hres].
Defined.

(** INTERSECTION and DIFFERENCE split the elements of their arguments: run
    one after the other on the same two sequences, the two results have no
    element in common, and every element of either argument is in one of
    them. *)
Theorem INTERSECTION_DIFFERENCE_partition :
  ∀ fuel (h : heap) arr1 arr2 xs ys,
    holds h arr1 xs = true → holds h arr2 ys = true →
    ∃ h1 common h2 apart cs ds,
      INTERSECTION fuel h arr1 arr2 = Ok (h1, common) ∧
      DIFFERENCE fuel h1 arr1 arr2 = Ok (h2, apart) ∧
      holds h2 common cs = true ∧ holds h2 apart ds = true ∧
      (∀ x, x ∈ cs → x ∉ ds) ∧
      (∀ x, x ∈ xs ∨ x ∈ ys → x ∈ cs ∨ x ∈ ds).
Proof.
  intros fuel h arr1 arr2 xs ys H1 H2.
  set (cs := filter (fun x => x ∈ ys) xs).
  set (ds := filter (fun x => x ∉ ys) xs ++ filter (fun y => y ∉ xs) ys).
  destruct (holds_new_array h cs) as [_ Hc].
  destruct (new_array h cs) as [h1 common] eqn:N. cbn [fst snd] in Hc.
  assert (Hh1 : h1 = h ++ [mkObj (KArray (length cs))
                                 (zip (key_of_index <$> seq 0 (length cs)) cs)])
    by (by injection N as <- _).
  assert (H1' : holds h1 arr1 xs = true) by (rewrite Hh1; by apply holds_app).
  assert (H2' : holds h1 arr2 ys = true) by (rewrite Hh1; by apply holds_app).
  pose proof (DIFFERENCE_run fuel h1 arr1 arr2 xs ys H1' H2') as Hd.
  cbn zeta in Hd. fold ds in Hd.
  set (h1' := (new_array (new_array h1 _).1 _).1) in Hd.
  destruct (holds_new_array h1' ds) as [_ Hds].
  destruct (new_array h1' ds) as [h2 apart] eqn:N2. cbn [fst snd] in Hds.
  exists h1, common, h2, apart, cs, ds.
  split.
  { rewrite (INTERSECTION_run fuel h arr1 arr2 xs ys H1 H2). fold cs.
    by rewrite N. }
  split; [done|]. split.
  { assert (E : h2 = (new_array h1' ds).1) by by rewrite N2.
    rewrite E. subst h1'. by do 3 apply holds_new_array_frame. }
  split; [done|]. split.
  - intros x [Hx Hy]%list_elem_of_filter [[? _]%list_elem_of_filter|[? Hn]%list_elem_of_filter]%elem_of_app;
      done.
  - intros x Hx. destruct (decide (x ∈ xs)) as [Hin1|Hout1];
      destruct (decide (x ∈ ys)) as [Hin2|Hout2].
    + left. by apply list_elem_of_filter.
    + right. apply elem_of_app. left. by apply list_elem_of_filter.
    + right. apply elem_of_app. right. by apply list_elem_of_filter.
    + by destruct Hx.
Qed.

Lemma INTERSECTION_DIFFERENCE_partition_witness :
  ∃ h1 common h2 apart cs ds,
    INTERSECTION 0 [mkObj (KArray 2) [("0", VStr "a"); ("1", VStr "b")];
                    mkObj (KArray 2) [("0", VStr "b"); ("1", VStr "c")]]
                 (VRef 0) (VRef 1) = Ok (h1, common) ∧
    DIFFERENCE 0 h1 (VRef 0) (VRef 1) = Ok (h2, apart) ∧
    holds h2 common cs = true ∧ holds h2 apart ds = true ∧
    (∀ x, x ∈ cs → x ∉ ds) ∧
    (∀ x, x ∈ [VStr "a"; VStr "b"] ∨ x ∈ [VStr "b"; VStr "c"] → x ∈ cs ∨ x ∈ ds).
Proof.
  apply (INTERSECTION_DIFFERENCE_partition 0
           [mkObj (KArray 2) [("0", VStr "a"); ("1", VStr "b")];
            mkObj (KArray 2) [("0", VStr "b"); ("1", VStr "c")]]
           (VRef 0) (VRef 1) [VStr "a"; VStr "b"] [VStr "b"; VStr "c"]);
    reflexivity.
Defined.

Lemma Array_filter_not_array (h : heap) v callback :
  Array_isArray h v = false → Array_filter h v callback = Throw TypeError.
Proof.
  unfold Array_isArray, Array_filter, kind_of. destruct v as [| | | | |l]; try done.
  by destruct (h !! l) as [[[] ?]|].
Qed.

(** Outside the declared types.  (1) With an empty first sequence
    INTERSECTION never looks at its second argument: the result is a new
    empty sequence, whatever the second argument is.  (2) DIFFERENCE
    filters its second argument as well, so with an empty first sequence
    it throws a TypeError unless the second argument is a sequence.
    (3) Both throw a TypeError when the first argument is not a sequence.
    (4) With a first sequence that has an element, INTERSECTION throws a
    TypeError when the second argument is [undefined] or [null]. *)
Theorem sequence_arguments :
  (∀ fuel (h : heap) arr1 arr2,
      holds h arr1 [] = true →
      INTERSECTION fuel h arr1 arr2 = Ok (h ++ [mkObj (KArray 0) []], VRef (length h))) ∧
  (∀ fuel (h : heap) arr1 arr2,
      holds h arr1 [] = true →
      allocated h arr2 = true → Array_isArray h arr2 = false →
      DIFFERENCE fuel h arr1 arr2 = Throw TypeError) ∧
  (∀ fuel (h : heap) arr1 arr2,
      Array_isArray h arr1 = false →
      INTERSECTION fuel h arr1 arr2 = Throw TypeError ∧
      DIFFERENCE fuel h arr1 arr2 = Throw TypeError) ∧
  (∀ fuel (h : heap) arr1 arr2 x xs,
      holds h arr1 (x :: xs) = true → IS_DEFINED arr2 = false →
      INTERSECTION fuel h arr1 arr2 = Throw TypeError).
Proof.
  split; [|split; [|split]].
  - intros fuel h arr1 arr2 H. unfold INTERSECTION.
    by rewrite (Array_filter_holds h arr1 [] _ (fun _ => true) H)
      by by intros x ?%elem_of_nil.
  - intros fuel h arr1 arr2 H Hal Harr. unfold DIFFERENCE.
    rewrite (Array_filter_holds h arr1 [] _ (fun _ => true) H)
      by by intros x ?%elem_of_nil.
    cbn [List.filter new_array alloc mbind outcome_bind].
    rewrite Array_filter_not_array; [done|].
    destruct arr2 as [| | | | |l]; try done. unfold Array_isArray in *.
    apply Nat.ltb_lt in Hal. by rewrite lookup_app_l.
  - intros fuel h arr1 arr2 Harr. unfold INTERSECTION, DIFFERENCE.
    by rewrite !Array_filter_not_array.
  - intros fuel h arr1 arr2 x xs H Hdef. unfold INTERSECTION, Array_filter.
    rewrite (holds_kind _ _ _ H), (holds_slots _ _ _ H). cbn.
    by destruct arr2.
Qed.

Lemma sequence_arguments_witness :
  INTERSECTION 0 [mkObj (KArray 0) []] (VRef 0) VUndef
    = Ok ([mkObj (KArray 0) []] ++ [mkObj (KArray 0) []], VRef 1) ∧
  DIFFERENCE 0 [mkObj (KArray 0) []] (VRef 0) VUndef = Throw TypeError ∧
  INTERSECTION 0 [mkObj (KArray 1) [("0", VStr "a")]] (VRef 0) VNull
    = Throw TypeError.
Proof.
  destruct sequence_arguments as (Hempty & Hsecond & _ & Hthrows).
  split; [|split].
  - by apply Hempty.
  - by apply Hsecond.
  - by apply (Hthrows 0%nat _ _ _ (VStr "a") []).
Defined.

(** ** SHUFFLE and RANDOM *)

Lemma floor_scaled_bounds x n : (0 < n)%Z → (0 ≤ floor_scaled x n < n)%Z.
Proof.
  intros Hn. unfold floor_scaled. split.
  - apply Z.div_pos; lia.
  - apply Z.div_lt_upper_bound; nia.
Qed.

(** The fraction [i / n] selects the index [i]. *)
Lemma floor_scaled_exact i n :
  (i < n)%nat → floor_scaled (mkFraction i (n - i - 1)) (Z.of_nat n) = Z.of_nat i.
Proof.
  intros Hi. unfold floor_scaled. cbn [numer under].
  replace (i + (n - i - 1) + 1)%nat with n by lia.
  apply Z.div_mul. lia.
Qed.

Lemma pretty_Z_index z : (0 ≤ z)%Z → pretty z = key_of_index (Z.to_nat z).
Proof.
  intros Hz. unfold key_of_index. destruct z as [|p|p]; [done| |lia].
  unfold pretty at 2, pretty_nat. by rewrite Z2Nat.inj_pos, positive_nat_N.
Qed.

Lemma holds_get (h : heap) v xs i x :
  holds h v xs = true → xs !! i = Some x → get h v (key_of_index i) = x.
Proof.
  intros H Hx. pose proof (holds_elements _ _ _ H) as He.
  apply (f_equal (fun l => l !! i)) in He. unfold elements in He.
  rewrite list_lookup_fmap, lookup_seq_lt in He by by eapply lookup_lt_Some.
  rewrite Hx in He. by injection He.
Qed.

Lemma holds_length (h : heap) v xs :
  holds h v xs = true → get h v "length" = VNum (Z.of_nat (length xs)).
Proof.
  intros (l & o & -> & Ho & Hk & _)%holds_inv. unfold get. by rewrite Ho, Hk.
Qed.

(** Writing an element of a sequence within its length. *)
Lemma holds_set_prop (h : heap) v xs i x :
  holds h v xs = true → (i < length xs)%nat →
  ∃ h', set_prop h v (key_of_index i) x = Ok h' ∧
        holds h' v (<[i := x]> xs) = true ∧
        length h' = length h ∧
        ∀ l, v ≠ VRef l → h' !! l = h !! l.
Proof.
  intros (l & o & -> & Ho & Hk & Hl)%holds_inv Hi.
  rewrite set_prop_define by apply key_of_index_not_length.
  eexists. split; [done|]. split; [|split].
  - eapply holds_intro.
    + by apply define_prop_lookup.
    + cbn [okind]. rewrite Hk, length_insert. cbn [grow].
      destruct (index_of_key (key_of_index i)) as [j|] eqn:E; [|done].
      apply index_of_key_Some in E. apply (inj key_of_index) in E as ->.
      f_equal. lia.
    + intros j Hj. rewrite length_insert in Hj. cbn [props].
      destruct (decide (j = i)) as [->|Hne].
      * rewrite lookup_put_prop. by rewrite list_lookup_insert_eq.
      * rewrite lookup_put_prop_ne by (intros E%(inj key_of_index); done).
        rewrite list_lookup_insert_ne by done. by apply Hl.
  - apply define_prop_length.
  - intros l' Hne. apply define_prop_lookup_ne. congruence.
Qed.

Lemma delete_insert_same {A} (xs : list A) i x : delete i (<[i := x]> xs) = delete i xs.
Proof.
  revert i. induction xs as [|y xs IH]; intros [|i]; simpl; try done.
  f_equal. apply IH.
Qed.

(** Exchanging two elements of a list permutes it. *)
Lemma swap_Permutation {A} (xs : list A) i j a b :
  xs !! i = Some a → xs !! j = Some b → <[j := a]> (<[i := b]> xs) ≡ₚ xs.
Proof.
  intros Hi Hj. destruct (decide (i = j)) as [->|Hne].
  - rewrite list_insert_insert_eq. by rewrite list_insert_id.
  - set (l1 := <[i := b]> xs).
    assert (Hl1i : l1 !! i = Some b)
      by (apply list_lookup_insert_eq; by eapply lookup_lt_Some).
    assert (Hl1j : l1 !! j = Some b) by (subst l1; by rewrite list_lookup_insert_ne).
    assert (Hl2 : <[j := a]> l1 !! j = Some a)
      by (apply list_lookup_insert_eq; by eapply lookup_lt_Some).
    rewrite (delete_Permutation _ _ _ Hl2), delete_insert_same.
    rewrite (delete_Permutation xs _ _ Hi). f_equiv.
    apply (Permutation_cons_inv (a := b)).
    rewrite <- (delete_Permutation _ _ _ Hl1j).
    rewrite (delete_Permutation _ _ _ Hl1i). subst l1.
    by rewrite delete_insert_same.
Qed.

(** One turn of the loop writes [value[j]] to the index [i] and [value[i]]
    to the index [j]. *)
Lemma shuffle_turn random draw value i (h : heap) xs :
  holds h value xs = true → (S i < length xs)%nat →
  let j := Z.to_nat (floor_scaled (random draw) (Z.of_nat (S i) + 1)) in
  ∃ a b h', xs !! S i = Some a ∧ xs !! j = Some b ∧ (j ≤ S i)%nat ∧
    shuffle_from random draw value (S i) h
      = shuffle_from random (S draw) value i h' ∧
    holds h' value (<[j := a]> (<[S i := b]> xs)) = true ∧
    length h' = length h ∧
    ∀ l, value ≠ VRef l → h' !! l = h !! l.
Proof.
  intros H Hi j.
  pose proof (floor_scaled_bounds (random draw) (Z.of_nat (S i) + 1)) as Hb.
  assert (Hj : (j ≤ S i)%nat) by (subst j; lia).
  destruct (lookup_lt_is_Some_2 xs (S i) Hi) as [a Ha].
  destruct (lookup_lt_is_Some_2 xs j ltac:(lia)) as [b Hb'].
  destruct (holds_set_prop h value xs (S i) b H Hi) as (h1 & Hs1 & H1 & Hlen1 & Hf1).
  destruct (holds_set_prop h1 value (<[S i := b]> xs) j a H1) as (h2 & Hs2 & H2 & Hlen2 & Hf2);
    [rewrite length_insert; lia|].
  exists a, b, h2. split; [done|]. split; [done|]. split; [done|]. split.
  - cbn [shuffle_from number_key]. rewrite pretty_Z_index by lia. fold j.
    rewrite (holds_get _ _ _ _ _ H Hb'), (holds_get _ _ _ _ _ H Ha).
    rewrite Hs1. cbn [mbind outcome_bind]. by rewrite Hs2.
  - split; [done|]. split; [lia|].
    intros l Hne. by rewrite Hf2, Hf1.
Qed.

Lemma shuffle_from_permutes random value : ∀ i draw (h : heap) xs,
  holds h value xs = true → (i < length xs)%nat →
  ∃ h' ys, shuffle_from random draw value i h = Ok h' ∧
           holds h' value ys = true ∧ ys ≡ₚ xs ∧
           length h' = length h ∧
           ∀ l, value ≠ VRef l → h' !! l = h !! l.
Proof.
  induction i as [|i IH]; intros draw h xs H Hi.
  - by exists h, xs.
  - destruct (shuffle_turn random draw value i h xs H Hi)
      as (a & b & h1 & Ha & Hb & Hj & -> & H1 & Hlen1 & Hf1).
    destruct (IH (S draw) h1 _ H1) as (h' & ys & Hrun & H' & Hperm & Hlen & Hf);
      [rewrite !length_insert; lia|].
    exists h', ys. split; [done|]. split; [done|]. split; [|split].
    + rewrite Hperm. by apply swap_Permutation.
    + lia.
    + intros l Hne. by rewrite Hf, Hf1.
Qed.

(** SHUFFLE of a sequence without holes, whatever the random numbers drawn:
    the call returns, the sequence holds a permutation of the elements it
    held, the store keeps its size and no other object is written.  A
    sequence of at most one element leaves the store as it is. *)
Theorem SHUFFLE_permutes :
  ∀ random (h : heap) value xs,
    holds h value xs = true →
    ∃ h' ys, SHUFFLE random h value = Ok h' ∧
             holds h' value ys = true ∧ ys ≡ₚ xs ∧
             length h' = length h ∧
             (∀ l, value ≠ VRef l → h' !! l = h !! l) ∧
             ((length xs ≤ 1)%nat → h' = h).
Proof.
  intros random h value xs H. unfold SHUFFLE.
  assert (Hlen : get_prop h value "length" = Ok (VNum (Z.of_nat (length xs)))).
  { rewrite <- (holds_length _ _ _ H).
    by apply holds_inv in H as (l & o & -> & _). }
  rewrite Hlen. cbn [mbind outcome_bind to_number].
  destruct (decide (length xs ≤ 1)%nat) as [Hshort|Hlong].
  - replace (Z.to_nat (Z.of_nat (length xs) - 1)) with 0%nat by lia.
    by exists h, xs.
  - destruct (shuffle_from_permutes random value
                (Z.to_nat (Z.of_nat (length xs) - 1)) 0 h xs H)
      as (h' & ys & Hrun & H' & Hperm & Hl & Hf); [lia|].
    exists h', ys. repeat (split; [done|]). intros ?. lia.
Qed.

Lemma SHUFFLE_permutes_witness :
  ∃ h' ys,
    SHUFFLE (fun _ => mkFraction 0 0)
            [mkObj (KArray 3) [("0", VNum 1); ("1", VNum 2); ("2", VNum 3)]] (VRef 0)
    = Ok h' ∧
    holds h' (VRef 0) ys = true ∧ ys ≡ₚ [VNum 1; VNum 2; VNum 3].
Proof.
  destruct (SHUFFLE_permutes (fun _ => mkFraction 0 0)
              [mkObj (KArray 3) [("0", VNum 1); ("1", VNum 2); ("2", VNum 3)]]
              (VRef 0) [VNum 1; VNum 2; VNum 3] eq_refl)
    as (h' & ys & Hrun & Hholds & Hperm & _).
  by exists h', ys.
Defined.

(** The turns of the loop can be steered towards any order of the elements
    [0 .. i]: the fractions [js] are the random numbers that do it. *)
Lemma shuffle_from_reaches value : ∀ i xs ys,
  (i < length xs)%nat →
  take (S i) ys ≡ₚ take (S i) xs → drop (S i) ys = drop (S i) xs →
  ∃ js : list fraction, ∀ (h : heap) random draw,
    holds h value xs = true →
    (∀ k x, js !! k = Some x → random (draw + k)%nat = x) →
    ∃ h', shuffle_from random draw value i h = Ok h' ∧ holds h' value ys = true.
Proof.
  induction i as [|n IH]; intros xs ys Hi Htake Hdrop.
  - exists []. intros h random draw H _. exists h. split; [done|].
    destruct xs as [|x xs]; [simpl in Hi; lia|].
    destruct ys as [|y ys]; [by apply Permutation_nil_cons in Htake|].
    cbn in Htake, Hdrop. rewrite take_0 in Htake.
    apply Permutation_singleton_r in Htake. by simplify_eq.
  - assert (Hlen : (S n < length ys)%nat).
    { apply Permutation_length in Htake. rewrite !length_take in Htake. lia. }
    destruct (lookup_lt_is_Some_2 ys (S n) Hlen) as [y Hy].
    assert (Hin : y ∈ take (S (S n)) xs).
    { rewrite <- Htake. apply (list_elem_of_lookup_2 _ (S n)).
      apply lookup_take_Some. split; [done|lia]. }
    apply list_elem_of_lookup_1 in Hin as [j [Hj Hjn]%lookup_take_Some].
    set (f := mkFraction j (S n - j)).
    assert (Hf : Z.to_nat (floor_scaled f (Z.of_nat (S n) + 1)) = j).
    { replace (Z.of_nat (S n) + 1)%Z with (Z.of_nat (S (S n))) by lia.
      assert (E : f = mkFraction j (S (S n) - j - 1))
        by (subst f; f_equal; lia).
      rewrite E, floor_scaled_exact by lia. lia. }
    destruct (lookup_lt_is_Some_2 xs (S n) Hi) as [a Ha].
    set (xs' := <[j := a]> (<[S n := y]> xs)).
    assert (Hlast : xs' !! S n = Some y).
    { subst xs'. destruct (decide (j = S n)) as [->|Hne].
      - rewrite list_lookup_insert_eq by (rewrite length_insert; lia). congruence.
      - rewrite list_lookup_insert_ne by done.
        by rewrite list_lookup_insert_eq by lia. }
    assert (Hdrop' : drop (S (S n)) xs' = drop (S (S n)) xs).
    { subst xs'. by rewrite !drop_insert_lt by lia. }
    assert (Hperm : take (S (S n)) xs' ≡ₚ take (S (S n)) xs).
    { apply (Permutation_app_inv_r (drop (S (S n)) xs)).
      rewrite <- Hdrop' at 1. rewrite !take_drop. subst xs'.
      by apply swap_Permutation. }
    assert (Htake' : take (S n) ys ≡ₚ take (S n) xs').
    { apply (Permutation_app_inv_r [y]).
      rewrite <- (take_S_r ys (S n) y Hy), <- (take_S_r xs' (S n) y Hlast).
      by rewrite Htake, Hperm. }
    assert (Hdrop'' : drop (S n) ys = drop (S n) xs').
    { rewrite (drop_S ys y (S n) Hy), (drop_S xs' y (S n) Hlast).
      by rewrite Hdrop', Hdrop. }
    destruct (IH xs' ys) as [js Hjs]; [|done|done|].
    { subst xs'. rewrite !length_insert. lia. }
    exists (f :: js). intros h random draw H Hr.
    assert (Hr0 : random draw = f).
    { rewrite <- (Nat.add_0_r draw). by apply Hr. }
    destruct (shuffle_turn random draw value n h xs H Hi)
      as (a' & b' & h1 & Ha' & Hb' & _ & -> & H1 & _).
    rewrite Hr0, Hf in Hb', H1.
    assert (E : <[j := a']> (<[S n := b']> xs) = xs') by (subst xs'; congruence).
    rewrite E in H1. apply (Hjs h1 random (S draw) H1). intros k x Hk.
    replace (S draw + k)%nat with (draw + S k)%nat by lia. by apply Hr.
Qed.

(** SHUFFLE is not biased against any order: for every permutation of the
    elements a sequence without holes holds, there are random numbers with
    which SHUFFLE leaves the sequence holding that permutation. *)
Theorem SHUFFLE_reaches_every_order :
  ∀ (h : heap) value xs ys,
    holds h value xs = true → ys ≡ₚ xs →
    ∃ random h', SHUFFLE random h value = Ok h' ∧ holds h' value ys = true.
Proof.
  intros h value xs ys H Hperm. unfold SHUFFLE.
  assert (Hlen : get_prop h value "length" = Ok (VNum (Z.of_nat (length xs)))).
  { rewrite <- (holds_length _ _ _ H).
    by apply holds_inv in H as (l & o & -> & _). }
  rewrite Hlen. cbn [mbind outcome_bind to_number].
  destruct xs as [|x xs].
  - apply Permutation_nil_r in Hperm as ->.
    exists (fun _ => mkFraction 0 0), h. by split.
  - set (n := length xs).
    replace (Z.to_nat (Z.of_nat (length (x :: xs)) - 1)) with n by (simpl; lia).
    destruct (shuffle_from_reaches value n (x :: xs) ys) as [js Hjs].
    + simpl. lia.
    + rewrite !take_ge; [done|simpl; lia|].
      apply Permutation_length in Hperm. simpl in *. lia.
    + rewrite !drop_ge; [done|simpl; lia|].
      apply Permutation_length in Hperm. simpl in *. lia.
    + exists (fun k => default (mkFraction 0 0) (js !! k)).
      apply (Hjs h _ 0%nat H). intros k f Hk. simpl. by rewrite Hk.
Qed.

Lemma SHUFFLE_reaches_every_order_witness :
  ∃ random h',
    SHUFFLE random [mkObj (KArray 3) [("0", VNum 1); ("1", VNum 2); ("2", VNum 3)]]
            (VRef 0) = Ok h' ∧
    holds h' (VRef 0) [VNum 3; VNum 1; VNum 2] = true.
Proof.
  apply (SHUFFLE_reaches_every_order
           [mkObj (KArray 3) [("0", VNum 1); ("1", VNum 2); ("2", VNum 3)]]
           (VRef 0) [VNum 1; VNum 2; VNum 3] [VNum 3; VNum 1; VNum 2]).
  - reflexivity.
  - apply (Permutation_app_comm [VNum 3] [VNum 1; VNum 2]).
Defined.



(** SHUFFLE outside its declared type.  [undefined] and [null] have no
    [length], and the call throws a TypeError; a number or a boolean has an
    undefined [length], the loop does not run and nothing happens; a string
    of two characters or more has indices that cannot be written, and the
    first turn of the loop throws a TypeError. *)
Theorem SHUFFLE_other_values :
  ∀ random (h : heap),
    SHUFFLE random h VUndef = Throw TypeError ∧
    SHUFFLE random h VNull = Throw TypeError ∧
    (∀ n, SHUFFLE random h (VNum n) = Ok h) ∧
    (∀ b, SHUFFLE random h (VBool b) = Ok h) ∧
    (∀ c1 c2 s, SHUFFLE random h (VStr (String c1 (String c2 s))) = Throw TypeError).
Proof.
  intros random h. repeat split; try done.
  intros c1 c2 s. unfold SHUFFLE, get_prop, get.
  change (String.eqb "length" "length") with true.
  cbn [mbind outcome_bind to_number String.length].
  by replace (Z.to_nat (Z.of_nat (S (S (String.length s))) - 1))
    with (S (String.length s)) by lia.
Qed.

(** ** CONVERT_DOT_TO_OBJECT on one dotted key *)

Lemma append_char_assoc (cur : string) c s :
  (cur +:+ String c "") +:+ s = cur +:+ String c s.
Proof.
  induction cur as [|c0 cur IH]; [done|].
  change (String c0 ((cur +:+ String c "") +:+ s) = String c0 (cur +:+ String c s)).
  by rewrite IH.
Qed.

Lemma append_empty_r (s : string) : s +:+ "" = s.
Proof.
  induction s as [|c s IH]; [done|].
  change (String c (s +:+ "") = String c s). by rewrite IH.
Qed.

Lemma includes_cons_false c s sub :
  includes (String c s) sub = false →
  String.prefix sub (String c s) = false ∧ includes s sub = false.
Proof. cbn [includes]. by intros [? ?]%orb_false_elim. Qed.

(** A string without the separator is one segment. *)
Lemma split_go_undotted s : ∀ cur,
  includes s "." = false → split_go "." 0 cur s = [cur +:+ s].
Proof.
  induction s as [|c s IH]; intros cur Hs.
  - simpl. by rewrite append_empty_r.
  - apply includes_cons_false in Hs as [Hp Hs]. cbn [split_go]. rewrite Hp.
    rewrite (IH _ Hs). by rewrite append_char_assoc.
Qed.

Lemma split_undotted s : includes s "." = false → split s "." = [s].
Proof. intros Hs. unfold split. cbn. by rewrite split_go_undotted. Qed.

Lemma split_go_dotted p n : ∀ cur,
  includes p "." = false → includes n "." = false →
  split_go "." 0 cur (p +:+ "." +:+ n) = [cur +:+ p; n].
Proof.
  induction p as [|c p IH]; intros cur Hp Hn.
  - rewrite append_empty_r.
    destruct n as [|c n]; [done|].
    change (cur :: split_go "." 0 "" (String c n) = [cur; String c n]).
    by rewrite (split_go_undotted _ "" Hn).
  - apply includes_cons_false in Hp as [Hc Hp].
    change (String c p +:+ "." +:+ n) with (String c (p +:+ "." +:+ n)).
    cbn [split_go].
    assert (Hc' : String.prefix "." (String c (p +:+ "." +:+ n)) = false).
    { cbn [String.prefix] in Hc |- *. destruct (Ascii.ascii_dec "." c); [|done].
      destruct p; cbn in Hc; discriminate Hc. }
    rewrite Hc', (IH _ Hp Hn). by rewrite append_char_assoc.
Qed.

Lemma split_dotted p n :
  includes p "." = false → includes n "." = false →
  split (p +:+ "." +:+ n) "." = [p; n].
Proof. intros Hp Hn. unfold split. cbn. by rewrite split_go_dotted. Qed.

Lemma includes_dotted p n : includes (p +:+ "." +:+ n) "." = true.
Proof.
  induction p as [|c p IH]; [by destruct n|].
  change (String c p +:+ "." +:+ n) with (String c (p +:+ "." +:+ n)).
  cbn [includes]. rewrite IH. apply orb_true_r.
Qed.

Lemma lookup_remove_prop k ps : lookup_prop k (remove_prop k ps) = None.
Proof.
  unfold lookup_prop, remove_prop. induction ps as [|[k0 v0] ps IH]; [done|].
  simpl. destruct (String.eqb k0 k) eqn:E; simpl; [done|]. by rewrite E.
Qed.

Lemma lookup_remove_prop_ne k k' ps :
  k ≠ k' → lookup_prop k' (remove_prop k ps) = lookup_prop k' ps.
Proof.
  intros Hne. unfold lookup_prop, remove_prop.
  induction ps as [|[k0 v0] ps IH]; [done|]. simpl.
  destruct (String.eqb k0 k) eqn:E; simpl.
  - apply String.eqb_eq in E as ->.
    by destruct (String.eqb k k') eqn:E'; [apply String.eqb_eq in E'|].
  - by destruct (String.eqb k0 k').
Qed.

(** On a mapping whose only dotted key is [k], the whole call is the
    expansion of [k]: the other properties are skipped. *)
Lemma convert_single_dotted (h : heap) lp pre k value post :
  h !! lp = Some (mkObj KPlain (pre ++ (k, value) :: post)) →
  Forall (fun p => undotted p = true) (pre ++ post) →
  includes k "." = true →
  CONVERT_DOT_TO_OBJECT h (VRef lp) = expand_key h (VRef lp) value k.
Proof.
  intros Hlp Hall Hk. apply Forall_app in Hall as [Hpre Hpost].
  unfold CONVERT_DOT_TO_OBJECT, ITERATE.
  assert (Hobj : IS_OBJECT h (VRef lp) = true).
  { unfold IS_OBJECT, kind_of. by rewrite Hlp. }
  rewrite Hobj. cbn [truthy andb orb].
  unfold own_keys. rewrite Hlp. cbn [props].
  rewrite fmap_app, fmap_cons. cbn [fst]. rewrite foldM_app.
  destruct (iterate_undotted (VRef lp) pre.*1 h 0%nat (undotted_keys _ Hpre))
    as [i Hi].
  rewrite Hi. cbn [mbind outcome_bind]. rewrite foldM_cons.
  assert (Hown : has_own h (VRef lp) k = true).
  { unfold has_own. rewrite Hlp. cbn [okind props].
    eapply lookup_prop_Some_has. by apply lookup_prop_middle. }
  assert (Hget : get h (VRef lp) k = value).
  { unfold get. rewrite Hlp. cbn [okind props].
    by rewrite (lookup_prop_middle k value pre post Hpre Hk). }
  rewrite Hown, Hget.
  destruct (expand_key h (VRef lp) value k) as [h1| | |]; try done.
  cbn [mbind outcome_bind].
  destruct (iterate_undotted (VRef lp) post.*1 h1 (S i) (undotted_keys _ Hpost))
    as [i' Hi'].
  by rewrite Hi'.
Qed.



(** ** String forms that are not blank *)

Lemma rev_app_empty s1 : ∀ s2, String.rev_app s1 s2 = "" → s1 = "" ∧ s2 = "".
Proof.
  induction s1 as [|a s1 IH]; intros s2 H; [done|].
  simpl in H. by destruct (IH _ H) as [_ ?].
Qed.

Lemma rev_app_last s1 : ∀ s2 c,
  c ∈ list_ascii_of_string s2 → c ∈ list_ascii_of_string (String.rev_app s1 s2).
Proof.
  induction s1 as [|a s1 IH]; intros s2 c Hc; [done|].
  simpl. apply IH. simpl. by apply list_elem_of_further.
Qed.

Lemma trim_left_empty s :
  trim_left s = "" → Forall (fun c => is_space c = true) (list_ascii_of_string s).
Proof.
  induction s as [|c s IH]; intros H; [constructor|].
  simpl in H. destruct (is_space c) eqn:E; [|done].
  simpl. constructor; [done|by apply IH].
Qed.

Lemma trim_left_head s c r : trim_left s = String c r → is_space c = false.
Proof.
  induction s as [|c0 s IH]; intros H; [done|].
  simpl in H. destruct (is_space c0) eqn:E; [by apply IH|congruence].
Qed.

(** A string that does not begin with white space is not blank. *)
Lemma TRIM_not_blank c r : is_space c = false → TRIM (String c r) ≠ "".
Proof.
  intros Hc H. unfold TRIM, String.rev in H.
  apply rev_app_empty in H as [H _].
  apply trim_left_empty in H. rewrite Forall_forall in H.
  assert (Hhead : trim_left (String c r) = String c r) by (simpl; by rewrite Hc).
  rewrite Hhead in H. simpl in H.
  assert (is_space c = true); [|congruence].
  apply H. apply rev_app_last. simpl. apply list_elem_of_here.
Qed.

Lemma pretty_N_go_head (x : N) s :
  (∃ c r, s = String c r ∧ is_space c = false) →
  ∃ c r, pretty_N_go x s = String c r ∧ is_space c = false.
Proof.
  revert s. induction (N.lt_wf_0 x) as [x _ IH]. intros s Hs.
  destruct (decide (x = 0%N)) as [->|Hx]; [by rewrite pretty_N_go_0|].
  rewrite pretty_N_go_step by lia. apply IH; [apply N.div_lt; lia|].
  eexists _, _. split; [done|]. unfold pretty_N_char. by repeat case_match.
Qed.

Lemma pretty_N_head (x : N) : ∃ c r, pretty x = String c r ∧ is_space c = false.
Proof.
  unfold pretty, pretty_N. case_decide; [by eexists _, _|].
  rewrite pretty_N_go_step by lia. apply pretty_N_go_head.
  eexists _, _. split; [done|]. unfold pretty_N_char. by repeat case_match.
Qed.

Lemma pretty_Z_not_blank (n : Z) : TRIM (pretty n) ≠ "".
Proof.
  destruct n as [|p|p].
  - by vm_compute.
  - destruct (pretty_N_head (N.pos p)) as (c & r & E & Hc).
    change (pretty (Z.pos p)) with (pretty (N.pos p)). rewrite E.
    by apply TRIM_not_blank.
  - change (pretty (Z.neg p)) with (String "-" (pretty (N.pos p))).
    by apply TRIM_not_blank.
Qed.

(** GET_VALUE lets a shown value through its last test. *)
Lemma GET_VALUE_shown fuel (h : heap) v :
  shown v = true →
  (if IS_DEFINED v then
     s ← call_toString fuel h v;
     Ok (if (0 <? String.length (TRIM s))%nat then v else VUndef)
   else Ok VUndef) = Ok v.
Proof.
  assert (Hlen : ∀ s, s ≠ "" → (0 <? String.length s)%nat = true)
    by (by intros [|? ?]).
  destruct v as [| |b|n|s|]; try done; intros Hs; cbn [IS_DEFINED call_toString].
  - destruct fuel, b; by vm_compute.
  - assert (E : to_string fuel h (VNum n) = Ok (pretty n)) by by destruct fuel.
    rewrite E. cbn [mbind outcome_bind]. by rewrite Hlen by apply pretty_Z_not_blank.
  - assert (E : to_string fuel h (VStr s) = Ok s) by by destruct fuel.
    rewrite E. cbn [mbind outcome_bind]. rewrite Hlen; [done|].
    cbn in Hs. intros E'. by rewrite E' in Hs.
Qed.

(** The expansion of a key of two segments. *)
Lemma expand_key_two (h : heap) params value p n :
  includes p "." = false → includes n "." = false →
  expand_key h params value (p +:+ "." +:+ n)
  = ('(h', _) ← (s ← expand_step value 1 (h, params) (0%nat, p);
                 expand_step value 1 s (1%nat, n));
     delete_prop h' params (p +:+ "." +:+ n)).
Proof.
  intros Hp Hn. unfold expand_key.
  rewrite includes_dotted, (split_dotted _ _ Hp Hn). cbn [length zip seq Nat.sub].
  rewrite !foldM_cons. cbn [foldM].
  destruct (expand_step value 1 (h, params) (0%nat, p)) as [s| | |]; try done.
  cbn [mbind outcome_bind].
  by destruct (expand_step value 1 s (1%nat, n)) as [[? ?]| | |].
Qed.

Lemma dotted_ne_undotted p n k : includes k "." = false → p +:+ "." +:+ n ≠ k.
Proof. intros Hk <-. by rewrite includes_dotted in Hk. Qed.





(** ** CLONE on every input *)

Lemma set_prop_copy (h : heap) l o k v :
  h !! l = Some o → k ≠ "length" ∨ non_array (okind o) = true →
  ∃ o', set_prop h (VRef l) k v = Ok (<[l := o']> h) ∧
        non_array (okind o') = non_array (okind o).
Proof.
  intros Ho [Hk|Hk].
  - rewrite set_prop_define by done. unfold define_prop. rewrite Ho.
    eexists. split; [done|]. cbn [okind]. unfold grow.
    by destruct (okind o), (index_of_key k).
  - rewrite (set_prop_non_array _ _ _ _ _ Ho Hk). by eexists.
Qed.

Section clone_any.
Variable fuel : nat.
Hypothesis IH : ∀ (h : heap) x, clone_shape h (CLONE fuel h x).
Variables (h : heap) (item : value) (array : bool).

Lemma clone_property_started hi k :
  copy_started h array hi →
  k ≠ "length" ∨ array = false →
  match clone_property (CLONE fuel) item (VRef (length h)) hi k with
  | Ok hf => copy_started h array hf
  | OutOfFuel => True
  | _ => False
  end.
Proof using IH.
  intros (Hold & Hlen & o & Ho & Hkind) Hk. unfold clone_property.
  destruct (has_own hi item k); [|by split; [|split; [|exists o]]].
  pose proof (IH hi (get hi item k)) as Hc.
  destruct (CLONE fuel hi (get hi item k)) as [[h' c]| | |]; try done.
  destruct Hc as [Hlen' Hold']. cbn [mbind outcome_bind].
  assert (Ho' : h' !! length h = Some o) by (rewrite Hold' by lia; done).
  destruct (set_prop_copy h' (length h) o k c Ho') as (o' & -> & Hkind').
  { destruct Hk as [?| ->]; [by left|right]. by rewrite Hkind. }
  split; [|split].
  - intros l Hl. rewrite list_lookup_insert_ne by lia.
    rewrite Hold' by lia. by apply Hold.
  - rewrite length_insert. lia.
  - exists o'. split; [|congruence].
    apply list_lookup_insert_eq. lia.
Qed.

Lemma clone_fold_started keys : ∀ hi,
  copy_started h array hi →
  (∀ k, k ∈ keys → k ≠ "length" ∨ array = false) →
  match foldM (clone_property (CLONE fuel) item (VRef (length h))) keys hi with
  | Ok hf => copy_started h array hf
  | OutOfFuel => True
  | _ => False
  end.
Proof using IH.
  induction keys as [|k keys IHk]; intros hi Hi Hkeys; [done|].
  rewrite foldM_cons.
  pose proof (clone_property_started hi k Hi (Hkeys k (list_elem_of_here _ _))) as Hs.
  destruct (clone_property _ _ _ hi k) as [h1| | |]; try done.
  cbn [mbind outcome_bind]. apply IHk; [done|].
  intros k' Hk'. apply Hkeys. by apply list_elem_of_further.
Qed.

(** When one of the keys holds something too deep for the depth allowed,
    the loop does not finish. *)
Lemma clone_fold_stops keys : ∀ hi,
  copy_started h array hi →
  (∀ k, k ∈ keys → k ≠ "length" ∨ array = false) →
  (∃ k, k ∈ keys ∧ has_own h item k = true ∧
        ∀ (h' : heap), (∀ l o, h !! l = Some o → h' !! l = Some o) →
                       CLONE fuel h' (get h item k) = OutOfFuel) →
  (∀ l, item = VRef l → (l < length h)%nat) →
  foldM (clone_property (CLONE fuel) item (VRef (length h))) keys hi = OutOfFuel.
Proof using IH.
  induction keys as [|k keys IHk]; intros hi Hi Hkeys (kd & Hin & Hown & Hdeep) Hitem.
  { by apply elem_of_nil in Hin. }
  rewrite foldM_cons.
  pose proof (clone_property_started hi k Hi (Hkeys k (list_elem_of_here _ _))) as Hs.
  destruct (decide (k = kd)) as [->|Hne].
  - unfold clone_property in *. destruct Hi as (Hold & Hlen & _).
    assert (Hframe : ∀ l, item = VRef l → hi !! l = h !! l)
      by (intros l Hl; apply Hold; by apply Hitem).
    assert (Hown' : has_own hi item kd = true).
    { destruct item as [| | | | |l]; try done.
      rewrite (has_own_frame h hi) by by apply Hframe. done. }
    rewrite Hown', (get_frame h hi) by done.
    rewrite Hdeep; [done|].
    intros l o Hl. rewrite Hold; [done|]. by eapply lookup_lt_Some.
  - destruct (clone_property _ _ _ hi k) as [h1| | |]; try done.
    cbn [mbind outcome_bind]. apply IHk; try done.
    + intros k' Hk'. apply Hkeys. by apply list_elem_of_further.
    + exists kd. split; [|done].
      apply elem_of_cons in Hin as [->|?]; done.
Qed.

End clone_any.

Lemma copy_started_alloc (h : heap) kd :
  copy_started h (negb (non_array kd)) (h ++ [mkObj kd []]).
Proof.
  split; [|split].
  - intros l Hl. by apply lookup_app_l.
  - rewrite length_app. simpl. lia.
  - exists (mkObj kd []). split.
    + rewrite lookup_app_r by lia. by rewrite Nat.sub_diag.
    + by destruct kd.
Qed.

Lemma copy_started_shape (h : heap) array hf y :
  copy_started h array hf → clone_shape h (Ok (hf, y)).
Proof. intros (Hold & Hlen & _). split; [lia|done]. Qed.

Lemma index_keys_not_length len k :
  k ∈ key_of_index <$> seq 0 len → k ≠ "length".
Proof.
  intros (i & -> & _)%list_elem_of_fmap. apply key_of_index_not_length.
Qed.

Lemma CLONE_shape fuel : ∀ (h : heap) x, clone_shape h (CLONE fuel h x).
Proof.
  induction fuel as [|fuel IH]; intros h x.
  - destruct x as [| | | | |l]; try (by split).
    cbn [CLONE]. destruct (h !! l) as [[[] ps]|]; cbn; try done; try (by split).
    + split; [rewrite length_app; simpl; lia|]. intros l' Hl'. by apply lookup_app_l.
    + split; [rewrite length_app; simpl; lia|]. intros l' Hl'. by apply lookup_app_l.
  - destruct x as [| | | | |l]; try (by split).
    cbn [CLONE]. destruct (h !! l) as [[[|len|t|src flags| |] ps]|] eqn:Ho;
      cbn [fmap option_fmap option_map okind]; try (by split).
    + cbn [new_object alloc].
      pose proof (clone_fold_started fuel IH h (VRef l) false (own_keys h (VRef l))
                    _ (copy_started_alloc h KPlain)) as Hf.
      destruct (foldM _ _ _) as [hf| | |]; try (by apply Hf; right).
      cbn [mbind outcome_bind]. eapply copy_started_shape. apply Hf. by right.
    + cbn [alloc].
      pose proof (clone_fold_started fuel IH h (VRef l) true
                    (key_of_index <$> seq 0 len)
                    _ (copy_started_alloc h (KArray len))) as Hf.
      destruct (foldM _ _ _) as [hf| | |];
        try (by apply Hf; intros k Hk; left; eapply index_keys_not_length).
      cbn [mbind outcome_bind]. eapply copy_started_shape. apply Hf.
      intros k Hk. left. by eapply index_keys_not_length.
    + cbn [alloc]. split; [rewrite length_app; simpl; lia|].
      intros l' Hl'. by apply lookup_app_l.
    + cbn [alloc]. split; [rewrite length_app; simpl; lia|].
      intros l' Hl'. by apply lookup_app_l.
Qed.

(** CLONE on every input, well formed or not: the call either stops for
    lack of depth or returns, and when it returns every object that existed
    is as it was.  It never throws. *)
Theorem CLONE_writes_new_objects_only :
  ∀ fuel (h : heap) x,
    CLONE fuel h x = OutOfFuel ∨
    ∃ h' y, CLONE fuel h x = Ok (h', y) ∧
            (length h ≤ length h')%nat ∧
            ∀ l : loc, (l < length h)%nat → h' !! l = h !! l.
Proof.
  intros fuel h x. pose proof (CLONE_shape fuel h x) as Hs.
  destruct (CLONE fuel h x) as [[h' y]| | |]; try done; [|by left].
  right. by exists h', y.
Qed.

Lemma visited_inv (h : heap) v keys :
  visited h v = Some keys →
  ∃ l o, v = VRef l ∧ h !! l = Some o ∧
         ((okind o = KPlain ∧ keys = (props o).*1) ∨
          (∃ len, okind o = KArray len ∧ keys = key_of_index <$> seq 0 len)).
Proof.
  unfold visited, kind_of. destruct v as [| | | | |l]; try done.
  destruct (h !! l) as [o|] eqn:Ho; [|done]. cbn.
  destruct (okind o) eqn:Hk; try done; intros [= <-]; exists l, o.
  - split; [done|]. split; [done|]. left. split; [done|].
    unfold own_keys. by rewrite Ho.
  - split; [done|]. split; [done|]. right. by eexists.
Qed.

Lemma deeper_frame n : ∀ (h h' : heap) v,
  (∀ l o, h !! l = Some o → h' !! l = Some o) →
  deeper n h v = true → deeper n h' v = true.
Proof.
  induction n as [|n IH]; intros h h' v Hext Hd.
  - cbn [deeper] in *. destruct (visited h v) as [keys|] eqn:Hv; [|done].
    pose proof Hv as Hv'.
    apply visited_inv in Hv' as (l & o & -> & Ho & _).
    assert (Hv2 : visited h' (VRef l) = visited h (VRef l)).
    { unfold visited, kind_of, own_keys. by rewrite Ho, (Hext _ _ Ho). }
    by rewrite Hv2, Hv.
  - cbn [deeper] in *. destruct (visited h v) as [keys|] eqn:Hv; [|done].
    pose proof Hv as Hv'.
    apply visited_inv in Hv' as (l & o & -> & Ho & _).
    assert (Hsame : h' !! l = h !! l) by (rewrite Ho; by apply Hext).
    assert (Hv2 : visited h' (VRef l) = visited h (VRef l)).
    { unfold visited, kind_of, own_keys. by rewrite Hsame. }
    rewrite Hv2, Hv. apply existsb_exists in Hd as (k & Hin & Hk).
    apply existsb_exists. exists k. split; [done|].
    apply andb_prop in Hk as [Hown Hdeep]. apply andb_true_intro. split.
    + by rewrite (has_own_frame h h').
    + rewrite (get_frame h h') by (intros ? [= <-]; done). by eapply IH.
Qed.

Lemma CLONE_deeper fuel : ∀ (h : heap) x,
  deeper fuel h x = true → CLONE fuel h x = OutOfFuel.
Proof.
  induction fuel as [|fuel IH]; intros h x Hd.
  - cbn [deeper] in Hd. destruct (visited h x) as [keys|] eqn:Hv; [|done].
    apply visited_inv in Hv as (l & o & -> & Ho & [[Hk _]|(len & Hk & _)]);
      cbn [CLONE]; by rewrite Ho; cbn; rewrite Hk.
  - cbn [deeper] in Hd. destruct (visited h x) as [keys|] eqn:Hv; [|done].
    apply existsb_exists in Hd as (k & Hin & Hk).
    apply andb_prop in Hk as [Hown Hdeep].
    assert (Hstop : ∀ (h' : heap), (∀ l o, h !! l = Some o → h' !! l = Some o) →
                      CLONE fuel h' (get h x k) = OutOfFuel).
    { intros h' Hext. apply IH. by eapply deeper_frame. }
    apply visited_inv in Hv as (l & o & -> & Ho & [[Hkd ->]|(len & Hkd & ->)]).
    + cbn [CLONE]. rewrite Ho. cbn [fmap option_fmap option_map]. rewrite Hkd.
      cbn [new_object alloc]. unfold own_keys at 1. rewrite Ho.
      rewrite (clone_fold_stops fuel (CLONE_shape fuel) h (VRef l) false);
        [done|apply (copy_started_alloc h KPlain)|by right| |].
      * exists k. split; [by apply list_elem_of_In|done].
      * intros ? [= <-]. by eapply lookup_lt_Some.
    + cbn [CLONE]. rewrite Ho. cbn [fmap option_fmap option_map]. rewrite Hkd.
      cbn [alloc].
      rewrite (clone_fold_stops fuel (CLONE_shape fuel) h (VRef l) true);
        [done|apply (copy_started_alloc h (KArray len))| | |].
      * intros k' Hk'. left. by eapply index_keys_not_length.
      * exists k. split; [by apply list_elem_of_In|done].
      * intros ? [= <-]. by eapply lookup_lt_Some.
Qed.

(** The depth CLONE needs.  (1) When the input holds mappings or sequences
    nested as deep as the recursion may go, or deeper, the call does not
    return.  (2) A mapping that holds itself under one of its keys is deeper
    than every bound: CLONE does not return on it, whatever the depth
    allowed. *)
Theorem CLONE_needs_depth :
  (∀ fuel (h : heap) x, deeper fuel h x = true → CLONE fuel h x = OutOfFuel) ∧
  (∀ (h : heap) l o k,
      h !! l = Some o → okind o = KPlain →
      lookup_prop k (props o) = Some (VRef l) →
      ∀ fuel, deeper fuel h (VRef l) = true ∧ CLONE fuel h (VRef l) = OutOfFuel).
Proof.
  split; [apply CLONE_deeper|].
  intros h l o k Ho Hk Hself.
  assert (Hv : visited h (VRef l) = Some (props o).*1).
  { unfold visited, kind_of, own_keys. by rewrite Ho; cbn; rewrite Hk. }
  assert (Hd : ∀ n, deeper n h (VRef l) = true).
  { induction n as [|n IHn]; cbn [deeper]; rewrite Hv; [done|].
    apply existsb_exists. exists k. split.
    - apply list_elem_of_In, elem_of_keys_lookup. by rewrite Hself.
    - apply andb_true_intro. split.
      + unfold has_own. rewrite Ho, Hk. apply bool_decide_eq_true_2.
        by rewrite Hself.
      + unfold get. by rewrite Ho, Hk, Hself. }
  intros fuel. split; [done|]. by apply CLONE_deeper.
Qed.

Lemma CLONE_needs_depth_witness :
  CLONE 1 [mkObj KPlain [("a", VRef 1)]; mkObj (KArray 1) [("0", VRef 2)];
           mkObj KPlain []] (VRef 0) = OutOfFuel ∧
  CLONE 5 [mkObj KPlain [("id", VNum 1); ("self", VRef 0)]] (VRef 0) = OutOfFuel.
Proof.
  destruct CLONE_needs_depth as [Hdeep Hself]. split.
  - by apply Hdeep.
  - by apply (Hself _ 0%nat (mkObj KPlain [("id", VNum 1); ("self", VRef 0)]) "self").
Defined.

(** ** MERGE: sources at the edges, and merging twice *)

Lemma update_prop_same k v ps :
  lookup_prop k ps = Some v → update_prop k v ps = Some ps.
Proof.
  unfold lookup_prop. induction ps as [|[k0 v0] ps IH]; intros H; [done|].
  simpl in *. destruct (String.eqb k0 k) eqn:E.
  - apply String.eqb_eq in E as ->. by injection H as ->.
  - by rewrite (IH H).
Qed.

Lemma put_prop_same k v ps : lookup_prop k ps = Some v → put_prop k v ps = ps.
Proof. intros H. unfold put_prop. by rewrite (update_prop_same _ _ _ H). Qed.

(** Assigning what the target already holds writes nothing. *)
Lemma assign_fold_same source ks (h : heap) lt o :
  h !! lt = Some o → non_array (okind o) = true →
  (∀ k, k ∈ ks → lookup_prop k (props o) = Some (get h source k)) →
  foldM (fun h' k => set_prop h' (VRef lt) k (get h' source k)) ks h = Ok h.
Proof.
  intros Ho Hkind. induction ks as [|k ks IH]; intros Hks; [done|].
  rewrite foldM_cons, (set_prop_non_array _ _ _ _ _ Ho Hkind).
  rewrite put_prop_same by (apply Hks, list_elem_of_here).
  assert (E : <[lt := mkObj (okind o) (props o)]> h = h)
    by (apply list_insert_id; by destruct o).
  rewrite E. cbn [mbind outcome_bind]. apply IH.
  intros k' Hk'. apply Hks. by apply list_elem_of_further.
Qed.

(** The sources at the edges.  (1) An [undefined] or [null] source has no
    keys to list: the call throws a TypeError, for every target, before
    anything is written.  (2) A source without own keys (an empty mapping,
    a number, a boolean) leaves the store as it is and a truthy target is
    returned unchanged. *)
Theorem MERGE_edge_sources :
  (∀ fuel (h : heap) target source,
      IS_DEFINED source = false →
      MERGE (S fuel) h target source = Throw TypeError) ∧
  (∀ fuel (h : heap) target source,
      IS_DEFINED source = true → own_keys h source = [] →
      truthy target = true →
      MERGE (S fuel) h target source = Ok (h, target)).
Proof.
  split.
  - intros fuel h target source Hs. rewrite MERGE_unfold. by destruct source.
  - intros fuel h target source Hs Hkeys Ht. rewrite MERGE_unfold.
    assert (Hk : Object_keys h source = Ok []) by (rewrite <- Hkeys; by destruct source).
    rewrite Hk. cbn [mbind outcome_bind foldM]. rewrite Ht.
    unfold Object_assign. rewrite Hkeys. by destruct target.
Qed.

Lemma MERGE_edge_sources_witness :
  MERGE 1 [mkObj KPlain [("a", VNum 1)]] (VRef 0) VUndef = Throw TypeError ∧
  MERGE 1 [mkObj KPlain [("a", VNum 1)]; mkObj KPlain []] (VRef 0) (VRef 1)
    = Ok ([mkObj KPlain [("a", VNum 1)]; mkObj KPlain []], VRef 0).
Proof.
  destruct MERGE_edge_sources as [Habsent Hempty]. split.
  - by apply Habsent.
  - by apply Hempty.
Defined.



(** A target and a source that each hold themselves under the same key:
    the merge of that key is the same merge again, and the call does not
    return, whatever the depth allowed. *)
Theorem MERGE_self_reference :
  ∀ (h : heap) target ls kd pre k post,
    h !! ls = Some (mkObj kd (pre ++ (k, VRef ls) :: post)) →
    non_array kd = true → only_nested_at k pre →
    truthy target = true → get h target k = target →
    ∀ fuel, MERGE fuel h target (VRef ls) = OutOfFuel.
Proof.
  intros h target ls kd pre k post Hls Hkd Hpre Ht Hself.
  induction fuel as [|fuel IH]; [done|].
  rewrite MERGE_unfold. cbn [Object_keys mbind outcome_bind].
  unfold own_keys. rewrite Hls. cbn [props].
  rewrite fmap_app, fmap_cons, foldM_app. cbn [fst].
  assert (Hget : ∀ j, get h (VRef ls) j
                      = default VUndef (lookup_prop j (pre ++ (k, VRef ls) :: post)))
    by (intros j; by rewrite (get_non_array _ _ _ _ Hls Hkd)).
  rewrite merge_loop_skip.
  - cbn [mbind outcome_bind]. rewrite foldM_cons. unfold merge_property at 2.
    rewrite Hget, (lookup_prop_found k _ pre post Hpre), Ht. cbn.
    by rewrite Hself, IH.
  - intros j Hj. rewrite Ht, Hget, lookup_prop_app. cbn [andb].
    apply elem_of_keys_lookup in Hj as [v Hv]. rewrite Hv. cbn.
    apply primitive_not_object. by eapply only_nested_lookup.
Qed.

Lemma MERGE_self_reference_witness :
  MERGE 7 [mkObj KPlain [("id", VNum 1); ("self", VRef 0)]] (VRef 0) (VRef 0)
  = OutOfFuel.
Proof.
  apply (MERGE_self_reference _ (VRef 0) 0 KPlain [("id", VNum 1)] "self" []);
    try done.
  by repeat constructor.
Defined.

(** ** GET_VALUE: what it returns, and paths *)

Lemma mapM_returns_or_stops {A B} (f : A → outcome B) l :
  (∀ a, a ∈ l → returns_or_stops (f a)) → returns_or_stops (mapM f l).
Proof.
  induction l as [|a l IH]; intros H; [done|]. simpl.
  pose proof (H a (list_elem_of_here _ _)) as Ha.
  destruct (f a); try done. cbn [mbind outcome_bind].
  assert (Hl : returns_or_stops (mapM f l))
    by (apply IH; intros; apply H; by apply list_elem_of_further).
  by destruct (mapM f l).
Qed.

Lemma to_string_returns_or_stops fuel : ∀ (h : heap) v,
  returns_or_stops (to_string fuel h v).
Proof.
  induction fuel as [|fuel IH]; intros h v.
  - destruct v as [| | | | |l]; try done. cbn [to_string].
    by destruct (h !! l) as [[[] ?]|].
  - destruct v as [| | | | |l]; try done. cbn [to_string].
    destruct (h !! l) as [[[] ?]|]; try done. cbn.
    match goal with |- context [mapM ?f ?l] =>
      pose proof (mapM_returns_or_stops f l) as Hm end.
    destruct (mapM _ _); try done; apply Hm; intros x _; by destruct x.
Qed.



Lemma prefix_empty s : String.prefix "" s = true.
Proof. by destruct s. Qed.

Lemma prefix_dot c s : String.prefix "." (String c s) = bool_decide (c = "."%char).
Proof.
  cbn [String.prefix]. rewrite prefix_empty.
  destruct (Ascii.ascii_dec "." c) as [<-|Hne].
  - by rewrite bool_decide_eq_true_2.
  - by rewrite bool_decide_eq_false_2 by congruence.
Qed.

(** The segments of a path joined by a dot. *)
Lemma split_go_app a b : ∀ cur,
  split_go "." 0 cur (a +:+ "." +:+ b) = split_go "." 0 cur a ++ split_go "." 0 "" b.
Proof.
  induction a as [|c a IH]; intros cur.
  - change ("" +:+ "." +:+ b) with (String "." b). cbn [split_go].
    by rewrite prefix_dot, bool_decide_eq_true_2.
  - change (String c a +:+ "." +:+ b) with (String c (a +:+ "." +:+ b)).
    cbn [split_go]. rewrite !prefix_dot. case_bool_decide.
    + cbn [String.length Nat.sub]. by rewrite IH.
    + apply IH.
Qed.

Lemma split_app a b : split (a +:+ "." +:+ b) "." = split a "." ++ split b ".".
Proof. unfold split. cbn. apply split_go_app. Qed.

Lemma given_nonempty s : s ≠ "" → given (Some s) = true.
Proof. intros H. cbn. by destruct (String.eqb s "") eqn:E; [apply String.eqb_eq in E|]. Qed.

(** Looking up through a path is looking up in what the path leads to.
    (1) When the path leads to a truthy value, GET_VALUE with a name and
    the path is GET_VALUE with the name alone on that value.  (2) A path
    [a.b] whose part [a] leads to a truthy value is the path [b] from
    there. *)
Theorem GET_VALUE_through_path :
  (∀ fuel (h : heap) item n path delimiter,
      n ≠ "" → path ≠ "" →
      truthy (walk h item (split path delimiter)) = true →
      GET_VALUE fuel h item (Some n) (Some path) delimiter
      = GET_VALUE fuel h (walk h item (split path delimiter)) (Some n) None
                  delimiter) ∧
  (∀ fuel (h : heap) item name a b,
      a ≠ "" → b ≠ "" →
      truthy (walk h item (split a ".")) = true →
      GET_VALUE fuel h item name (Some (a +:+ "." +:+ b)) "."
      = GET_VALUE fuel h (walk h item (split a ".")) name (Some b) ".").
Proof.
  assert (Hitem : ∀ (h : heap) item segments,
            truthy (walk h item segments) = true → truthy item = true).
  { intros h item segments Hw. destruct (truthy item) eqn:E; [done|].
    by rewrite walk_falsy, E in Hw. }
  split.
  - intros fuel h item n path delimiter Hn Hpath Hw.
    unfold GET_VALUE, resolved.
    rewrite (Hitem _ _ _ Hw), (given_nonempty _ Hpath), (given_nonempty _ Hn), Hw.
    change (key (Some path)) with path. change (key (Some n)) with n.
    cbn [andb given].
    set (w := walk h item (split path delimiter)).
    fold w in Hw. rewrite Hw. cbn [andb].
    destruct (IS_DEFINED (get h w n)) eqn:Hd; [by rewrite Hd|done].
  - intros fuel h item name a b Ha Hb Hw.
    assert (Hab : a +:+ "." +:+ b ≠ "") by by destruct a.
    unfold GET_VALUE, resolved.
    rewrite (Hitem _ _ _ Hw), (given_nonempty _ Hab), (given_nonempty _ Hb), Hw.
    change (key (Some (a +:+ "." +:+ b))) with (a +:+ "." +:+ b).
    change (key (Some b)) with b.
    by rewrite split_app, walk_app.
Qed.

Lemma GET_VALUE_through_path_witness :
  GET_VALUE 0 [mkObj KPlain [("a", VRef 1)]; mkObj KPlain [("b", VRef 2)];
               mkObj KPlain [("c", VStr "x")]]
            (VRef 0) (Some "c") (Some "a.b") "."
  = GET_VALUE 0 [mkObj KPlain [("a", VRef 1)]; mkObj KPlain [("b", VRef 2)];
                 mkObj KPlain [("c", VStr "x")]]
              (VRef 1) (Some "c") (Some "b") ".".
Proof.
  refine (proj2 GET_VALUE_through_path 0%nat
            [mkObj KPlain [("a", VRef 1)]; mkObj KPlain [("b", VRef 2)];
             mkObj KPlain [("c", VStr "x")]]
            (VRef 0) (Some "c") "a" "b" _ _ eq_refl); discriminate.
Defined.

(** ** The mutators of the composable: the limit and the sort *)

Lemma define_prop_is_Some (h : heap) l l' k v :
  is_Some (h !! l') → is_Some (define_prop h l k v !! l').
Proof.
  intros H. apply lookup_lt_is_Some. rewrite define_prop_length.
  by apply lookup_lt_is_Some.
Qed.

Lemma request_scroll_navigations w scrollTo :
  navigations (request_scroll w scrollTo) = navigations w.
Proof. unfold request_scroll. by destruct (truthy scrollTo). Qed.

Lemma request_scroll_scrolls w scrollTo :
  scrolls (request_scroll w scrollTo)
  = if truthy scrollTo then scrolls w ++ [scrollTo] else scrolls w.
Proof. unfold request_scroll. by destruct (truthy scrollTo). Qed.

(** [onLimitChange] on a config with a truthy [syscode].
    (1) When [config.pagination] is an object, the call sets its [limit]
    to the value given and its [page] to 1, writes no other object, queues
    [navigate(config)] without navigating, and asks for the scrolling
    exactly when [scrollTo] is truthy.
    (2) When [config.pagination] is absent, the intent is queued, but the
    limit and the page go to a new object that the config never gets:
    every object that existed is unchanged. *)
Theorem onLimitChange_pagination :
  (∀ (w : world) config limit scrollTo lp,
      truthy (opt_chain (store w) config "syscode") = true →
      get (store w) config "pagination" = VRef lp →
      (lp < length (store w))%nat →
      ∃ w', onLimitChange w config limit scrollTo = Ok w' ∧
            get (store w') (VRef lp) "limit" = limit ∧
            get (store w') (VRef lp) "page" = VNum 1 ∧
            get (store w') config "pagination" = VRef lp ∧
            (∀ l, l ≠ lp → store w' !! l = store w !! l) ∧
            _queue w' = Some [config] ∧
            navigations w' = navigations w ∧
            scrolls w' = if truthy scrollTo then scrolls w ++ [scrollTo]
                         else scrolls w) ∧
  (∀ (w : world) config limit scrollTo,
      truthy (opt_chain (store w) config "syscode") = true →
      truthy (get (store w) config "pagination") = false →
      ∃ w', onLimitChange w config limit scrollTo = Ok w' ∧
            _queue w' = Some [config] ∧
            (∀ l, (l < length (store w))%nat → store w' !! l = store w !! l) ∧
            get (store w') config "pagination" = get (store w) config "pagination").
Proof.
  split.
  - intros w config limit scrollTo lp Hsys Hpag Hlp.
    unfold onLimitChange. rewrite Hsys, Hpag. cbn [truthy].
    rewrite set_prop_define by done. cbn [mbind outcome_bind].
    rewrite set_prop_define by done. cbn [mbind outcome_bind].
    eexists. split; [done|].
    rewrite request_scroll_queue, request_scroll_store,
      request_scroll_navigations, request_scroll_scrolls.
    cbn [store _queue navigations scrolls navigate with_store].
    assert (Hsome : is_Some (store w !! lp)) by by apply lookup_lt_is_Some.
    split; [|split; [|split; [|split; [|done]]]].
    + rewrite get_define_prop_ne by done. by apply get_define_prop.
    + apply get_define_prop; [|done]. by apply define_prop_is_Some.
    + destruct (decide (config = VRef lp)) as [->|Hne].
      * by rewrite !get_define_prop_ne.
      * rewrite <- Hpag. apply get_frame. intros l ->.
        rewrite !define_prop_lookup_ne by congruence. done.
    + intros l Hl. by rewrite !define_prop_lookup_ne.
  - intros w config limit scrollTo Hsys Hpag.
    unfold onLimitChange. rewrite Hsys, Hpag. cbn [new_object alloc].
    rewrite set_prop_define by done. cbn [mbind outcome_bind].
    rewrite set_prop_define by done. cbn [mbind outcome_bind].
    eexists. split; [done|].
    rewrite request_scroll_queue, request_scroll_store.
    cbn [store _queue navigations scrolls navigate with_store].
    assert (Hold : ∀ l, (l < length (store w))%nat →
              define_prop (define_prop (store w ++ [mkObj KPlain []])
                                       (length (store w)) "limit" limit)
                          (length (store w)) "page" (VNum 1) !! l
              = store w !! l).
    { intros l Hl. rewrite !define_prop_lookup_ne by lia. by apply lookup_app_l. }
    split; [done|]. split; [done|].
    apply get_frame. intros l ->. apply Hold.
    unfold opt_chain, get in Hsys.
    destruct (store w !! l) eqn:Ho; [by eapply lookup_lt_Some|done].
Qed.

Lemma onLimitChange_pagination_witness :
  ∃ w', onLimitChange
          (mkWorld [mkObj KPlain [("syscode", VStr "grid"); ("pagination", VRef 1)];
                    mkObj KPlain [("page", VNum 3); ("limit", VNum 10)]]
                   None VNull "/list" [] [])
          (VRef 0) (VNum 20) VUndef = Ok w' ∧
        get (store w') (VRef 1) "limit" = VNum 20 ∧
        get (store w') (VRef 1) "page" = VNum 1 ∧
        _queue w' = Some [VRef 0] ∧ navigations w' = [].
Proof.
  destruct (proj1 onLimitChange_pagination
              (mkWorld [mkObj KPlain [("syscode", VStr "grid"); ("pagination", VRef 1)];
                        mkObj KPlain [("page", VNum 3); ("limit", VNum 10)]]
                       None VNull "/list" [] [])
              (VRef 0) (VNum 20) VUndef 1%nat eq_refl eq_refl)
    as (w' & Hrun & Hlimit & Hpage & _ & _ & Hq & Hnav & _); [simpl; lia|].
  by exists w'.
Defined.

Lemma grow_idem kd k : grow (grow kd k) k = grow kd k.
Proof.
  unfold grow. destruct kd; try done.
  destruct (index_of_key k); [|done]. f_equal. lia.
Qed.

(** Defining a property twice with the same value is defining it once. *)
Lemma define_prop_idem (h : heap) l k v :
  define_prop (define_prop h l k v) l k v = define_prop h l k v.
Proof.
  destruct (h !! l) as [o|] eqn:Ho.
  - unfold define_prop at 1. rewrite (define_prop_lookup _ _ _ _ _ Ho).
    cbn [okind props]. rewrite grow_idem, put_prop_same by apply lookup_put_prop.
    apply list_insert_id. by apply define_prop_lookup.
  - unfold define_prop. by rewrite Ho, Ho.
Qed.

Lemma get_define_prop_other (h : heap) l k v x k' :
  k ≠ k' → k' ≠ "length" → get (define_prop h l k v) x k' = get h x k'.
Proof.
  intros Hne Hk'. destruct (decide (x = VRef l)) as [->|Hx].
  - by apply get_define_prop_ne.
  - apply get_frame. intros l' ->. apply define_prop_lookup_ne. congruence.
Qed.

Lemma Array_isArray_define_prop (h : heap) l k v x :
  Array_isArray (define_prop h l k v) x = Array_isArray h x.
Proof.
  destruct x as [| | | | |l']; try done. unfold Array_isArray.
  destruct (decide (l = l')) as [->|Hne].
  - destruct (h !! l') as [o|] eqn:Ho.
    + rewrite (define_prop_lookup _ _ _ _ _ Ho). unfold grow.
      by destruct o as [[] ?]; cbn; try done; destruct (index_of_key k).
    + unfold define_prop. by rewrite Ho, Ho.
  - by rewrite define_prop_lookup_ne.
Qed.

Lemma Array_isArray_app (h extra : heap) x :
  Array_isArray h x = true → Array_isArray (h ++ extra) x = true.
Proof.
  destruct x as [| | | | |l]; try done. unfold Array_isArray.
  destruct (h !! l) as [o|] eqn:Ho; [|done].
  by rewrite (lookup_app_l_Some _ _ _ _ Ho).
Qed.

(** [onSort] with the sort that is already stored, when its element [0] is
    a sequence, changes nothing. *)
Lemma onSort_again (w : world) lc s :
  truthy (opt_chain (store w) (VRef lc) "syscode") = true →
  IS_DEFINED s = true →
  Array_isArray (store w) (get (store w) s "0") = true →
  get (store w) (VRef lc) "sort" = s →
  _queue w = Some [VRef lc] →
  onSort w (VRef lc) s = Ok w.
Proof.
  intros Hsys Hdef Harr Hsort Hq. unfold onSort. rewrite Hsys.
  assert (Hfirst : get_prop (store w) s "0" = Ok (get (store w) s "0"))
    by by destruct s.
  rewrite Hfirst. cbn [mbind outcome_bind]. rewrite Harr.
  cbn [mbind outcome_bind]. rewrite set_prop_define by done.
  cbn [mbind outcome_bind].
  assert (Hsame : define_prop (store w) lc "sort" s = store w).
  { unfold get in Hsort. unfold define_prop.
    destruct (store w !! lc) as [o|] eqn:Ho; [|done].
    assert (Hl : lookup_prop "sort" (props o) = Some s).
    { destruct (okind o), (lookup_prop "sort" (props o)); cbn in Hsort;
        subst; done. }
    rewrite (put_prop_same _ _ _ Hl).
    assert (Hg : grow (okind o) "sort" = okind o) by by destruct (okind o).
    rewrite Hg. apply list_insert_id. by destruct o. }
  rewrite Hsame. destruct w. cbn in *. by subst.
Qed.



(** ** ITERATE over a sequence *)

Lemma iterate_sequence_fold (h : heap) l
    (callback : heap → value → string → nat → outcome heap) :
  (∀ (h' : heap) v k i h'', callback h' v k i = Ok h'' → h'' !! l = h' !! l) →
  ∀ xs first (h' : heap),
    h' !! l = h !! l →
    (∀ j x, xs !! j = Some x →
            has_own h (VRef l) (key_of_index (first + j)) = true ∧
            get h (VRef l) (key_of_index (first + j)) = x) →
    snd <$> foldM (fun '(index, h') k =>
                     if has_own h' (VRef l) k
                     then h'' ← callback h' (get h' (VRef l) k) k index;
                          Ok (S index, h'')
                     else Ok (index, h'))
                  (key_of_index <$> seq first (length xs)) (first, h')
    = foldM (fun h' '(i, x) => callback h' x (key_of_index i) i)
            (zip (seq first (length xs)) xs) h'.
Proof.
  intros Hcb. induction xs as [|x xs IH]; intros first h' Hh' Hxs; [done|].
  cbn [length seq fmap list_fmap zip zip_with]. rewrite !foldM_cons.
  destruct (Hxs 0%nat x eq_refl) as [Hown Hget]. rewrite Nat.add_0_r in Hown, Hget.
  rewrite (has_own_frame h h' l) by done.
  rewrite (get_frame h h') by (intros ? [= <-]; done).
  rewrite Hown, Hget.
  destruct (callback h' x (key_of_index first) first) as [h1| | |] eqn:Hc; try done.
  cbn [mbind outcome_bind]. apply IH.
  - by rewrite (Hcb _ _ _ _ _ Hc).
  - intros j y Hy. replace (S first + j)%nat with (first + S j)%nat by lia.
    by apply Hxs.
Qed.

(** ITERATE over a sequence without holes and without further properties,
    for a callback that does not write to the sequence: the callback runs
    once for each element, in index order, with the element as [value], the
    index in decimal as [key], and the index as [index]; the first error of
    the callback ends the loop and is the result. *)
Theorem ITERATE_sequence :
  ∀ (h : heap) l xs (callback : heap → value → string → nat → outcome heap),
    holds h (VRef l) xs = true →
    own_keys h (VRef l) = key_of_index <$> seq 0 (length xs) →
    (∀ (h' : heap) v k i h'', callback h' v k i = Ok h'' → h'' !! l = h' !! l) →
    ITERATE h (VRef l) callback
    = foldM (fun h' '(i, x) => callback h' x (key_of_index i) i)
            (zip (seq 0 (length xs)) xs) h.
Proof.
  intros h l xs callback Hholds Hkeys Hcb. unfold ITERATE.
  assert (Harr : Array_isArray h (VRef l) = true).
  { apply holds_inv in Hholds as (l' & o & [= <-] & Ho & Hk & _).
    unfold Array_isArray. rewrite Ho. by destruct o as [[] ?]. }
  rewrite Harr, orb_true_r, Hkeys. cbn [truthy andb].
  apply (iterate_sequence_fold h l callback Hcb xs 0 h eq_refl).
  intros j x Hx. cbn [Nat.add].
  split; [|by apply (holds_get _ _ _ _ _ Hholds)].
  apply holds_inv in Hholds as (l' & o & [= <-] & Ho & Hk & Hl).
  unfold has_own. rewrite Ho, Hk.
  assert (E : String.eqb (key_of_index j) "length" = false).
  { apply String.eqb_neq. apply key_of_index_not_length. }
  rewrite E. apply bool_decide_eq_true_2.
  rewrite Hl by by eapply lookup_lt_Some. by rewrite Hx.
Qed.

Lemma ITERATE_sequence_witness :
  ITERATE [mkObj (KArray 2) [("0", VStr "a"); ("1", VStr "b")]; mkObj KPlain []]
          (VRef 0) (fun h v k _ => set_prop h (VRef 1) k v)
  = Ok [mkObj (KArray 2) [("0", VStr "a"); ("1", VStr "b")];
        mkObj KPlain [("0", VStr "a"); ("1", VStr "b")]].
Proof.
  rewrite (ITERATE_sequence _ 0 [VStr "a"; VStr "b"]); [done|done|done|].
  intros h' v k i h'' Hset. by apply (set_prop_lookup_ne _ _ _ _ _ _ Hset).
Defined.

(** ** The query of a navigation *)

Lemma mapM_Ok {A B} (f : A → outcome B) l :
  (∀ a, a ∈ l → ∃ b, f a = Ok b) → ∃ bs, mapM f l = Ok bs.
Proof.
  induction l as [|a l IH]; intros H; [by eexists|]. simpl.
  destruct (H a (list_elem_of_here _ _)) as [b ->]. cbn [mbind outcome_bind].
  destruct IH as [bs ->]; [intros; apply H; by apply list_elem_of_further|].
  by eexists.
Qed.

Lemma data_primitive d (h : heap) v : is_primitive v = true → data d h v = true.
Proof. by destruct v, d. Qed.

Lemma data_frame d : ∀ (h h' : heap) v,
  (∀ l o, h !! l = Some o → h' !! l = Some o) →
  data d h v = true → data d h' v = true.
Proof.
  induction d as [|d IH]; intros h h' v Hext Hd.
  - destruct v as [| | | | |l]; try done. cbn [data] in *.
    destruct (h !! l) as [o|] eqn:Ho; [|done]. by rewrite (Hext _ _ Ho).
  - destruct v as [| | | | |l]; try done. cbn [data] in *.
    destruct (h !! l) as [o|] eqn:Ho; [|done]. rewrite (Hext _ _ Ho).
    destruct (okind o); try done;
      (apply forallb_forall; intros p Hp; eapply IH; [done|];
       by apply (proj1 (forallb_forall _ _) Hd)).
Qed.

Lemma data_deeper d : ∀ (h : heap) v, data d h v = true → data (S d) h v = true.
Proof.
  induction d as [|d IH]; intros h v Hd.
  - destruct v as [| | | | |l]; try done. cbn [data] in *.
    destruct (h !! l) as [o|]; [|done]. by destruct (okind o).
  - destruct v as [| | | | |l]; try done. cbn [data] in Hd.
    change (data (S (S d)) h (VRef l))
      with (match h !! l with
            | Some o => match okind o with
                        | KDate _ => true
                        | _ => forallb (fun p => data (S d) h (snd p)) (props o)
                        end
            | None => false
            end).
    destruct (h !! l) as [o|]; [|done].
    destruct (okind o); try done;
      (apply forallb_forall; intros p Hp; apply IH;
       by apply (proj1 (forallb_forall _ _) Hd)).
Qed.

(** What an object of plain data holds under a key is plain data. *)
Lemma data_get d (h : heap) l o k :
  h !! l = Some o → forallb (fun p => data d h (snd p)) (props o) = true →
  k ≠ "length" ∨ non_array (okind o) = true →
  data d h (get h (VRef l) k) = true.
Proof.
  intros Ho Hall Hk. unfold get. rewrite Ho.
  assert (Hlook : data d h (default VUndef (lookup_prop k (props o))) = true).
  { destruct (lookup_prop k (props o)) as [x|] eqn:E; [|by destruct d].
    apply lookup_prop_elem in E.
    by apply (proj1 (forallb_forall _ _) Hall (k, x)), list_elem_of_In. }
  destruct (okind o); try done.
  destruct (String.eqb k "length") eqn:E; [|done].
  apply String.eqb_eq in E. by destruct Hk.
Qed.

(** [JSON.stringify] returns on plain data, given the depth. *)
Lemma JSON_stringify_data d : ∀ fuel (h : heap) v,
  data d h v = true → (d < fuel)%nat →
  ∃ r, JSON_stringify fuel h v = Ok r ∧ (v ≠ VUndef → is_Some r).
Proof.
  induction d as [|d IH]; intros fuel h v Hd Hfuel.
  - destruct fuel as [|fuel]; [lia|].
    destruct v as [| | | | |l]; try (eexists; split; [done|]; by eauto).
    cbn [data] in Hd. cbn [JSON_stringify].
    destruct (h !! l) as [o|]; [|done]. cbn.
    destruct (okind o); try done. eexists; split; [done|]; by eauto.
  - destruct fuel as [|fuel]; [lia|].
    destruct v as [| | | | |l]; try (eexists; split; [done|]; by eauto).
    cbn [data] in Hd. cbn [JSON_stringify].
    destruct (h !! l) as [o|] eqn:Ho; [|done]. cbn [fmap option_fmap option_map].
    assert (Hplain : non_array (okind o) = true →
              forallb (fun p => data d h (snd p)) (props o) = true →
              ∃ bs, mapM (fun k => r ← JSON_stringify fuel h (get h (VRef l) k);
                                   Ok (member k r)) (own_keys h (VRef l)) = Ok bs).
    { intros Hkind Hall. apply mapM_Ok. intros k _.
      destruct (IH fuel h (get h (VRef l) k)) as (r & -> & _); [|lia|by eexists].
      eapply data_get; [done|done|by right]. }
    destruct (okind o) eqn:Hk;
      try (destruct (Hplain eq_refl Hd) as [bs ->];
           eexists; split; [done|]; by eauto).
    + destruct (mapM_Ok (fun e => r ← JSON_stringify fuel h e; Ok (default "null" r))
                        (elements h (VRef l) len)) as [bs ->];
        [|eexists; split; [done|]; by eauto].
      intros e (i & -> & _)%list_elem_of_fmap.
      destruct (IH fuel h (get h (VRef l) (key_of_index i))) as (r & -> & _);
        [|lia|by eexists].
      eapply data_get; [done|done|left; apply key_of_index_not_length].
    + eexists; split; [done|]; by eauto.
Qed.

Lemma data_plain d (h : heap) l ps :
  h !! l = Some (mkObj KPlain ps) →
  data (S d) h (VRef l) = forallb (fun p => data d h (snd p)) ps.
Proof.
  intros Ho.
  change (data (S d) h (VRef l))
    with (match h !! l with
          | Some o => match okind o with
                      | KDate _ => true
                      | _ => forallb (fun p => data d h (snd p)) (props o)
                      end
          | None => false
          end).
  by rewrite Ho.
Qed.


(** An invariant of the store that every call of the callback keeps, the
    callback being given what the item holds when its turn comes. *)
Lemma ITERATE_invariant_get (P : heap → Prop) (h : heap) item callback :
  P h →
  (∀ h' k i, P h' → has_own h' item k = true →
             ∃ h'', callback h' (get h' item k) k i = Ok h'' ∧ P h'') →
  ∃ h'', ITERATE h item callback = Ok h'' ∧ P h''.
Proof.
  intros HP Hcb. unfold ITERATE.
  destruct (truthy item && _); [|by exists h].
  assert (Hloop : ∀ ks i h0, P h0 →
            ∃ i' h'', foldM (fun '(index, h') k =>
                               if has_own h' item k
                               then h'' ← callback h' (get h' item k) k index;
                                    Ok (S index, h'')
                               else Ok (index, h'))
                            ks (i, h0) = Ok (i', h'') ∧ P h'').
  { induction ks as [|k ks IH]; intros i h0 HP0; [by exists i, h0|].
    rewrite foldM_cons. destruct (has_own h0 item k) eqn:Hown.
    - destruct (Hcb h0 k i HP0 Hown) as (h1 & -> & HP1).
      cbn [mbind outcome_bind]. by apply IH.
    - cbn [mbind outcome_bind]. by apply IH. }
  destruct (Hloop (own_keys h item) 0%nat h HP) as (i' & h'' & -> & HP'').
  by exists h''.
Qed.

Lemma has_own_lookup (h : heap) l o k :
  h !! l = Some o → non_array (okind o) = true → has_own h (VRef l) k = true →
  ∃ v, lookup_prop k (props o) = Some v ∧ get h (VRef l) k = v.
Proof.
  intros Ho Hkind Hown.
  rewrite (has_own_non_array _ _ _ _ Ho Hkind) in Hown.
  apply bool_decide_eq_true in Hown as [v Hv]. exists v. split; [done|].
  by rewrite (get_non_array _ _ _ _ Ho Hkind), Hv.
Qed.

Lemma Forall_put_prop (P : string * value → Prop) k v ps :
  P (k, v) → Forall P ps → Forall P (put_prop k v ps).
Proof.
  intros Hkv Hps. apply Forall_forall. intros p Hp.
  apply put_prop_elem in Hp as [->|Hp]; [done|].
  by apply (proj1 (Forall_forall _ _) Hps).
Qed.

(** The first part of the builder when the current query holds nothing that
    parses: the values that do not parse are dropped, the mapping built has
    the one key [syscode], its entry holds plain data, the config's
    properties among it, and its [pagination] is a new object made of the
    [page] and the [limit] of the pagination argument. *)
Lemma query_entries_data d (h : heap) lq oq syscode pagination config :
  h !! lq = Some oq → non_array (okind oq) = true →
  Forall (fun p => malformed (snd p)) (props oq) →
  allocated h pagination = true → allocated h config = true →
  (∀ k, data d h (get h config k) = true) →
  data d h (opt_chain h pagination "page") = true →
  data d h (opt_chain h pagination "limit") = true →
  ∃ h' ps,
    query_entries h (VRef lq) syscode pagination config = Ok (h', VRef (length h)) ∧
    length h' = (length h + 3)%nat ∧
    h' !! length h = Some (mkObj KPlain [(syscode, VRef (S (length h)))]) ∧
    h' !! S (length h) = Some (mkObj KPlain ps) ∧
    Forall (fun p => data (S d) h' (snd p) = true) ps ∧
    lookup_prop "pagination" ps = Some (VRef (S (S (length h)))) ∧
    h' !! S (S (length h))
      = Some (mkObj KPlain [("page", opt_chain h pagination "page");
                            ("limit", opt_chain h pagination "limit")]) ∧
    ∀ l, (l < length h)%nat → h' !! l = h !! l.
Proof.
  intros Hq Hqkind Hbad Hpag Hcfg Hdata Hpage Hlimit.
  unfold query_entries. cbn [new_object alloc].
  set (n := length h).
  set (h0 := h ++ [mkObj KPlain []]).
  assert (Hlq : (lq < n)%nat) by by eapply lookup_lt_Some.
  assert (Hlen0 : length h0 = S n) by (subst h0 n; rewrite length_app; simpl; lia).
  assert (Hn0 : h0 !! n = Some (mkObj KPlain [])).
  { subst h0 n. rewrite lookup_app_r by lia. by rewrite Nat.sub_diag. }
  assert (Hq0 : h0 !! lq = Some oq) by (subst h0; by apply lookup_app_l_Some).
  (* nothing of the current query parses *)
  assert (Hit : ITERATE h0 (VRef lq) (fun h value key _ =>
                  match value with
                  | VStr text =>
                      match JSON_parse h text with
                      | Ok (h', parsed) => set_prop h' (VRef n) key parsed
                      | Throw _ => Ok h
                      | OutOfFuel => OutOfFuel
                      | Unmodelled => Unmodelled
                      end
                  | _ => set_prop h (VRef n) key value
                  end) = Ok h0).
  { destruct (ITERATE_invariant_get (fun h' => h' = h0) h0 (VRef lq)
                (fun h value key (_ : nat) =>
                  match value with
                  | VStr text =>
                      match JSON_parse h text with
                      | Ok (h', parsed) => set_prop h' (VRef n) key parsed
                      | Throw _ => Ok h
                      | OutOfFuel => OutOfFuel
                      | Unmodelled => Unmodelled
                      end
                  | _ => set_prop h (VRef n) key value
                  end) eq_refl) as (h'' & Hrun & ->); [|done].
    intros h' k i -> Hown.
    destruct (has_own_lookup _ _ _ _ Hq0 Hqkind Hown) as (v & Hv & ->).
    apply lookup_prop_elem in Hv.
    destruct (proj1 (Forall_forall _ _) Hbad _ Hv) as (text & e & Hsnd & Hparse).
    cbn [snd] in Hsnd. subst v.
    exists h0. split; [|done]. unfold JSON_parse. by rewrite Hparse. }
  rewrite Hit. cbn [mbind outcome_bind].
  rewrite (get_non_array _ _ _ _ Hn0 eq_refl). cbn [props lookup_prop List.find fmap
    option_fmap option_map default from_option id truthy mbind outcome_bind new_object alloc].
  set (h1 := h0 ++ [mkObj KPlain []]).
  rewrite Hlen0.
  assert (Hn1 : h1 !! n = Some (mkObj KPlain [])).
  { subst h1. rewrite lookup_app_l by lia. done. }
  rewrite (set_prop_non_array _ _ _ _ _ Hn1 eq_refl).
  cbn [okind props mbind outcome_bind]. rewrite put_prop_nil.
  set (h2 := <[n := mkObj KPlain [(syscode, VRef (S n))]]> h1).
  (* what the copy of the config keeps *)
  set (Inv := fun h' : heap =>
    length h' = S (S n) ∧
    h' !! n = Some (mkObj KPlain [(syscode, VRef (S n))]) ∧
    (∃ ps, h' !! S n = Some (mkObj KPlain ps) ∧
           Forall (fun p => data d h (snd p) = true) ps) ∧
    ∀ l, (l < n)%nat → h' !! l = h !! l).
  assert (Hlen1 : length h1 = S (S n)) by (subst h1; rewrite length_app; simpl; lia).
  assert (Hinv2 : Inv h2).
  { subst Inv h2. cbn beta. rewrite length_insert. split; [done|]. split.
    - apply list_lookup_insert_eq. lia.
    - split.
      + exists []. split; [|done]. rewrite list_lookup_insert_ne by lia. subst h1.
        rewrite lookup_app_r by lia. by rewrite Hlen0, Nat.sub_diag.
      + intros l Hl. rewrite list_lookup_insert_ne by lia. subst h1 h0.
        rewrite !lookup_app_l; [done|lia|rewrite length_app; simpl; lia]. }
  assert (Hcget : ∀ (h' : heap) k, (∀ l, (l < n)%nat → h' !! l = h !! l) →
            get h' config k = get h config k).
  { intros h' k Hold. apply get_frame. intros l ->. apply Hold.
    by apply Nat.ltb_lt in Hcfg. }
  assert (Hstep : ∀ h' k (i : nat), Inv h' → has_own h' config k = true →
            ∃ h'', set_prop h' (get h' (VRef n) syscode) k (get h' config k) = Ok h'' ∧
                   Inv h'').
  { intros h' k i (Hl & Hqp & (ps & He & Hps) & Hold) _.
    rewrite (get_non_array _ _ _ _ Hqp eq_refl). cbn [props].
    rewrite lookup_prop_singleton. cbn [default from_option id].
    rewrite (set_prop_non_array _ _ _ _ _ He eq_refl). eexists. split; [done|].
    subst Inv. cbn beta. rewrite length_insert. split; [done|]. split.
    - by rewrite list_lookup_insert_ne by lia.
    - split.
      + eexists. split; [apply list_lookup_insert_eq; lia|]. cbn [okind props].
        apply Forall_put_prop; [|done]. cbn [snd]. rewrite (Hcget h' k Hold).
        apply Hdata.
      + intros l Hlt. rewrite list_lookup_insert_ne by lia. by apply Hold. }
  assert (Hcfg' : ∃ h3, (if truthy config
                         then ITERATE h2 config (fun h value key _ =>
                                set_prop h (get h (VRef n) syscode) key value)
                         else Ok h2) = Ok h3 ∧ Inv h3).
  { destruct (truthy config); [|by exists h2].
    apply (ITERATE_invariant_get Inv); [done|]. intros h' k i. by apply Hstep. }
  destruct Hcfg' as (h3 & -> & (Hl3 & Hqp3 & (ps & He3 & Hps3) & Hold3)).
  cbn [mbind outcome_bind].
  assert (Hopt : ∀ k, opt_chain h3 pagination k = opt_chain h pagination k).
  { intros k. unfold opt_chain. destruct pagination as [| | | | |l]; try done.
    apply get_frame. intros l' [= <-]. apply Hold3. by apply Nat.ltb_lt in Hpag. }
  rewrite !Hopt, Hl3.
  set (page_limit := mkObj KPlain [("page", opt_chain h pagination "page");
                                   ("limit", opt_chain h pagination "limit")]).
  set (h4 := h3 ++ [page_limit]).
  assert (Hqp4 : h4 !! n = Some (mkObj KPlain [(syscode, VRef (S n))])).
  { subst h4. rewrite lookup_app_l by lia. done. }
  assert (He4 : h4 !! S n = Some (mkObj KPlain ps)).
  { subst h4. rewrite lookup_app_l by lia. done. }
  rewrite (get_non_array _ _ _ _ Hqp4 eq_refl). cbn [props].
  rewrite lookup_prop_singleton. cbn [default from_option id].
  rewrite (set_prop_non_array _ _ _ _ _ He4 eq_refl). cbn [mbind outcome_bind okind props].
  set (h5 := <[S n := mkObj KPlain (put_prop "pagination" (VRef (S (S n))) ps)]> h4).
  assert (Hlen4 : length h4 = S (S (S n))) by (subst h4; rewrite length_app; simpl; lia).
  assert (Hext : ∀ l o, h !! l = Some o → h5 !! l = Some o).
  { intros l o Ho. assert (l < n)%nat by by eapply lookup_lt_Some.
    subst h5 h4. rewrite list_lookup_insert_ne by lia.
    rewrite lookup_app_l by lia. by rewrite Hold3. }
  assert (Hpl5 : h5 !! S (S n) = Some page_limit).
  { subst h5 h4. rewrite list_lookup_insert_ne by lia.
    rewrite lookup_app_r by lia. by rewrite Hl3, Nat.sub_diag. }
  exists h5, (put_prop "pagination" (VRef (S (S n))) ps).
  split; [done|]. split; [subst h5; rewrite length_insert; lia|].
  split; [subst h5; by rewrite list_lookup_insert_ne by lia|].
  split; [subst h5; apply list_lookup_insert_eq; lia|].
  split; [|split; [apply lookup_put_prop|split; [done|]]].
  - apply Forall_put_prop.
    + cbn [snd]. subst page_limit. rewrite (data_plain _ _ _ _ Hpl5).
      cbn [forallb snd].
      rewrite (data_frame d h h5 _ Hext Hpage), (data_frame d h h5 _ Hext Hlimit).
      done.
    + eapply Forall_impl; [exact Hps3|]. intros p Hp. cbn beta in *.
      apply data_deeper. by eapply data_frame.
  - intros l Hl. destruct (h !! l) as [o|] eqn:Ho; [by apply Hext|].
    apply lookup_ge_None in Ho. lia.
Qed.

Lemma Forall_data_forallb d (h : heap) ps :
  Forall (fun p : string * value => data d h (snd p) = true) ps →
  forallb (fun p => data d h (snd p)) ps = true.
Proof.
  intros H. apply forallb_forall. intros p Hp.
  apply (proj1 (Forall_forall _ _) H). by apply list_elem_of_In.
Qed.

Lemma put_prop_singleton k v v0 : put_prop k v [(k, v0)] = [(k, v)].
Proof. unfold put_prop. simpl. by rewrite String.eqb_refl. Qed.

(** The builder when the current query holds nothing that parses and the
    config holds plain data: every value is serialised, and the mapping
    returned has the one key [syscode], holding a JSON text. *)
Lemma generate_query_data d fuel (h : heap) lq oq syscode pagination config :
  h !! lq = Some oq → non_array (okind oq) = true →
  Forall (fun p => malformed (snd p)) (props oq) →
  allocated h pagination = true → allocated h config = true →
  (∀ k, data d h (get h config k) = true) →
  data d h (opt_chain h pagination "page") = true →
  data d h (opt_chain h pagination "limit") = true →
  (S (S d) < fuel)%nat →
  ∃ h' text,
    _generateQueryParams fuel h (VRef lq) syscode pagination config
      = Ok (h', VRef (length h)) ∧
    h' !! length h = Some (mkObj KPlain [(syscode, VStr text)]) ∧
    ∀ l, (l < length h)%nat → h' !! l = h !! l.
Proof.
  intros Hq Hqkind Hbad Hpag Hcfg Hdata Hpage Hlimit Hfuel.
  destruct (query_entries_data d h lq oq syscode pagination config)
    as (h1 & ps & Hrun & Hlen & Hqp & He & Hps & _ & _ & Hold); try done.
  unfold _generateQueryParams. rewrite Hrun. cbn [mbind outcome_bind].
  set (n := length h) in *.
  assert (Hentry : data (S (S d)) h1 (VRef (S n)) = true).
  { rewrite (data_plain _ _ _ _ He). by apply Forall_data_forallb. }
  destruct (JSON_stringify_data (S (S d)) fuel h1 (VRef (S n)) Hentry Hfuel)
    as (r & Hjson & Hsome).
  destruct Hsome as [text ->]; [done|].
  unfold ITERATE.
  assert (Hobj : IS_OBJECT h1 (VRef n) = true).
  { unfold IS_OBJECT, kind_of. by rewrite Hqp. }
  rewrite Hobj. cbn [truthy andb orb]. unfold own_keys. rewrite Hqp.
  cbn [props fmap list_fmap fst]. rewrite foldM_cons.
  rewrite (has_own_non_array _ _ _ _ Hqp eq_refl),
    (get_non_array _ _ _ _ Hqp eq_refl).
  cbn [props]. rewrite lookup_prop_singleton.
  rewrite bool_decide_eq_true_2 by by eexists.
  cbn [default from_option id]. rewrite Hjson. cbn [mbind outcome_bind from_option].
  rewrite (set_prop_non_array _ _ _ _ _ Hqp eq_refl).
  cbn [mbind outcome_bind foldM fmap outcome_fmap snd okind props].
  rewrite put_prop_singleton.
  exists (<[n := mkObj KPlain [(syscode, VStr text)]]> h1), text.
  split; [done|]. split.
  - apply list_lookup_insert_eq. lia.
  - intros l Hl. rewrite list_lookup_insert_ne by lia. by apply Hold.
Qed.



(** The fields of the config that [_navigate] hands on: each is written to
    the parameters, whatever they held under that name. *)
Lemma forward_fields d (h : heap) lc n fields : ∀ (h' : heap) ps,
  (lc < n)%nat → (n < length h')%nat →
  h' !! n = Some (mkObj KPlain ps) →
  (∀ l, (l < n)%nat → h' !! l = h !! l) →
  Forall (fun p => data d h (snd p) = true) ps →
  (∀ field, field ∈ fields → data d h (get h (VRef lc) field) = true) →
  ∃ ps', foldM (fun h field => set_prop h (VRef n) field (get h (VRef lc) field))
               fields h' = Ok (<[n := mkObj KPlain ps']> h') ∧
         Forall (fun p => data d h (snd p) = true) ps'.
Proof.
  induction fields as [|field fields IH]; intros h' ps Hlc Hn Hcp Hold Hps Hfields.
  - exists ps. split; [|done]. cbn. by rewrite list_insert_id.
  - rewrite foldM_cons, (set_prop_non_array _ _ _ _ _ Hcp eq_refl).
    cbn [mbind outcome_bind okind props].
    assert (Hget : get h' (VRef lc) field = get h (VRef lc) field).
    { apply get_frame. intros l [= <-]. by apply Hold. }
    rewrite Hget.
    set (ps1 := put_prop field (get h (VRef lc) field) ps).
    destruct (IH (<[n := mkObj KPlain ps1]> h') ps1) as (ps' & Hrun & Hps'); try done.
    + by rewrite length_insert.
    + by apply list_lookup_insert_eq.
    + intros l Hl. rewrite list_lookup_insert_ne by lia. by apply Hold.
    + subst ps1. apply Forall_put_prop; [|done]. apply Hfields, list_elem_of_here.
    + intros f Hf. apply Hfields. by apply list_elem_of_further.
    + exists ps'. rewrite Hrun. by rewrite list_insert_insert_eq.
Qed.


